(** * The Xmrs semantic graph of delphin/mrs/xmrs.py

    A shallow embedding of the [Xmrs] class and of the constructors [Mrs],
    [Rmrs] and [Dmrs], followed by the properties of the specification.

    Python objects are modelled as follows.
    - [dict] and [defaultdict]: association lists in insertion order
      ([dict_get], [dict_set]); a [defaultdict] creates the missing entry when
      it is read with [d[k]], which the model writes out ([vars_getitem],
      [refs_getitem]).
    - integers: [Z]; strings: [string]; [None]-or-value: [option].
    - exceptions: the type [exn]; a function that may raise returns a
      [result].
    - mutation of [self]: explicit state passing over the record [Xmrs]. *)

From Stdlib Require Import ZArith List String Ascii Bool Lia.
From Stdlib Require Import DecimalString DecimalZ DecimalPos.
From Stdlib Require Import Permutation.
Import ListNotations.
Open Scope string_scope.
Open Scope list_scope.
Open Scope Z_scope.

Set Implicit Arguments.

(** ** Python values, exceptions and results *)

(** The values that occur as dictionary keys in error reports. *)
Inductive pyval : Type :=
| PyNone
| PyInt (z : Z)
| PyStr (s : string).

Inductive exn : Type :=
| XmrsError (msg : string)
| XmrsStructureError (msg : string)
| KeyError (k : pyval)
| AttributeError (msg : string)
| TypeError (msg : string)
| ValueError (msg : string).

Inductive result (A : Type) : Type :=
| Ok (a : A)
| Raise (e : exn).

Arguments Ok {A} a.
Arguments Raise {A} e.

Definition bind {A B : Type} (m : result A) (k : A -> result B) : result B :=
  match m with
  | Ok a => k a
  | Raise e => Raise e
  end.

Notation "x <- m ;; k" := (bind m (fun x => k))
  (at level 61, m at next level, right associativity).

(** [for x in xs: st = f st x], leaving at the first exception. *)
Fixpoint for_each {S A : Type} (f : S -> A -> result S) (xs : list A) (st : S)
  : result S :=
  match xs with
  | [] => Ok st
  | x :: xs' => st' <- f st x ;; for_each f xs' st'
  end.

(** [[f(x) for x in xs]] where [f] may raise. *)
Fixpoint map_result {A B : Type} (f : A -> result B) (xs : list A)
  : result (list B) :=
  match xs with
  | [] => Ok []
  | x :: xs' => y <- f x ;; ys <- map_result f xs' ;; Ok (y :: ys)
  end.

(** [str(z)] for an integer. *)
Definition str_Z (z : Z) : string := NilZero.string_of_int (Z.to_int z).

Definition newline : string := String (ascii_of_nat 10) EmptyString.

(** ** Keys with a boolean equality *)

Class EqKey (K : Type) : Type := {
  keqb : K -> K -> bool;
  keqb_spec : forall x y, reflect (x = y) (keqb x y)
}.

#[export] Instance EqKey_Z : EqKey Z :=
  {| keqb := Z.eqb; keqb_spec := Z.eqb_spec |}.

#[export] Instance EqKey_string : EqKey string :=
  {| keqb := String.eqb; keqb_spec := String.eqb_spec |}.

Definition option_eqb {A : Type} (eqb : A -> A -> bool) (x y : option A) : bool :=
  match x, y with
  | None, None => true
  | Some a, Some b => eqb a b
  | _, _ => false
  end.

Lemma option_eqb_spec {A : Type} (eqb : A -> A -> bool) :
  (forall a b, reflect (a = b) (eqb a b)) ->
  forall x y, reflect (x = y) (option_eqb eqb x y).
Proof.
  intros Hs [a|] [b|]; simpl; try (constructor; congruence).
  destruct (Hs a b); constructor; congruence.
Qed.

#[export] Instance EqKey_option {A : Type} `{EqKey A} : EqKey (option A) :=
  {| keqb := option_eqb keqb; keqb_spec := option_eqb_spec keqb keqb_spec |}.

Lemma keqb_refl {K : Type} `{EqKey K} (k : K) : keqb k k = true.
Proof. destruct (keqb_spec k k); congruence. Qed.

Lemma keqb_eq {K : Type} `{EqKey K} (x y : K) : keqb x y = true <-> x = y.
Proof. destruct (keqb_spec x y); split; congruence. Qed.

Lemma keqb_neq {K : Type} `{EqKey K} (x y : K) : keqb x y = false <-> x <> y.
Proof. destruct (keqb_spec x y); split; congruence. Qed.

(** ** Dictionaries in insertion order *)

Section Dict.
Context {K V : Type} `{EqKey K}.

Definition dict : Type := list (K * V).

(** [d.get(k)] *)
Fixpoint dict_get (k : K) (d : dict) : option V :=
  match d with
  | [] => None
  | (k', v) :: d' => if keqb k k' then Some v else dict_get k d'
  end.

(** [k in d] *)
Definition dict_mem (k : K) (d : dict) : bool :=
  match dict_get k d with
  | Some _ => true
  | None => false
  end.

(** [d[k] = v]: an existing key keeps its place, a new one goes last. *)
Fixpoint dict_set (k : K) (v : V) (d : dict) : dict :=
  match d with
  | [] => [(k, v)]
  | (k', v') :: d' =>
      if keqb k k' then (k', v) :: d' else (k', v') :: dict_set k v d'
  end.

Definition dict_keys (d : dict) : list K := map fst d.
Definition dict_values (d : dict) : list V := map snd d.

(** [d[k]] of a plain dict. *)
Definition dict_getitem (key_of : K -> pyval) (k : K) (d : dict) : result V :=
  match dict_get k d with
  | Some v => Ok v
  | None => Raise (KeyError (key_of k))
  end.
End Dict.

Arguments dict K V : clear implicits.

(** [x in xs] for a list or a set of keys. *)
Definition mem {K : Type} `{EqKey K} (x : K) (xs : list K) : bool :=
  existsb (keqb x) xs.

(** [set(xs)], keeping the first occurrence of each element. *)
Fixpoint to_set {K : Type} `{EqKey K} (xs : list K) : list K :=
  match xs with
  | [] => []
  | x :: xs' => x :: filter (fun y => negb (keqb y x)) (to_set xs')
  end.

(** [s.add(x)] *)
Definition set_add {K : Type} `{EqKey K} (x : K) (s : list K) : list K :=
  if mem x s then s else s ++ [x].

(** ** Constants of delphin/mrs/config.py and the classes of
    delphin/mrs/components.py

    Neither module is part of the sources at hand: the constants and the
    operations that xmrs.py takes from them are parameters of the model. *)

Class Config : Type := {
  FIRST_NODEID : Z;
  LTOP_NODEID : Z;
  IVARG_ROLE : string;
  CONSTARG_ROLE : string;
  RSTR_ROLE : string;
  EQ_POST : string;
  HEQ_POST : string;
  H_POST : string;
  NIL_POST : string;
  CVARSORT : string;
  HANDLESORT : string;
  UNKNOWNSORT : string
}.

(** [Pred] and [Lnk] objects. *)
Class Types : Type := {
  Pred : Type;
  Lnk : Type
}.

(** A property value: a string, or (after [Mrs.from_dict]) a nested dict. *)
#[warnings="-register-all"]
Inductive propval : Type :=
| PropStr (s : string)
| PropDict (d : list (string * propval)).

(** [ElementaryPredication]:
    (nodeid, pred, label, args, lnk, surface, base).  An EP stored in a graph
    carries an integer node id; the records handed to [Mrs] and [Rmrs], whose
    node id may be [None], are [Rel] below. *)
Record EP `{Types} : Type := mkEP {
  ep_nodeid : Z;
  ep_pred : Pred;
  ep_label : option string;
  ep_args : dict string string;
  ep_lnk : option Lnk;
  ep_surface : option string;
  ep_base : option string
}.

Arguments mkEP {_} _ _ _ _ _ _ _.

(** [HandleConstraint]: (hi, relation, lo). *)
Record HandleConstraint : Type := mkHC {
  hc_hi : string;
  hc_relation : string;
  hc_lo : string
}.

(** [IndividualConstraint]: (left, relation, right). *)
Record IndividualConstraint : Type := mkIC {
  ic_left : string;
  ic_relation : string;
  ic_right : string
}.

Class Components `{Types} : Type := {
  (** [var_re.match(s)] finds a match *)
  var_re_match : string -> bool;
  (** [var_sort(v)] *)
  var_sort : string -> result string;
  (** [str(pred)], as [format] prints it *)
  pred_str : Pred -> string;
  (** [Pred.is_quantifier] *)
  pred_is_quantifier : Pred -> bool;
  (** [Pred.short_form] and [Pred.string] *)
  short_form : Pred -> string;
  pred_string : Pred -> string;
  (** [Pred.string_or_grammar_pred] *)
  string_or_grammar_pred : string -> Pred;
  (** [cfrom] and [cto] of an object with a lnk; [Lnk.charspan] *)
  lnk_cfrom : Lnk -> Z;
  lnk_cto : Lnk -> Z;
  charspan : Z -> Z -> Lnk;
  (** [ElementaryPredication.is_quantifier] *)
  ep_is_quantifier : EP -> bool;
  (** [ep1 != ep2] *)
  ep_ne : EP -> EP -> bool;
  (** the serial number a new [VarGenerator] starts from *)
  vgen_start : Z
}.

(** ** The graph *)

(** An entry of [_vars]:
    [{'props': [], 'refs': defaultdict(list)}], to which [add_hcons] and
    [add_icons] add the keys ['hcrefs'] and ['icrefs']. *)
Record VarEntry : Type := mkVar {
  props : list (string * propval);
  refs : dict string (list Z);
  hcrefs : option (list (Z * string * string));
  icrefs : option (list IndividualConstraint)
}.

(** The factory of the [defaultdict] [_vars]. *)
Definition new_var : VarEntry :=
  {| props := []; refs := []; hcrefs := None; icrefs := None |}.

(** A key of [_vars]: a variable, or [None] (an EP without a label whose
    label set is asked for). *)
Abbreviation vkey := (option string) (only parsing).

Definition pyval_of_vkey (k : vkey) : pyval :=
  match k with
  | Some s => PyStr s
  | None => PyNone
  end.

Section Graph.
Context `{cfg : Config} `{tys : Types} `{cmp : !Components}.

Record Xmrs : Type := mkXmrs {
  top : option string;
  index : option string;
  xarg : option string;
  _nodeids : list Z;
  _eps : dict Z EP;
  _hcons : dict string HandleConstraint;
  _icons : dict string (list IndividualConstraint);
  _vars : dict vkey VarEntry;
  lnk : option Lnk;
  surface : option string;
  identifier : option string
}.

Definition with_vars (g : Xmrs) (vs : dict vkey VarEntry) : Xmrs :=
  {| top := top g; index := index g; xarg := xarg g;
     _nodeids := _nodeids g; _eps := _eps g; _hcons := _hcons g;
     _icons := _icons g; _vars := vs;
     lnk := lnk g; surface := surface g; identifier := identifier g |}.

(** [_vars[k]] of the defaultdict: the entry, and the table in which it
    exists. *)
Definition vars_getitem (k : vkey) (vs : dict vkey VarEntry)
  : VarEntry * dict vkey VarEntry :=
  match dict_get k vs with
  | Some d => (d, vs)
  | None => (new_var, dict_set k new_var vs)
  end.

(** [refs[role]] of the defaultdict(list). *)
Definition refs_getitem (role : string) (rs : dict string (list Z))
  : list Z * dict string (list Z) :=
  match dict_get role rs with
  | Some l => (l, rs)
  | None => ([], dict_set role [] rs)
  end.

(** [_vars[k]], for its effect only. *)
Definition vars_touch (k : vkey) (vs : dict vkey VarEntry) : dict vkey VarEntry :=
  snd (vars_getitem k vs).

Definition with_refs (d : VarEntry) (rs : dict string (list Z)) : VarEntry :=
  {| props := props d; refs := rs; hcrefs := hcrefs d; icrefs := icrefs d |}.

Definition with_props (d : VarEntry) (ps : list (string * propval)) : VarEntry :=
  {| props := ps; refs := refs d; hcrefs := hcrefs d; icrefs := icrefs d |}.

Definition with_hcrefs (d : VarEntry) (l : option (list (Z * string * string)))
  : VarEntry :=
  {| props := props d; refs := refs d; hcrefs := l; icrefs := icrefs d |}.

Definition with_icrefs (d : VarEntry) (l : option (list IndividualConstraint))
  : VarEntry :=
  {| props := props d; refs := refs d; hcrefs := hcrefs d; icrefs := l |}.

(** [_vars[k]['refs'][role].append(nodeid)] *)
Definition refs_append (k : vkey) (role : string) (nodeid : Z)
           (vs : dict vkey VarEntry) : dict vkey VarEntry :=
  let '(d, vs1) := vars_getitem k vs in
  let '(l, rs1) := refs_getitem role (refs d) in
  dict_set k (with_refs d (dict_set role (l ++ [nodeid]) rs1)) vs1.

(** The empty graph that [Xmrs.__init__] starts from. *)
Definition empty_Xmrs (top0 index0 xarg0 : option string) : Xmrs :=
  {| top := top0; index := index0; xarg := xarg0;
     _nodeids := []; _eps := []; _hcons := []; _icons := []; _vars := [];
     lnk := None; surface := None; identifier := None |}.

(** *** [Xmrs.add_eps] *)

Definition ep_exists_msg (ep : EP) : string :=
  ("EP already exists in Xmrs: " ++ str_Z (ep_nodeid ep)
     ++ " (" ++ pred_str (ep_pred ep) ++ ")")%string.

(** The loop over [ep.args.items()]. *)
Definition add_ep_arg (nodeid : Z) (vs : dict vkey VarEntry)
           (arg : string * string) : dict vkey VarEntry :=
  let '(role, val) := arg in
  if dict_mem (Some val) vs || var_re_match val
  then refs_append (Some val) role nodeid vs
  else vs.

(** One turn of the loop of [add_eps]. *)
Definition add_ep (g : Xmrs) (ep : EP) : result Xmrs :=
  let nodeid := ep_nodeid ep in
  if dict_mem nodeid (_eps g) then Raise (XmrsError (ep_exists_msg ep))
  else
    let vs1 := match ep_label ep with
               | Some lbl => refs_append (Some lbl) "LBL" nodeid (_vars g)
               | None => _vars g
               end in
    let vs2 := fold_left (add_ep_arg nodeid) (ep_args ep) vs1 in
    Ok {| top := top g; index := index g; xarg := xarg g;
          _nodeids := _nodeids g ++ [nodeid];
          _eps := dict_set nodeid ep (_eps g);
          _hcons := _hcons g; _icons := _icons g; _vars := vs2;
          lnk := lnk g; surface := surface g; identifier := identifier g |}.

Definition add_eps (eps : list EP) (g : Xmrs) : result Xmrs :=
  for_each add_ep eps g.

(** *** [Xmrs.add_hcons] *)

Definition hcons_exists_msg (hi : string) : string :=
  ("Handle constraint already exists for hole " ++ hi ++ ".")%string.

(** [for role, refs in _vars[hi]['refs'].items(): for nodeid in refs:
    (nodeid, role, hi)] *)
Definition hcrefs_of (hi : string) (rs : dict string (list Z))
  : list (Z * string * string) :=
  flat_map (fun '(role, l) => map (fun nodeid => (nodeid, role, hi)) l) rs.

Definition add_hc (g : Xmrs) (hc : HandleConstraint) : result Xmrs :=
  let hi := hc_hi hc in
  let lo := hc_lo hc in
  if dict_mem hi (_hcons g)
  then Raise (XmrsError (hcons_exists_msg hi))
  else
    (* if 'hcrefs' not in _vars[lo]: _vars[lo]['hcrefs'] = [] *)
    let '(dlo, vs1) := vars_getitem (Some lo) (_vars g) in
    let vs2 := match hcrefs dlo with
               | Some _ => vs1
               | None => dict_set (Some lo) (with_hcrefs dlo (Some [])) vs1
               end in
    (* for role, refs in _vars[hi]['refs'].items(): ... *)
    let '(dhi, vs3) := vars_getitem (Some hi) vs2 in
    let new := hcrefs_of hi (refs dhi) in
    let vs4 := fold_left
                 (fun vs r =>
                    let '(d, vs') := vars_getitem (Some lo) vs in
                    match hcrefs d with
                    | Some l => dict_set (Some lo) (with_hcrefs d (Some (l ++ [r]))) vs'
                    | None => vs'
                    end)
                 new vs3 in
    Ok {| top := top g; index := index g; xarg := xarg g;
          _nodeids := _nodeids g; _eps := _eps g;
          _hcons := dict_set hi hc (_hcons g);
          _icons := _icons g; _vars := vs4;
          lnk := lnk g; surface := surface g; identifier := identifier g |}.

Definition add_hcons (hcons : list HandleConstraint) (g : Xmrs) : result Xmrs :=
  for_each add_hc hcons g.

(** *** [Xmrs.add_icons] *)

Definition add_ic (g : Xmrs) (ic : IndividualConstraint) : result Xmrs :=
  let left_ := ic_left ic in
  let right_ := ic_right ic in
  let ics1 := if dict_mem left_ (_icons g) then _icons g
              else dict_set left_ [] (_icons g) in
  let ics2 := match dict_get left_ ics1 with
              | Some l => dict_set left_ (l ++ [ic]) ics1
              | None => ics1
              end in
  let '(dr, vs1) := vars_getitem (Some right_) (_vars g) in
  let vs2 := match icrefs dr with
             | Some _ => vs1
             | None => dict_set (Some right_) (with_icrefs dr (Some [])) vs1
             end in
  let '(dr2, vs3) := vars_getitem (Some right_) vs2 in
  let vs4 := match icrefs dr2 with
             | Some l => dict_set (Some right_) (with_icrefs dr2 (Some (l ++ [ic]))) vs3
             | None => vs3
             end in
  let vs5 := vars_touch (Some left_) vs4 in
  Ok {| top := top g; index := index g; xarg := xarg g;
        _nodeids := _nodeids g; _eps := _eps g; _hcons := _hcons g;
        _icons := ics2; _vars := vs5;
        lnk := lnk g; surface := surface g; identifier := identifier g |}.

Definition add_icons (icons : list IndividualConstraint) (g : Xmrs) : result Xmrs :=
  for_each add_ic icons g.

(** *** [Xmrs.__init__] *)

Definition touch_opt (v : option string) (vs : dict vkey VarEntry)
  : dict vkey VarEntry :=
  match v with
  | Some x => vars_touch (Some x) vs
  | None => vs
  end.

(** [_vars[var]['props'] = props] *)
Definition set_props (vs : dict vkey VarEntry) (vp : string * list (string * propval))
  : dict vkey VarEntry :=
  let '(var, ps) := vp in
  let '(d, vs1) := vars_getitem (Some var) vs in
  dict_set (Some var) (with_props d ps) vs1.

(** [Xmrs(top, index, xarg, eps, hcons, icons, vars, lnk, surface,
    identifier)]; [None] for [eps], [hcons], [icons] or [vars] is the empty
    sequence. *)
Definition Xmrs_init (top0 index0 xarg0 : option string)
           (eps : list EP) (hcons : list HandleConstraint)
           (icons : list IndividualConstraint)
           (vars : dict string (list (string * propval)))
           (lnk0 : option Lnk) (surface0 identifier0 : option string)
  : result Xmrs :=
  let g0 := empty_Xmrs top0 index0 xarg0 in
  let vs := touch_opt xarg0 (touch_opt index0 (touch_opt top0 (_vars g0))) in
  let vs := fold_left set_props vars vs in
  g1 <- add_eps eps (with_vars g0 vs) ;;
  g2 <- add_hcons hcons g1 ;;
  g3 <- add_icons icons g2 ;;
  Ok {| top := top g3; index := index g3; xarg := xarg g3;
        _nodeids := _nodeids g3; _eps := _eps g3; _hcons := _hcons g3;
        _icons := _icons g3; _vars := _vars g3;
        lnk := lnk0; surface := surface0; identifier := identifier0 |}.

(** *** Basic access to the internal structures *)

(** [Xmrs.ep] *)
Definition ep (nodeid : Z) (g : Xmrs) : result EP :=
  dict_getitem PyInt nodeid (_eps g).

(** [Xmrs.eps]; [None] for [nodeids] is [self._nodeids]. *)
Definition eps (nodeids : option (list Z)) (g : Xmrs) : result (list EP) :=
  let nids := match nodeids with Some l => l | None => _nodeids g end in
  map_result (fun nodeid => dict_getitem PyInt nodeid (_eps g)) nids.

(** [Xmrs.nodeids] *)
Definition nodeids (ivs : option (list vkey)) (quantifier : option bool)
           (g : Xmrs) : result (list Z) :=
  nids <- match ivs with
          | None => Ok (_nodeids g)
          | Some ivs =>
              for_each
                (fun nids iv =>
                   match dict_get iv (_vars g) with
                   | Some d =>
                       match dict_get IVARG_ROLE (refs d) with
                       | Some l => Ok (nids ++ l)
                       | None => Raise (KeyError (pyval_of_vkey iv))
                       end
                   | None => Raise (KeyError (pyval_of_vkey iv))
                   end)
                ivs []
          end ;;
  match quantifier with
  | None => Ok nids
  | Some q =>
      flags <- map_result
                 (fun n => e <- ep n g ;; Ok (n, Bool.eqb (ep_is_quantifier e) q))
                 nids ;;
      Ok (map fst (filter snd flags))
  end.

(** [Xmrs.nodeid]: [next(iter(...), None)] *)
Definition nodeid (iv : vkey) (quantifier : bool) (g : Xmrs) : result (option Z) :=
  nids <- nodeids (Some [iv]) (Some quantifier) g ;;
  Ok (hd_error nids).

(** [Xmrs.hcon], [Xmrs.hcons], [Xmrs.icons], [Xmrs.variables] *)
Definition hcon (hi : string) (g : Xmrs) : result HandleConstraint :=
  dict_getitem PyStr hi (_hcons g).

Definition hcons (g : Xmrs) : list HandleConstraint := dict_values (_hcons g).

Definition icons (g : Xmrs) : list IndividualConstraint :=
  List.concat (dict_values (_icons g)).

Definition icons_of (left_ : string) (g : Xmrs) : result (list IndividualConstraint) :=
  dict_getitem PyStr left_ (_icons g).

Definition variables (g : Xmrs) : list vkey := dict_keys (_vars g).

(** [dict(pairs)] *)
Definition dict_of_pairs {V : Type} (l : list (string * V)) : dict string V :=
  fold_left (fun d kv => dict_set (fst kv) (snd kv) d) l [].

(** [Xmrs.properties(var_or_nodeid, as_list)] *)
Definition properties (var_or_nodeid : pyval) (as_list : bool) (g : Xmrs)
  : result (list (string * propval)) :=
  let in_vars := match var_or_nodeid with
                 | PyStr s => dict_get (Some s) (_vars g)
                 | PyNone => dict_get None (_vars g)
                 | PyInt _ => None
                 end in
  ps <- match in_vars with
        | Some d => Ok (props d)
        | None =>
            match var_or_nodeid with
            | PyInt n =>
                match dict_get n (_eps g) with
                | Some e =>
                    (* self._vars.get(var, {}).get('props', []) *)
                    match dict_get (dict_get IVARG_ROLE (ep_args e)) (_vars g) with
                    | Some d => Ok (props d)
                    | None => Ok []
                    end
                | None => Raise (KeyError var_or_nodeid)
                end
            | _ => Raise (KeyError var_or_nodeid)
            end
        end ;;
  Ok (if as_list then ps else dict_of_pairs ps).

(** [Xmrs.pred], [Xmrs.label], [Xmrs.labels], [Xmrs.args] *)
Definition pred (nodeid : Z) (g : Xmrs) : result Pred :=
  e <- ep nodeid g ;; Ok (ep_pred e).

Definition label (nodeid : Z) (g : Xmrs) : result (option string) :=
  e <- ep nodeid g ;; Ok (ep_label e).

Definition labels (g : Xmrs) : result (list (option string)) :=
  map_result (fun nid => label nid g) (_nodeids g).

Definition args (nodeid : Z) (g : Xmrs) : result (dict string string) :=
  e <- ep nodeid g ;; Ok (ep_args e).

(** *** [Xmrs.labelset]

    [self._vars[label]['refs']['LBL']]: both defaultdicts create what is
    missing, so the call returns the list and the table after it. *)
Definition labelset_vars (label : vkey) (vs : dict vkey VarEntry)
  : list Z * dict vkey VarEntry :=
  let '(d, vs1) := vars_getitem label vs in
  match dict_get "LBL" (refs d) with
  | Some l => (l, vs1)
  | None => ([], dict_set label (with_refs d (dict_set "LBL" [] (refs d))) vs1)
  end.

Definition labelset (label : vkey) (g : Xmrs) : list Z * Xmrs :=
  let '(l, vs) := labelset_vars label (_vars g) in (l, with_vars g vs).

(** *** Sorting

    [sorted(xs, key=...)]: a stable insertion sort for the order [leb]. *)
Fixpoint insert_sorted {A : Type} (leb : A -> A -> bool) (x : A) (l : list A)
  : list A :=
  match l with
  | [] => [x]
  | y :: l' => if leb x y then x :: l else y :: insert_sorted leb x l'
  end.

Definition sorted {A : Type} (leb : A -> A -> bool) (l : list A) : list A :=
  fold_right (insert_sorted leb) [] l.

(** The order of the tuples [(out[n], -in_[n], -q[n], n)]. *)
Definition head_key : Type := (Z * Z * Z * Z)%type.

Definition head_key_leb (a b : head_key) : bool :=
  let '(a1, a2, a3, a4) := a in
  let '(b1, b2, b3, b4) := b in
  if a1 <? b1 then true else if b1 <? a1 then false else
  if a2 <? b2 then true else if b2 <? a2 then false else
  if a3 <? b3 then true else if b3 <? a3 then false else
  a4 <=? b4.

(** *** [Xmrs.labelset_heads] *)

(** [sum(1 for slist in refs.values() for s in slist if s in nodeids)] *)
Definition count_refs_in (rs : dict string (list Z)) (nids : list Z) : Z :=
  Z.of_nat (List.length (filter (fun s => mem s nids) (List.concat (dict_values rs)))).

(** [in_[n]] and [q[n]] of a candidate [n], with its sort key. *)
Definition head_rank (g : Xmrs) (nodeids_d : dict Z (option string))
           (out : dict Z Z) (n : Z) : result (Z * head_key) :=
  out_n <- dict_getitem PyInt n out ;;
  iv <- dict_getitem PyInt n nodeids_d ;;
  match dict_get iv (_vars g) with
  | Some d =>
      let in_n := count_refs_in (refs d) (dict_keys nodeids_d) in
      qn <- nodeid iv true g ;;
      let q_n := match qn with Some _ => 1 | None => 0 end in
      Ok (n, (out_n, - in_n, - q_n, n))
  | None =>
      e <- ep n g ;;
      let q_n := if pred_is_quantifier (ep_pred e) then 1 else 0 in
      Ok (n, (out_n, - 0, - q_n, n))
  end.

Definition labelset_heads (label : vkey) (g : Xmrs) : result (list Z) * Xmrs :=
  let '(lbls, g1) := labelset label g in
  (nodeids_d <- for_each
                  (fun d nid =>
                     e <- ep nid g1 ;;
                     Ok (dict_set nid (dict_get IVARG_ROLE (ep_args e)) d))
                  lbls [] ;;
   if (Z.of_nat (List.length nodeids_d) <=? 1) then Ok (dict_keys nodeids_d)
   else
     let ivs : dict string Z :=
       fold_left (fun d kv => match snd kv with
                              | Some iv => dict_set iv (fst kv) d
                              | None => d
                              end)
                 nodeids_d [] in
     out <- for_each
              (fun d n =>
                 e <- ep n g1 ;;
                 Ok (dict_set n
                       (Z.of_nat (List.length (filter (fun v => dict_mem v ivs)
                                                 (dict_values (ep_args e)))))
                       d))
              (dict_keys nodeids_d) [] ;;
     let candidates := map fst (filter (fun kv => snd kv <=? 1) out) in
     ranked <- map_result (head_rank g1 nodeids_d out) candidates ;;
     Ok (map fst (sorted (fun a b => head_key_leb (snd a) (snd b)) ranked)),
   g1).

(** *** [_bfs] *)

(** The [while agenda] loop; [None] when [fuel] turns are not enough. *)
Fixpoint bfs_loop (fuel : nat) (g : dict Z (list Z)) (seen agenda : list Z)
  : option (list Z) :=
  match fuel with
  | O => None
  | S fuel' =>
      match agenda with
      | [] => Some seen
      | x :: agenda' =>
          if mem x seen then bfs_loop fuel' g seen agenda'
          else
            let seen' := seen ++ [x] in
            let ys := match dict_get x g with Some s => s | None => [] end in
            bfs_loop fuel' g seen'
                     (agenda' ++ filter (fun y => negb (mem y seen')) ys)
      end
  end.

(** A number of turns after which the loop has ended ([bfs_loop_total]). *)
Definition bfs_fuel (g : dict Z (list Z)) : nat :=
  S (S (List.length (List.concat (dict_values g)))).

Definition _bfs (g : dict Z (list Z)) (start : option Z) : list Z :=
  match g with
  | [] => match start with Some s => [s] | None => [] end
  | (k, _) :: _ =>
      let start := match start with Some s => s | None => k end in
      match bfs_loop (bfs_fuel g) g [] [start] with
      | Some seen => seen
      | None => []
      end
  end.

(** *** [Xmrs.is_connected] *)

(** [(x, y) for x in lblset for y in lblset if x != y] *)
Definition label_edges (lblset : list Z) : list (Z * Z) :=
  flat_map (fun x => flat_map (fun y => if x =? y then [] else [(x, y)]) lblset)
           lblset.

(** The body of [for rarg, tgt in self.args(nid).items()]. *)
Definition arg_edges (g : Xmrs) (nid : Z)
           (st : list (Z * Z) * dict vkey VarEntry) (arg : string * string)
  : list (Z * Z) * dict vkey VarEntry :=
  let '(edges, vs) := st in
  let tgt := snd arg in
  match dict_get (Some tgt) vs with
  | None => (edges, vs)
  | Some d =>
      let '(tgtnids, vs') :=
        match dict_get IVARG_ROLE (refs d) with
        | Some l => (l, vs)
        | None =>
            match dict_get tgt (_hcons g) with
            | Some hc => labelset_vars (Some (hc_lo hc)) vs
            | None =>
                match dict_get "LBL" (refs d) with
                | Some l => (l, vs)
                | None => ([], vs)
                end
            end
        end in
      let others := filter (fun t => negb (nid =? t)) tgtnids in
      (edges ++ map (fun t => (nid, t)) others ++ map (fun t => (t, nid)) others,
       vs')
  end.

(** [for nid in nids: for rarg, tgt in self.args(nid).items(): ...] *)
Fixpoint arg_loop (g : Xmrs) (nids : list Z)
         (st : list (Z * Z) * dict vkey VarEntry)
  : result (list (Z * Z)) * dict vkey VarEntry :=
  match nids with
  | [] => (Ok (fst st), snd st)
  | nid :: nids' =>
      match dict_get nid (_eps g) with
      | None => (Raise (KeyError (PyInt nid)), snd st)
      | Some e => arg_loop g nids' (fold_left (arg_edges g nid) (ep_args e) st)
      end
  end.

(** [g = {nid: set() for nid in nids}; for x, y in edges: g[x].add(y)] *)
Definition add_edge (gr : dict Z (list Z)) (e : Z * Z) : result (dict Z (list Z)) :=
  match dict_get (fst e) gr with
  | Some s => Ok (dict_set (fst e) (set_add (snd e) s) gr)
  | None => Raise (KeyError (PyInt (fst e)))
  end.

Definition set_eqb (a b : list Z) : bool :=
  forallb (fun x => mem x b) a && forallb (fun x => mem x a) b.

Definition set_difference (a b : list Z) : list Z :=
  filter (fun x => negb (mem x b)) a.

Definition is_connected (g : Xmrs) : result bool * Xmrs :=
  let nids := to_set (_nodeids g) in
  match nids with
  | [] => (Raise (XmrsError "Cannot compute connectedness of an empty Xmrs."), g)
  | _ =>
      match labels g with
      | Raise e => (Raise e, g)
      | Ok lbls =>
          let '(edges1, vs1) :=
            fold_left (fun st lbl =>
                         let '(lblset, vs') := labelset_vars lbl (snd st) in
                         (fst st ++ label_edges lblset, vs'))
                      lbls ([], _vars g) in
          let '(r, vs2) := arg_loop g nids (edges1, vs1) in
          (edges <- r ;;
           gr <- for_each add_edge edges (map (fun nid => (nid, [])) nids) ;;
           let connected_nids := _bfs gr None in
           if set_eqb connected_nids nids then Ok true
           else
             match set_difference connected_nids nids with
             | [] => Ok false
             | _ :: _ =>
                 (* ', '.join(...) of integers *)
                 Raise (TypeError "sequence item 0: expected str instance, int found")
             end,
           with_vars g vs2)
      end
  end.

(** *** [Xmrs.validate] and [Xmrs.is_well_formed] *)

Definition str_opt (v : option string) : string :=
  match v with Some s => s | None => "None" end.

Definition missing_label_msg (nid : Z) : string :=
  ("EP (" ++ str_Z nid ++ ") is missing a label.")%string.

Definition missing_iv_msg : string :=
  "EP (nid) is missing an intrinsic variable.".

Definition dup_bv_msg (iv : option string) : string :=
  (str_opt iv ++ " is the bound variable for more than one quantifier.")%string.

Definition dup_iv_msg (iv : option string) : string :=
  (str_opt iv ++ " is the intrinsic variable for more than one EP.")%string.

Definition dangling_hcons_msg (hc : HandleConstraint) : string :=
  ("Lo variable of HCONS (" ++ hc_hi hc ++ " " ++ hc_relation hc ++ " "
     ++ hc_lo hc ++ ") is not the label of any EP.")%string.

Definition not_connected_msg : string := "Xmrs structure is not connected.".

(** The state of the first loop of [validate]. *)
Record ValidateState : Type := mkVS {
  vs_errors : list string;
  vs_ivs : dict (option string) Z;
  vs_bvs : dict (option string) Z;
  vs_labels : dict (option string) (list Z)
}.

Definition validate_ep (st : ValidateState) (e : EP) : ValidateState :=
  let nid := ep_nodeid e in
  let lbl := ep_label e in
  let errors1 := match lbl with
                 | None => vs_errors st ++ [missing_label_msg nid]
                 | Some _ => vs_errors st
                 end in
  let labels1 :=
    let s := match dict_get lbl (vs_labels st) with Some s => s | None => [] end in
    dict_set lbl (set_add nid s) (vs_labels st) in
  let iv := dict_get IVARG_ROLE (ep_args e) in
  let errors2 := match iv with
                 | None => errors1 ++ [missing_iv_msg]
                 | Some _ => errors1
                 end in
  if ep_is_quantifier e then
    {| vs_errors := if dict_mem iv (vs_bvs st) then errors2 ++ [dup_bv_msg iv]
                    else errors2;
       vs_ivs := vs_ivs st;
       vs_bvs := dict_set iv nid (vs_bvs st);
       vs_labels := labels1 |}
  else
    {| vs_errors := if dict_mem iv (vs_ivs st) then errors2 ++ [dup_iv_msg iv]
                    else errors2;
       vs_ivs := dict_set iv nid (vs_ivs st);
       vs_bvs := vs_bvs st;
       vs_labels := labels1 |}.

Definition validate_hc (labels_d : dict (option string) (list Z))
           (errors : list string) (hc : HandleConstraint) : list string :=
  if dict_mem (Some (hc_lo hc)) labels_d then errors
  else errors ++ [dangling_hcons_msg hc].

(** The list [errors] before the test of connectedness. *)
Definition validate_errors (es : list EP) (g : Xmrs) : list string :=
  let st := fold_left validate_ep es
              {| vs_errors := []; vs_ivs := []; vs_bvs := []; vs_labels := [] |} in
  fold_left (validate_hc (vs_labels st)) (dict_values (_hcons g)) (vs_errors st).

Definition validate (g : Xmrs) : result unit * Xmrs :=
  match eps None g with
  | Raise e => (Raise e, g)
  | Ok es =>
      let errors := validate_errors es g in
      let '(r, g') := is_connected g in
      (connected <- r ;;
       let errors := if connected then errors else errors ++ [not_connected_msg] in
       match errors with
       | [] => Ok tt
       | _ :: _ => Raise (XmrsError (String.concat newline errors))
       end,
       g')
  end.

(** [try: self.validate() except XmrsError: return False]; any other
    exception propagates. *)
Definition is_well_formed (g : Xmrs) : result bool * Xmrs :=
  let '(r, g') := validate g in
  (match r with
   | Ok _ => Ok true
   | Raise (XmrsError _) => Ok false
   | Raise e => Raise e
   end, g').

(** *** [Xmrs.__eq__]

    [sorted] compares the tuples from their first component on.  The EPs
    of a graph have pairwise distinct node ids (they are the keys of
    [_eps]), so the node id decides their order; constraints are triples of
    strings. *)
Definition ep_leb (a b : EP) : bool := ep_nodeid a <=? ep_nodeid b.

Definition str3_leb (a b : string * string * string) : bool :=
  let '(a1, a2, a3) := a in
  let '(b1, b2, b3) := b in
  match String.compare a1 b1 with
  | Lt => true
  | Gt => false
  | Eq => match String.compare a2 b2 with
          | Lt => true
          | Gt => false
          | Eq => String.leb a3 b3
          end
  end.

Definition hc_tuple (hc : HandleConstraint) : string * string * string :=
  (hc_hi hc, hc_relation hc, hc_lo hc).

Definition ic_tuple (ic : IndividualConstraint) : string * string * string :=
  (ic_left ic, ic_relation ic, ic_right ic).

Definition str3_ne (a b : string * string * string) : bool :=
  let '(a1, a2, a3) := a in
  let '(b1, b2, b3) := b in
  negb (String.eqb a1 b1 && String.eqb a2 b2 && String.eqb a3 b3).

(** [len(a) != len(b) or any(x != y for x, y in zip(a, b))] *)
Definition differ {A : Type} (ne : A -> A -> bool) (a b : list A) : bool :=
  negb (Nat.eqb (List.length a) (List.length b))
  || existsb (fun xy => ne (fst xy) (snd xy)) (combine a b).

Definition Xmrs_eq (self other : Xmrs) : result bool :=
  if negb (keqb (top self) (top other)
           && keqb (index self) (index other)
           && keqb (xarg self) (xarg other))
  then Ok false
  else
    a <- eps None self ;;
    b <- eps None other ;;
    if differ ep_ne (sorted ep_leb a) (sorted ep_leb b) then Ok false
    else if differ str3_ne
                   (sorted str3_leb (map hc_tuple (hcons self)))
                   (sorted str3_leb (map hc_tuple (hcons other)))
    then Ok false
    else if differ str3_ne
                   (sorted str3_leb (map ic_tuple (icons self)))
                   (sorted str3_leb (map ic_tuple (icons other)))
    then Ok false
    else Ok true.

(** ** The constructor [Mrs] *)

(** An EP record as [Mrs] and [Rmrs] receive it: the node id may be
    [None]. *)
Record Rel : Type := mkRel {
  rel_nodeid : option Z;
  rel_pred : Pred;
  rel_label : option string;
  rel_args : dict string string;
  rel_lnk : option Lnk;
  rel_surface : option string;
  rel_base : option string
}.

(** [tuple([nodeid] + list(ep[1:]))] *)
Definition with_nodeid (nodeid : Z) (r : Rel) : EP :=
  {| ep_nodeid := nodeid; ep_pred := rel_pred r; ep_label := rel_label r;
     ep_args := rel_args r; ep_lnk := rel_lnk r;
     ep_surface := rel_surface r; ep_base := rel_base r |}.

(** The first loop of [Mrs.__init__]. *)
Definition next_nodeid (eps : list Rel) : Z :=
  fold_left (fun next ep =>
               match rel_nodeid ep with
               | Some n => if n >=? next then n + 1 else next
               | None => next
               end)
            eps FIRST_NODEID.

(** [for i, ep in enumerate(eps)], counting from [i]. *)
Fixpoint assign_from (next : Z) (i : Z) (eps : list Rel) : list EP :=
  match eps with
  | [] => []
  | ep :: eps' =>
      match rel_nodeid ep with
      | None => with_nodeid (next + i) ep
      | Some n => with_nodeid n ep
      end :: assign_from next (i + 1) eps'
  end.

(** The list [eps_] of [Mrs.__init__]. *)
Definition assign_nodeids (eps : list Rel) : list EP :=
  assign_from (next_nodeid eps) 0 eps.

Definition Mrs (top0 index0 xarg0 : option string)
           (rels : list Rel) (hcons : list HandleConstraint)
           (icons : list IndividualConstraint)
           (lnk0 : option Lnk) (surface0 identifier0 : option string)
           (vars : dict string (list (string * propval)))
  : result Xmrs :=
  Xmrs_init top0 index0 xarg0 (assign_nodeids rels) hcons icons vars
            lnk0 surface0 identifier0.

(** *** [Mrs.to_dict] and [Mrs.from_dict] *)

(** An entry of ['relations']. *)
Record RelDict : Type := mkRelDict {
  rd_label : option string;
  rd_predicate : string;
  rd_arguments : option (dict string string);
  rd_lnk : option (Z * Z);
  rd_surface : option string;
  rd_base : option string
}.

(** An entry of ['variables']. *)
Record VarDict : Type := mkVarDict {
  vd_type : string;
  vd_properties : option (list (string * propval))
}.

(** The exported dict; a key that is absent is [None] (or the empty
    list, for the keys read with a default).  An entry of ['constraints'] is
    a dict of strings. *)
Record MrsDict : Type := mkMrsDict {
  d_relations : list RelDict;
  d_constraints : list (dict string string);
  d_variables : dict string VarDict;
  d_top : option string;
  d_index : option string;
  d_xarg : option string;
  d_lnk : option (Z * Z);
  d_surface : option string;
  d_identifier : option string
}.

Definition to_dict_ep (short_pred : bool) (e : EP) : RelDict :=
  {| rd_label := ep_label e;
     rd_predicate := if short_pred then short_form (ep_pred e)
                     else pred_string (ep_pred e);
     rd_arguments := Some (ep_args e);
     rd_lnk := match ep_lnk e with
               | Some l => Some (lnk_cfrom l, lnk_cto l)
               | None => None
               end;
     rd_surface := None;
     rd_base := None |}.

Definition to_dict_hcons (hc : HandleConstraint) : dict string string :=
  [("relation", hc_relation hc); ("high", hc_hi hc); ("low", hc_lo hc)].

Definition to_dict_icons (ic : IndividualConstraint) : dict string string :=
  [("relation", ic_relation ic); ("left", ic_left ic); ("right", ic_right ic)].

Definition to_dict_var (with_properties : bool) (g : Xmrs) (v : vkey)
  : result (string * VarDict) :=
  match v with
  | None => Raise (TypeError "expected string or bytes-like object")
  | Some name =>
      ty <- var_sort name ;;
      ps <- (if with_properties then properties (PyStr name) false g else Ok []) ;;
      Ok (name, {| vd_type := ty;
                   vd_properties := match ps with
                                    | [] => None
                                    | _ :: _ => Some ps
                                    end |})
  end.

Definition to_dict (short_pred with_properties : bool) (g : Xmrs)
  : result MrsDict :=
  es <- eps None g ;;
  vs <- map_result (to_dict_var with_properties g) (variables g) ;;
  Ok {| d_relations := map (to_dict_ep short_pred) es;
        d_constraints := map to_dict_hcons (hcons g) ++ map to_dict_icons (icons g);
        d_variables := vs;
        d_top := top g;
        d_index := index g;
        d_xarg := None;
        d_lnk := None;
        d_surface := None;
        d_identifier := None |}.

Definition from_dict_lnk (o : option (Z * Z)) : option Lnk :=
  match o with
  | Some (f, t) => Some (charspan f t)
  | None => None
  end.

Definition from_dict_ep (rd : RelDict) : Rel :=
  {| rel_nodeid := None;
     rel_pred := string_or_grammar_pred (rd_predicate rd);
     rel_label := rd_label rd;
     rel_args := match rd_arguments rd with Some a => a | None => [] end;
     rel_lnk := from_dict_lnk (rd_lnk rd);
     rel_surface := rd_surface rd;
     rel_base := rd_base rd |}.

(** [(c['high'], c['relation'], c['low'])] *)
Definition high_relation_low (c : dict string string)
  : result (string * string * string) :=
  h <- dict_getitem PyStr "high" c ;;
  r <- dict_getitem PyStr "relation" c ;;
  l <- dict_getitem PyStr "low" c ;;
  Ok (h, r, l).

Definition from_dict (d : MrsDict) : result Xmrs :=
  let rels := map from_dict_ep (d_relations d) in
  hcons <- map_result high_relation_low
             (filter (dict_mem "high") (d_constraints d)) ;;
  icons <- map_result high_relation_low
             (filter (dict_mem "left") (d_constraints d)) ;;
  let variables :=
    map (fun vd => (fst vd,
                    match vd_properties (snd vd) with
                    | Some ps => [("properties", PropDict ps)]
                    | None => []
                    end))
        (d_variables d) in
  Mrs (d_top d) (d_index d) (d_xarg d) rels
      (map (fun t => mkHC (fst (fst t)) (snd (fst t)) (snd t)) hcons)
      (map (fun t => mkIC (fst (fst t)) (snd (fst t)) (snd t)) icons)
      (from_dict_lnk (d_lnk d)) (d_surface d) (d_identifier d) variables.

(** ** The constructor [Rmrs] *)

(** An argument object with a [nodeid] attribute. *)
Record ArgObj : Type := mkArg {
  arg_nodeid : option Z;
  arg_rargname : string;
  arg_value : string
}.

(** What a caller passes as [args]: nothing, the nested mapping
    [{nodeid: {rargname: value}}] of the docstring, or a list of argument
    objects. *)
Inductive RmrsArgs : Type :=
| ArgsNone
| ArgsDict (d : dict Z (dict string string))
| ArgsList (l : list ArgObj).

(** An element of [list(args or [])]: a key of the mapping, or an
    argument object. *)
Inductive ArgElem : Type :=
| ElemInt (z : Z)
| ElemObj (a : ArgObj).

(** [list(args or [])] *)
Definition list_of_args (a : RmrsArgs) : list ArgElem :=
  match a with
  | ArgsNone => []
  | ArgsDict d => map ElemInt (dict_keys d)
  | ArgsList l => map ElemObj l
  end.

(** [if arg.nodeid is None: raise ...] *)
Definition check_arg (_ : unit) (arg : ArgElem) : result unit :=
  match arg with
  | ElemInt _ => Raise (AttributeError "'int' object has no attribute 'nodeid'")
  | ElemObj a =>
      match arg_nodeid a with
      | None => Raise (XmrsStructureError "RMRS args must have a nodeid.")
      | Some _ => Ok tt
      end
  end.

(** The body of [for ep in eps]: [args] is a list by now, and a list has
    no [get]. *)
Definition merge_args (ep : Rel) : result EP :=
  match rel_nodeid ep with
  | None => Raise (XmrsStructureError "RMRS EPs must have a nodeid.")
  | Some _ => Raise (AttributeError "'list' object has no attribute 'get'")
  end.

Definition Rmrs (top0 index0 xarg0 : option string)
           (eps : list Rel) (args : RmrsArgs)
           (hcons : list HandleConstraint) (icons : list IndividualConstraint)
           (lnk0 : option Lnk) (surface0 identifier0 : option string)
           (vars : dict string (list (string * propval)))
  : result Xmrs :=
  _ <- for_each check_arg (list_of_args args) tt ;;
  eps' <- map_result merge_args eps ;;
  Xmrs_init top0 index0 xarg0 eps' hcons icons vars lnk0 surface0 identifier0.

(** ** The constructor [Dmrs] *)

Record Node : Type := mkNode {
  node_nodeid : Z;
  node_pred : Pred;
  node_sortinfo : dict string string;
  node_lnk : option Lnk;
  node_surface : option string;
  node_base : option string;
  node_carg : option string
}.

Record Link : Type := mkLink {
  link_start : Z;
  link_end : Z;
  link_rargname : option string;
  link_post : option string
}.

(** Modelled from the spec: the class [VarGenerator] of
    delphin/mrs/components.py is not among the sources.  A generator mints
    fresh variables that obey the sort+serial naming pattern: the sort
    followed by the next serial number [vid]; [store] maps every minted
    variable to its properties. *)
Record VarGenerator : Type := mkVgen {
  vid : Z;
  store : dict string (list (string * propval))
}.

Definition new_VarGenerator : VarGenerator := {| vid := vgen_start; store := [] |}.

(** Modelled from the spec: [vgen.new(sort, properties)], which mints the
    variable [sort ++ str(vid)]; a node without a declared sort gets the
    unknown sort. *)
Definition vgen_new (sort : option string) (properties : list (string * propval))
           (v : VarGenerator) : string * VarGenerator :=
  let sort := match sort with Some s => s | None => UNKNOWNSORT end in
  let varstring := (sort ++ str_Z (vid v))%string in
  (varstring,
   {| vid := vid v + 1; store := dict_set varstring properties (store v) |}).

(** Modelled from the spec: [HandleConstraint.qeq(hi, lo)], the qeq
    constraint from [hi] to [lo]. *)
Definition qeq (hi lo : string) : HandleConstraint :=
  {| hc_hi := hi; hc_relation := "qeq"; hc_lo := lo |}.

(** [eq_edges[a].add(b)] of the defaultdict(set). *)
Definition eq_edges_add (a b : Z) (g : dict Z (list Z)) : dict Z (list Z) :=
  let s := match dict_get a g with Some s => s | None => [] end in
  dict_set a (set_add b s) g.

(** The first loop of [_make_labels]. *)
Definition make_labels_link (st : VarGenerator * list Z * dict Z (list Z))
           (l : Link) : VarGenerator * list Z * dict Z (list Z) :=
  let '(vgen, nids, eq_edges) := st in
  let '(vgen, nids) :=
    if link_start l =? LTOP_NODEID
    then ({| vid := 0; store := store vgen |}, LTOP_NODEID :: nids)
    else (vgen, nids) in
  let eq_edges :=
    if keqb (link_post l) (Some EQ_POST)
    then eq_edges_add (link_end l) (link_start l)
           (eq_edges_add (link_start l) (link_end l) eq_edges)
    else eq_edges in
  (vgen, nids, eq_edges).

(** The second loop of [_make_labels]. *)
Definition make_labels_nid (eq_edges : dict Z (list Z))
           (st : VarGenerator * list Z * dict Z string) (nid : Z)
  : VarGenerator * list Z * dict Z string :=
  let '(vgen, seen, labels_d) := st in
  if mem nid seen then st
  else
    let '(lbl, vgen') := vgen_new (Some HANDLESORT) [] vgen in
    let comp := _bfs eq_edges (Some nid) in
    (vgen',
     fold_left (fun s c => set_add c s) comp seen,
     fold_left (fun d c => dict_set c lbl d) comp labels_d).

Definition _make_labels (nodes : list Node) (links : list Link) (vgen : VarGenerator)
  : dict Z string * VarGenerator :=
  let '(vgen1, nids, eq_edges) :=
    fold_left make_labels_link links (vgen, map node_nodeid nodes, []) in
  let '(vgen2, _, labels_d) :=
    fold_left (make_labels_nid eq_edges) nids (vgen1, [], []) in
  (labels_d, vgen2).

Definition _make_ivs (nodes : list Node) (vgen : VarGenerator)
  : dict Z string * VarGenerator :=
  fold_left
    (fun st node =>
       let '(ivs, vgen) := st in
       if pred_is_quantifier (node_pred node) then st
       else
         let props :=
           map (fun kv => (fst kv, PropStr (snd kv)))
               (filter (fun kv => negb (String.eqb (fst kv) CVARSORT))
                       (node_sortinfo node)) in
         let '(iv, vgen') :=
           vgen_new (dict_get CVARSORT (node_sortinfo node)) props vgen in
         (dict_set (node_nodeid node) iv ivs, vgen'))
    nodes ([], vgen).

(** [s.upper()], for the letters of ASCII. *)
Definition upper_ascii (c : ascii) : ascii :=
  let n := nat_of_ascii c in
  if (Nat.leb 97 n && Nat.leb n 122)%bool then ascii_of_nat (n - 32) else c.

Fixpoint upper (s : string) : string :=
  match s with
  | EmptyString => EmptyString
  | String c s' => String (upper_ascii c) (upper s')
  end.

(** The variables of the loop over the links in [Dmrs.__init__]. *)
Record DmrsState : Type := mkDS {
  ds_top : option string;
  ds_args : dict Z (dict string string);
  ds_hcons : list HandleConstraint;
  ds_ivs : dict Z string;
  ds_vgen : VarGenerator
}.

(** [args[nid][role] = val], [args[nid]] being there. *)
Definition args_set (nid : Z) (role val : string) (a : dict Z (dict string string))
  : dict Z (dict string string) :=
  match dict_get nid a with
  | Some d => dict_set nid (dict_set role val d) a
  | None => a
  end.

Definition dmrs_link (labels_d : dict Z string) (st : DmrsState) (l : Link)
  : result DmrsState :=
  let args1 := if dict_mem (link_start l) (ds_args st) then ds_args st
               else dict_set (link_start l) [] (ds_args st) in
  if link_start l =? LTOP_NODEID then
    ltop <- dict_getitem PyInt LTOP_NODEID labels_d ;;
    if keqb (link_post l) (Some H_POST) || keqb (link_post l) (Some NIL_POST)
    then
      lend <- dict_getitem PyInt (link_end l) labels_d ;;
      Ok {| ds_top := Some ltop; ds_args := args1;
            ds_hcons := ds_hcons st ++ [qeq ltop lend];
            ds_ivs := ds_ivs st; ds_vgen := ds_vgen st |}
    else
      Ok {| ds_top := Some ltop; ds_args := args1; ds_hcons := ds_hcons st;
            ds_ivs := ds_ivs st; ds_vgen := ds_vgen st |}
  else
    let skip := {| ds_top := ds_top st; ds_args := args1; ds_hcons := ds_hcons st;
                   ds_ivs := ds_ivs st; ds_vgen := ds_vgen st |} in
    match link_rargname l with
    | None => Ok skip
    | Some rargname =>
        if String.eqb rargname "" || String.eqb (upper rargname) "NIL"
        then Ok skip
        else if keqb (link_post l) (Some H_POST) then
          let '(hole, vgen') := vgen_new (Some HANDLESORT) [] (ds_vgen st) in
          lend <- dict_getitem PyInt (link_end l) labels_d ;;
          let args2 := args_set (link_start l) rargname hole args1 in
          if String.eqb (upper rargname) RSTR_ROLE then
            iv <- dict_getitem PyInt (link_end l) (ds_ivs st) ;;
            Ok {| ds_top := ds_top st;
                  ds_args := args_set (link_start l) IVARG_ROLE iv args2;
                  ds_hcons := ds_hcons st ++ [qeq hole lend];
                  ds_ivs := dict_set (link_start l) iv (ds_ivs st);
                  ds_vgen := vgen' |}
          else
            Ok {| ds_top := ds_top st; ds_args := args2;
                  ds_hcons := ds_hcons st ++ [qeq hole lend];
                  ds_ivs := ds_ivs st; ds_vgen := vgen' |}
        else if keqb (link_post l) (Some HEQ_POST) then
          lend <- dict_getitem PyInt (link_end l) labels_d ;;
          Ok {| ds_top := ds_top st;
                ds_args := args_set (link_start l) rargname lend args1;
                ds_hcons := ds_hcons st; ds_ivs := ds_ivs st;
                ds_vgen := ds_vgen st |}
        else
          iv <- dict_getitem PyInt (link_end l) (ds_ivs st) ;;
          Ok {| ds_top := ds_top st;
                ds_args := args_set (link_start l) rargname iv args1;
                ds_hcons := ds_hcons st; ds_ivs := ds_ivs st;
                ds_vgen := ds_vgen st |}
    end.

(** The loop over the nodes in [Dmrs.__init__]. *)
Definition dmrs_node (labels_d : dict Z string)
           (st : dict Z (dict string string) * list EP) (node : Node)
  : result (dict Z (dict string string) * list EP) :=
  let '(args_d, eps_l) := st in
  let nid := node_nodeid node in
  args1 <- match node_carg node with
           | Some carg =>
               match dict_get nid args_d with
               | Some _ => Ok (args_set nid CONSTARG_ROLE carg args_d)
               | None => Raise (KeyError (PyInt nid))
               end
           | None => Ok args_d
           end ;;
  lbl <- dict_getitem PyInt nid labels_d ;;
  a <- dict_getitem PyInt nid args1 ;;
  Ok (args1,
      eps_l ++ [{| ep_nodeid := nid; ep_pred := node_pred node;
                   ep_label := Some lbl; ep_args := a;
                   ep_lnk := node_lnk node; ep_surface := node_surface node;
                   ep_base := node_base node |}]).

Definition Dmrs (nodes : list Node) (links : list Link)
           (lnk0 : option Lnk) (surface0 identifier0 : option string)
  : result Xmrs :=
  let vgen := new_VarGenerator in
  let '(labels_d, vgen) := _make_labels nodes links vgen in
  let '(ivs, vgen) := _make_ivs nodes vgen in
  let args0 := map (fun kv => (fst kv, [(IVARG_ROLE, snd kv)])) ivs in
  st <- for_each (dmrs_link labels_d) links
          {| ds_top := None; ds_args := args0; ds_hcons := [];
             ds_ivs := ivs; ds_vgen := vgen |} ;;
  ae <- for_each (dmrs_node labels_d) nodes (ds_args st, []) ;;
  Xmrs_init (ds_top st) None None (snd ae) (ds_hcons st) []
            (store (ds_vgen st)) lnk0 surface0 identifier0.

(** *** [Xmrs.__contains__] and [Xmrs.preds] *)

(** [obj in self._eps or obj in self._vars]; the keys of [_eps] are
    integers, those of [_vars] strings or [None]. *)
Definition contains (obj : pyval) (g : Xmrs) : bool :=
  match obj with
  | PyInt n => dict_mem n (_eps g)
  | PyStr s => dict_mem (Some s) (_vars g)
  | PyNone => dict_mem None (_vars g)
  end.

Definition preds (nodeids : option (list Z)) (g : Xmrs) : result (list Pred) :=
  let nids := match nodeids with Some l => l | None => _nodeids g end in
  map_result (fun nid => e <- dict_getitem PyInt nid (_eps g) ;; Ok (ep_pred e)) nids.

End Graph.

(** * A concrete instance

    Stand-ins for config.py and components.py, on which the model runs on
    concrete inputs: the constants have the values that the docstrings of
    xmrs.py show (node ids from 10000, the role ARG0, the post H, the top node
    0); a predicate is its string, a lnk a character span. *)

#[export] Instance pydelphin_config : Config := {|
  FIRST_NODEID := 10000;
  LTOP_NODEID := 0;
  IVARG_ROLE := "ARG0";
  CONSTARG_ROLE := "CARG";
  RSTR_ROLE := "RSTR";
  EQ_POST := "EQ";
  HEQ_POST := "HEQ";
  H_POST := "H";
  NIL_POST := "NIL";
  CVARSORT := "cvarsort";
  HANDLESORT := "h";
  UNKNOWNSORT := "u"
|}.

#[export] Instance string_types : Types := {|
  Pred := string;
  Lnk := (Z * Z)%type
|}.

Definition is_digit (c : ascii) : bool :=
  let n := nat_of_ascii c in (Nat.leb 48 n && Nat.leb n 57)%bool.

(** The digits at the end of [s], and what stands before them. *)
Fixpoint split_serial (s : string) : string * string :=
  match s with
  | EmptyString => (EmptyString, EmptyString)
  | String c s' =>
      let '(sort, serial) := split_serial s' in
      match sort with
      | EmptyString =>
          if is_digit c then (EmptyString, String c serial)
          else (String c EmptyString, serial)
      | _ => (String c sort, serial)
      end
  end.

(** A variable is a sort followed by a serial number. *)
Definition is_variable (s : string) : bool :=
  let '(sort, serial) := split_serial s in
  negb (String.eqb sort "") && negb (String.eqb serial "").

Fixpoint has_infix (p s : string) : bool :=
  match s with
  | EmptyString => String.eqb p ""
  | String _ s' => String.prefix p s || has_infix p s'
  end.

Definition pair_eqb (a b : Z * Z) : bool :=
  (fst a =? fst b) && (snd a =? snd b).

(** Equality of dicts, whatever the order of their items. *)
Definition dict_eqb (a b : dict string string) : bool :=
  forallb (fun k => option_eqb String.eqb (dict_get k a) (dict_get k b))
          (dict_keys a ++ dict_keys b).

(** Equality of the tuples (nodeid, pred, label, args, lnk, surface, base). *)
Definition ep_tuple_eqb (a b : EP) : bool :=
  (ep_nodeid a =? ep_nodeid b)
  && String.eqb (ep_pred a) (ep_pred b)
  && option_eqb String.eqb (ep_label a) (ep_label b)
  && dict_eqb (ep_args a) (ep_args b)
  && option_eqb pair_eqb (ep_lnk a) (ep_lnk b)
  && option_eqb String.eqb (ep_surface a) (ep_surface b)
  && option_eqb String.eqb (ep_base a) (ep_base b).

#[export] Instance string_components : Components := {|
  var_re_match := is_variable;
  var_sort := fun v => if is_variable v then Ok (fst (split_serial v))
                       else Raise (ValueError ("Invalid variable string: " ++ v)%string);
  pred_str := fun p => p;
  pred_is_quantifier := has_infix "_q_";
  short_form := fun p => p;
  pred_string := fun p => p;
  string_or_grammar_pred := fun p => p;
  lnk_cfrom := fst;
  lnk_cto := snd;
  charspan := pair;
  ep_is_quantifier := fun e => dict_mem "RSTR" (ep_args e);
  ep_ne := fun a b => negb (ep_tuple_eqb a b);
  vgen_start := 1
|}.

(** A relation without node id, lnk, surface or base. *)
Definition rel (nodeid : option Z) (p : string) (lbl : string)
           (a : dict string string) : Rel :=
  {| rel_nodeid := nodeid; rel_pred := p; rel_label := Some lbl; rel_args := a;
     rel_lnk := None; rel_surface := None; rel_base := None |}.

(** The example of the docstring of [Rmrs]. *)
Definition rain_rel : Rel := rel (Some 10000) "_rain_v_1_rel" "h1" [].

Definition rain_args : RmrsArgs := ArgsDict [(10000, [("ARG0", "e2")])].

(** An EP without a label, and a constraint whose low handle is no label. *)
Definition unlabelled_ep : EP :=
  mkEP 10000 "_rain_v_1_rel" None [("ARG0", "e2")] None None None.

(** Three EPs that share the label h1: B has an argument to the variable of
    A, and C one to the variable of B. *)
Definition ep_A : EP := mkEP 1 "_a_rel" (Some "h1") [("ARG0", "x1")] None None None.
Definition ep_B : EP :=
  mkEP 2 "_b_rel" (Some "h1") [("ARG0", "e2"); ("ARG1", "x1")] None None None.
Definition ep_C : EP :=
  mkEP 3 "_c_rel" (Some "h1") [("ARG0", "e3"); ("ARG1", "e2")] None None None.

(** The example of the docstring of [Dmrs]: one node, and a link to it from
    the top. *)
Definition rain_node : Node :=
  {| node_nodeid := 10000; node_pred := "_rain_v_1_rel";
     node_sortinfo := [("cvarsort", "e")]; node_lnk := None;
     node_surface := None; node_base := None; node_carg := None |}.

Definition ltop_link : Link :=
  {| link_start := 0; link_end := 10000; link_rargname := None;
     link_post := Some "H" |}.

(** * Properties *)

(** ** Dictionaries and loops *)

Section DictFacts.
Context {K V : Type} `{EqKey K}.

Lemma dict_get_set_same (k : K) (v : V) (d : dict K V) :
  dict_get k (dict_set k v d) = Some v.
Proof.
  induction d as [|[k' v'] d IH]; simpl.
  - now rewrite keqb_refl.
  - destruct (keqb k k') eqn:E; simpl; rewrite E; auto.
Qed.

Lemma dict_get_set_other (k k' : K) (v : V) (d : dict K V) :
  k <> k' -> dict_get k' (dict_set k v d) = dict_get k' d.
Proof.
  intros Hne. induction d as [|[k0 v0] d IH]; simpl.
  - apply keqb_neq in Hne. destruct (keqb k' k) eqn:E; auto.
    apply keqb_eq in E. subst. now rewrite keqb_refl in Hne.
  - destruct (keqb k k0) eqn:E; simpl.
    + apply keqb_eq in E. subst k0.
      destruct (keqb k' k) eqn:E'; auto.
      apply keqb_eq in E'. congruence.
    + now rewrite IH.
Qed.

Lemma dict_get_set (k k' : K) (v : V) (d : dict K V) :
  dict_get k' (dict_set k v d) = if keqb k' k then Some v else dict_get k' d.
Proof.
  destruct (keqb_spec k' k) as [->|Hne].
  - apply dict_get_set_same.
  - apply dict_get_set_other. congruence.
Qed.

Lemma dict_mem_set (k k' : K) (v : V) (d : dict K V) :
  dict_mem k' (dict_set k v d) = keqb k' k || dict_mem k' d.
Proof.
  unfold dict_mem. rewrite dict_get_set. now destruct (keqb k' k).
Qed.

Lemma dict_get_In (k : K) (v : V) (d : dict K V) :
  dict_get k d = Some v -> In (k, v) d.
Proof.
  induction d as [|[k' v'] d IH]; simpl; [discriminate|].
  destruct (keqb_spec k k') as [->|Hne].
  - intros [= ->]. now left.
  - intros Hg. right. auto.
Qed.

Lemma dict_mem_keys (k : K) (d : dict K V) :
  dict_mem k d = true <-> In k (dict_keys d).
Proof.
  unfold dict_mem, dict_keys.
  induction d as [|[k' v'] d IH]; simpl.
  - split; [discriminate | tauto].
  - destruct (keqb_spec k k') as [->|Hne].
    + split; auto.
    + rewrite IH. split; [auto | intros [Heq|Hin]; [congruence | auto]].
Qed.

Lemma dict_set_present (k : K) (v : V) (d : dict K V) :
  dict_get k d = Some v -> dict_set k v d = d.
Proof.
  induction d as [|[k' v'] d IH]; simpl; [discriminate|].
  destruct (keqb k k') eqn:E.
  - now intros [= ->].
  - intros Hg. now rewrite IH.
Qed.

Lemma dict_set_twice (k : K) (v v' : V) (d : dict K V) :
  dict_set k v (dict_set k v' d) = dict_set k v d.
Proof.
  induction d as [|[k0 v0] d IH]; simpl.
  - now rewrite keqb_refl.
  - destruct (keqb k k0) eqn:E; simpl; rewrite E; [reflexivity|].
    now rewrite IH.
Qed.
End DictFacts.

Lemma mem_In {K : Type} `{EqKey K} (x : K) (xs : list K) :
  mem x xs = true <-> In x xs.
Proof.
  unfold mem. rewrite existsb_exists. split.
  - intros (y & Hin & Heq). apply keqb_eq in Heq. now subst.
  - intros Hin. exists x. split; [assumption | apply keqb_refl].
Qed.

Lemma for_each_app {S A : Type} (f : S -> A -> result S) (l1 l2 : list A) (st : S) :
  for_each f (l1 ++ l2) st = (st' <- for_each f l1 st ;; for_each f l2 st').
Proof.
  revert st. induction l1 as [|x l1 IH]; intros st; simpl; [reflexivity|].
  destruct (f st x); simpl; auto.
Qed.

Section Properties.
Context `{cfg : Config} `{tys : Types} `{cmp : !Components}.

(** ** Node ids given by [Mrs] *)

Lemma next_nodeid_from (eps0 : list Rel) (a : Z) :
  let next := fold_left (fun next ep =>
                           match rel_nodeid ep with
                           | Some n => if n >=? next then n + 1 else next
                           | None => next
                           end) eps0 a in
  a <= next
  /\ (forall r n, In r eps0 -> rel_nodeid r = Some n -> n < next)
  /\ (next = a \/ exists r n, In r eps0 /\ rel_nodeid r = Some n /\ next = n + 1).
Proof.
  revert a. induction eps0 as [|r eps0 IH]; intros a; simpl.
  - repeat split; [lia | tauto | now left].
  - set (a' := match rel_nodeid r with
               | Some n => if n >=? a then n + 1 else a
               | None => a
               end).
    destruct (IH a') as (Hle & Hlt & Hor).
    assert (Ha : a <= a').
    { unfold a'. destruct (rel_nodeid r) as [n|]; [|lia].
      destruct (Z.geb_spec n a); lia. }
    split; [lia|]. split.
    + intros r0 n [<-|Hin] Hn.
      * assert (n < a'); [|lia].
        unfold a'. rewrite Hn. destruct (Z.geb_spec n a); lia.
      * eauto.
    + destruct Hor as [Heq|(r0 & n & Hin & Hn & Heq)].
      * unfold a' in Heq. destruct (rel_nodeid r) as [n|] eqn:Hr; [|now left].
        destruct (Z.geb_spec n a); [|now left].
        right. exists r, n. auto.
      * right. exists r0, n. auto.
Qed.

Lemma assign_from_nth (next i : Z) (eps0 : list Rel) (k : nat) (r : Rel) :
  nth_error eps0 k = Some r ->
  nth_error (assign_from next i eps0) k =
    Some (with_nodeid (match rel_nodeid r with
                       | Some n => n
                       | None => next + (i + Z.of_nat k)
                       end) r).
Proof.
  revert i k. induction eps0 as [|r0 eps0 IH]; intros i k; destruct k; simpl;
    try discriminate.
  - intros [= ->]. rewrite Z.add_0_r. now destruct (rel_nodeid r).
  - intros Hk. rewrite (IH (i + 1) k Hk).
    replace (i + 1 + Z.of_nat k) with (i + Z.pos (Pos.of_succ_nat k)) by lia.
    reflexivity.
Qed.

Lemma assign_from_length (next i : Z) (eps0 : list Rel) :
  List.length (assign_from next i eps0) = List.length eps0.
Proof. revert i. induction eps0; intros i; simpl; auto. Qed.

(** C3, as the code has it: the record at position [i] that lacks a node
    id gets [next_nodeid + i], where [next_nodeid] is the default start
    constant or one above the greatest supplied id, whichever is greater;
    every other record keeps its id and every record its place.  The ids
    given are above all supplied ids and increase with the position. *)
Theorem Mrs_assigns_nodeids (rels : list Rel) :
  let next := next_nodeid rels in
  List.length (assign_nodeids rels) = List.length rels
  /\ (forall i r, nth_error rels i = Some r ->
                  nth_error (assign_nodeids rels) i =
                    Some (with_nodeid (match rel_nodeid r with
                                       | Some n => n
                                       | None => next + Z.of_nat i
                                       end) r))
  /\ FIRST_NODEID <= next
  /\ (forall r n, In r rels -> rel_nodeid r = Some n -> n < next)
  /\ (next = FIRST_NODEID
      \/ exists r n, In r rels /\ rel_nodeid r = Some n /\ next = n + 1)
  /\ (forall i j, (i < j)%nat -> next + Z.of_nat i < next + Z.of_nat j).
Proof.
  intros next.
  destruct (next_nodeid_from rels FIRST_NODEID) as (H1 & H2 & H3).
  split; [apply assign_from_length|].
  split; [intros i r Hi; unfold assign_nodeids;
          now rewrite (assign_from_nth _ 0 _ _ Hi)|].
  repeat split; auto. intros; lia.
Qed.

(** ** Duplicate node ids and duplicate constraints *)

Lemma add_ep_Ok (g g' : Xmrs) (e : EP) :
  add_ep g e = Ok g' ->
  dict_mem (ep_nodeid e) (_eps g) = false
  /\ _eps g' = dict_set (ep_nodeid e) e (_eps g)
  /\ _nodeids g' = _nodeids g ++ [ep_nodeid e]
  /\ _hcons g' = _hcons g /\ _icons g' = _icons g
  /\ top g' = top g /\ index g' = index g /\ xarg g' = xarg g.
Proof.
  unfold add_ep. destruct (dict_mem (ep_nodeid e) (_eps g)); [discriminate|].
  intros [= <-]. simpl. repeat split; reflexivity.
Qed.

Lemma add_ep_Raise (g : Xmrs) (e : EP) (x : exn) :
  add_ep g e = Raise x ->
  dict_mem (ep_nodeid e) (_eps g) = true /\ x = XmrsError (ep_exists_msg e).
Proof.
  unfold add_ep. destruct (dict_mem (ep_nodeid e) (_eps g)); [|discriminate].
  intros [= <-]. auto.
Qed.

Lemma add_hc_Ok (g g' : Xmrs) (hc : HandleConstraint) :
  add_hc g hc = Ok g' ->
  dict_mem (hc_hi hc) (_hcons g) = false
  /\ _hcons g' = dict_set (hc_hi hc) hc (_hcons g)
  /\ _eps g' = _eps g /\ _nodeids g' = _nodeids g /\ _icons g' = _icons g
  /\ top g' = top g /\ index g' = index g /\ xarg g' = xarg g.
Proof.
  unfold add_hc. destruct (dict_mem (hc_hi hc) (_hcons g)); [discriminate|].
  destruct (vars_getitem (Some (hc_lo hc)) (_vars g)) as [dlo vs1].
  destruct (vars_getitem (Some (hc_hi hc)) _) as [dhi vs3].
  intros [= <-]. simpl. repeat split; reflexivity.
Qed.

Lemma add_hc_Raise (g : Xmrs) (hc : HandleConstraint) (x : exn) :
  add_hc g hc = Raise x ->
  dict_mem (hc_hi hc) (_hcons g) = true /\ x = XmrsError (hcons_exists_msg (hc_hi hc)).
Proof.
  unfold add_hc. destruct (dict_mem (hc_hi hc) (_hcons g)).
  - intros [= <-]. auto.
  - destruct (vars_getitem (Some (hc_lo hc)) (_vars g)) as [dlo vs1].
    destruct (vars_getitem (Some (hc_hi hc)) _) as [dhi vs3]. discriminate.
Qed.

(** A loop whose body raises only for the element at hand raises exactly
    when some element finds the state, as the elements before it left it,
    in the raising condition. *)
Lemma for_each_Raise_iff {S A : Type} (f : S -> A -> result S)
      (bad : S -> A -> option exn) :
  (forall st a x, f st a = Raise x <-> bad st a = Some x) ->
  forall (xs : list A) (st : S) (x : exn),
    for_each f xs st = Raise x <->
    exists l1 a l2 st1,
      xs = l1 ++ a :: l2 /\ for_each f l1 st = Ok st1 /\ bad st1 a = Some x.
Proof.
  intros Hf xs. induction xs as [|a xs IH]; intros st x; simpl.
  - split; [discriminate|]. intros (l1 & a & l2 & st1 & Heq & _).
    now destruct l1.
  - destruct (f st a) as [st'|e] eqn:Hfa; simpl.
    + rewrite IH. split.
      * intros (l1 & b & l2 & st1 & -> & Hl1 & Hbad).
        exists (a :: l1), b, l2, st1. simpl. rewrite Hfa. simpl. auto.
      * intros (l1 & b & l2 & st1 & Heq & Hl1 & Hbad).
        destruct l1 as [|a' l1]; simpl in *.
        -- injection Heq as <- <-. injection Hl1 as <-.
           apply Hf in Hbad. congruence.
        -- injection Heq as <- ->. rewrite Hfa in Hl1. simpl in Hl1.
           exists l1, b, l2, st1. auto.
    + split.
      * intros [= <-]. exists [], a, xs, st. simpl. split; [reflexivity|].
        split; [reflexivity|]. now apply Hf.
      * intros (l1 & b & l2 & st1 & Heq & Hl1 & Hbad).
        destruct l1 as [|a' l1]; simpl in *.
        -- injection Heq as <- <-. injection Hl1 as <-.
           apply Hf in Hbad. congruence.
        -- injection Heq as <- ->. rewrite Hfa in Hl1. discriminate.
Qed.

(** [add_eps] raises at the first EP whose node id is in the graph that the
    EPs before it have left, and [add_hcons] at the first constraint whose
    high handle has a constraint by then. *)
Lemma add_eps_Raise_at (g : Xmrs) (eps0 : list EP) (x : exn) :
  add_eps eps0 g = Raise x <->
  exists l1 e l2 g1,
    eps0 = l1 ++ e :: l2 /\ add_eps l1 g = Ok g1
    /\ dict_mem (ep_nodeid e) (_eps g1) = true
    /\ x = XmrsError (ep_exists_msg e).
Proof.
  unfold add_eps.
  rewrite (for_each_Raise_iff add_ep
             (fun st e => if dict_mem (ep_nodeid e) (_eps st)
                          then Some (XmrsError (ep_exists_msg e)) else None)).
  - split; intros (l1 & e & l2 & g1 & Heq & Hl1 & Hbad);
      exists l1, e, l2, g1; repeat split; auto.
    + now destruct (dict_mem (ep_nodeid e) (_eps g1)).
    + destruct (dict_mem (ep_nodeid e) (_eps g1)); congruence.
    + destruct Hbad as [-> ->]. reflexivity.
  - intros st a y. split.
    + intros Hr. apply add_ep_Raise in Hr as [-> ->]. reflexivity.
    + unfold add_ep. destruct (dict_mem (ep_nodeid a) (_eps st)); congruence.
Qed.

Lemma add_hcons_Raise_at (g : Xmrs) (hcons0 : list HandleConstraint) (x : exn) :
  add_hcons hcons0 g = Raise x <->
  exists l1 hc l2 g1,
    hcons0 = l1 ++ hc :: l2 /\ add_hcons l1 g = Ok g1
    /\ dict_mem (hc_hi hc) (_hcons g1) = true
    /\ x = XmrsError (hcons_exists_msg (hc_hi hc)).
Proof.
  unfold add_hcons.
  rewrite (for_each_Raise_iff add_hc
             (fun st hc => if dict_mem (hc_hi hc) (_hcons st)
                           then Some (XmrsError (hcons_exists_msg (hc_hi hc)))
                           else None)).
  - split; intros (l1 & e & l2 & g1 & Heq & Hl1 & Hbad);
      exists l1, e, l2, g1; repeat split; auto.
    + now destruct (dict_mem (hc_hi e) (_hcons g1)).
    + destruct (dict_mem (hc_hi e) (_hcons g1)); congruence.
    + destruct Hbad as [-> ->]. reflexivity.
  - intros st a y. split.
    + intros Hr. apply add_hc_Raise in Hr as [-> ->]. reflexivity.
    + intros Hb. destruct (add_hc st a) as [g'|e'] eqn:Ha.
      * apply add_hc_Ok in Ha as (Hm & _). rewrite Hm in Hb. discriminate.
      * apply add_hc_Raise in Ha as [Hm ->]. rewrite Hm in Hb. congruence.
Qed.

(** ** The empty graph *)

(** C10: on a graph without EPs [is_connected] raises an [XmrsError];
    [validate] fails with that error, and [is_well_formed] returns
    [False]. *)
Theorem empty_graph_not_connected (g : Xmrs) :
  _nodeids g = [] ->
  fst (is_connected g)
    = Raise (XmrsError "Cannot compute connectedness of an empty Xmrs.")
  /\ fst (validate g)
     = Raise (XmrsError "Cannot compute connectedness of an empty Xmrs.")
  /\ fst (is_well_formed g) = Ok false.
Proof.
  intros Hn.
  assert (Hc : is_connected g
               = (Raise (XmrsError "Cannot compute connectedness of an empty Xmrs."), g)).
  { unfold is_connected. rewrite Hn. reflexivity. }
  assert (Hv : validate g
               = (Raise (XmrsError "Cannot compute connectedness of an empty Xmrs."), g)).
  { unfold validate, eps. rewrite Hn. simpl. rewrite Hc. reflexivity. }
  repeat split.
  - now rewrite Hc.
  - now rewrite Hv.
  - unfold is_well_formed. now rewrite Hv.
Qed.

(** ** Lookups of a variable that is not in the table *)

(** The entry that [labelset] leaves for a label it did not find. *)
Definition fresh_label_entry : VarEntry :=
  {| props := []; refs := [("LBL", [])]; hcrefs := None; icrefs := None |}.

(** C8, as the code has it: for a variable that is not in [_vars], the
    lookups [nodeids(ivs=[v])], [nodeid(v)] and [properties(v)] raise
    [KeyError(v)] as it is; [labelset(v)] and [labelset_heads(v)] return the
    empty sequence and leave an entry for [v] in [_vars]. *)
Theorem lookups_of_unknown_variable (g : Xmrs) (v : vkey) :
  dict_get v (_vars g) = None ->
  (forall q, nodeids (Some [v]) q g = Raise (KeyError (pyval_of_vkey v)))
  /\ (forall q, nodeid v q g = Raise (KeyError (pyval_of_vkey v)))
  /\ (forall as_list, properties (pyval_of_vkey v) as_list g
                      = Raise (KeyError (pyval_of_vkey v)))
  /\ labelset v g = ([], with_vars g (dict_set v fresh_label_entry (_vars g)))
  /\ labelset_heads v g
     = (Ok [], with_vars g (dict_set v fresh_label_entry (_vars g))).
Proof.
  intros Hv.
  assert (Hn : forall q, nodeids (Some [v]) q g = Raise (KeyError (pyval_of_vkey v))).
  { intros q. unfold nodeids. simpl. now rewrite Hv. }
  assert (Hl : labelset v g
               = ([], with_vars g (dict_set v fresh_label_entry (_vars g)))).
  { unfold labelset, labelset_vars, vars_getitem. rewrite Hv. simpl.
    unfold with_refs. simpl. now rewrite dict_set_twice. }
  repeat split; auto.
  - intros q. unfold nodeid. now rewrite Hn.
  - intros as_list.
    destruct v as [s|]; unfold properties, pyval_of_vkey; now rewrite Hv.
  - unfold labelset_heads. rewrite Hl. reflexivity.
Qed.

(** ** Equality of graphs *)

(** What [__eq__] reads of a graph. *)
Definition same_structure (g h : Xmrs) : Prop :=
  top g = top h /\ index g = index h /\ xarg g = xarg h
  /\ _nodeids g = _nodeids h /\ _eps g = _eps h
  /\ _hcons g = _hcons h /\ _icons g = _icons h.

Lemma differ_refl {A : Type} (ne : A -> A -> bool) (l : list A) :
  (forall x, ne x x = false) -> differ ne l l = false.
Proof.
  intros Hne. unfold differ. rewrite Nat.eqb_refl. simpl.
  induction l as [|x l IH]; simpl; [reflexivity|].
  now rewrite Hne.
Qed.

Lemma str3_ne_refl (t : string * string * string) : str3_ne t t = false.
Proof.
  destruct t as [[a b] c]. unfold str3_ne. now rewrite !String.eqb_refl.
Qed.

Lemma Xmrs_eq_same_structure (g g' h h' : Xmrs) :
  same_structure g g' -> same_structure h h' -> Xmrs_eq g h = Xmrs_eq g' h'.
Proof.
  intros (T1 & I1 & X1 & N1 & E1 & H1 & C1) (T2 & I2 & X2 & N2 & E2 & H2 & C2).
  unfold Xmrs_eq, eps, hcons, icons.
  now rewrite T1, I1, X1, N1, E1, H1, C1, T2, I2, X2, N2, E2, H2, C2.
Qed.

(** C9: [__eq__] reads the top, index and xarg and the sorted EPs, HCONS
    and ICONS only.  Its result is the same for graphs that agree on these,
    and two graphs that differ in nothing else (variable properties, lnk,
    surface, identifier) are equal. *)
Theorem Xmrs_eq_ignores_metadata :
  (forall e, ep_ne e e = false) ->
  (forall g g' h h',
      same_structure g g' -> same_structure h h' ->
      Xmrs_eq g h = Xmrs_eq g' h')
  /\ (forall g h es,
        same_structure g h -> eps None g = Ok es -> Xmrs_eq g h = Ok true).
Proof.
  intros Hne. split; [exact Xmrs_eq_same_structure|].
  intros g h es Hs He.
  rewrite <- (Xmrs_eq_same_structure (g := g) (g' := g) (h := g) (h' := h)); auto.
  - unfold Xmrs_eq. rewrite !keqb_refl. simpl. rewrite He. simpl.
    rewrite (differ_refl _ _ Hne).
    rewrite !(differ_refl _ _ str3_ne_refl). reflexivity.
  - repeat split.
Qed.

(** ** [Rmrs] *)

Definition args_have_nodeids (a : RmrsArgs) : Prop :=
  match a with
  | ArgsList l => Forall (fun o => arg_nodeid o <> None) l
  | _ => True
  end.

(** C4, what the code does instead: whenever there is an EP, and all EPs
    and argument entries carry a node id, [Rmrs] stops with an
    [AttributeError] and builds no graph. *)
Theorem Rmrs_with_eps_raises
        (top0 index0 xarg0 : option string) (eps0 : list Rel) (args0 : RmrsArgs)
        (hcons0 : list HandleConstraint) (icons0 : list IndividualConstraint)
        (lnk0 : option Lnk) (surface0 identifier0 : option string)
        (vars0 : dict string (list (string * propval))) :
  eps0 <> [] ->
  Forall (fun r => rel_nodeid r <> None) eps0 ->
  args_have_nodeids args0 ->
  exists msg,
    Rmrs top0 index0 xarg0 eps0 args0 hcons0 icons0 lnk0 surface0 identifier0 vars0
    = Raise (AttributeError msg).
Proof.
  intros Hne Heps Hargs. unfold Rmrs.
  destruct args0 as [|d|l]; simpl.
  - destruct eps0 as [|r eps0]; [congruence|]. simpl. unfold merge_args.
    inversion Heps as [|? ? Hr _]; subst.
    destruct (rel_nodeid r); [|congruence]. simpl. eauto.
  - destruct d as [|[k a] d]; simpl.
    + destruct eps0 as [|r eps0]; [congruence|]. simpl. unfold merge_args.
      inversion Heps as [|? ? Hr _]; subst.
      destruct (rel_nodeid r); [|congruence]. simpl. eauto.
    + eauto.
  - assert (Hl : for_each check_arg (map ElemObj l) tt = Ok tt).
    { simpl in Hargs. induction Hargs as [|o l Ho _ IH]; simpl; [reflexivity|].
      destruct (arg_nodeid o); [|congruence]. simpl. exact IH. }
    rewrite Hl. simpl.
    destruct eps0 as [|r eps0]; [congruence|]. simpl. unfold merge_args.
    inversion Heps as [|? ? Hr _]; subst.
    destruct (rel_nodeid r); [|congruence]. simpl. eauto.
Qed.

End Properties.

(** ** What every built graph satisfies *)

Section Invariants.
Context `{cfg : Config} `{tys : Types} `{cmp : !Components}.

(** The node ids in the reference lists of an entry are among [N]. *)
Definition entry_ok (N : list Z) (d : VarEntry) : Prop :=
  forall r l n, dict_get r (refs d) = Some l -> In n l -> In n N.

Definition refs_ok (N : list Z) (vs : dict vkey VarEntry) : Prop :=
  forall k d, dict_get k vs = Some d -> entry_ok N d.

(** The node [n] is listed for [role] at the variable [v]. *)
Definition registered (vs : dict vkey VarEntry) (v : vkey) (role : string) (n : Z)
  : Prop :=
  exists d l, dict_get v vs = Some d /\ dict_get role (refs d) = Some l /\ In n l.

Definition refs_le (rs rs' : dict string (list Z)) : Prop :=
  forall r l, dict_get r rs = Some l ->
              exists l', dict_get r rs' = Some l' /\ incl l l'.

(** Entries stay, and their reference lists only grow. *)
Definition vars_le (vs vs' : dict vkey VarEntry) : Prop :=
  forall k d, dict_get k vs = Some d ->
              exists d', dict_get k vs' = Some d' /\ refs_le (refs d) (refs d').

(** A change of the table that keeps what the graph relies on: entries and
    references stay, new references are to nodes of [N], and [None] does not
    become a key. *)
Definition step_ok (N : list Z) (vs vs' : dict vkey VarEntry) : Prop :=
  vars_le vs vs'
  /\ (refs_ok N vs -> refs_ok N vs')
  /\ (dict_get None vs = None -> dict_get None vs' = None).

Lemma refs_le_refl (rs : dict string (list Z)) : refs_le rs rs.
Proof. intros r l Hl. exists l. split; [assumption | apply incl_refl]. Qed.

Lemma refs_le_trans (a b c : dict string (list Z)) :
  refs_le a b -> refs_le b c -> refs_le a c.
Proof.
  intros Hab Hbc r l Hl.
  destruct (Hab r l Hl) as (l' & Hl' & Hi).
  destruct (Hbc r l' Hl') as (l'' & Hl'' & Hi').
  exists l''. split; [assumption | eapply incl_tran; eassumption].
Qed.

Lemma vars_le_refl (vs : dict vkey VarEntry) : vars_le vs vs.
Proof. intros k d Hd. exists d. split; [assumption | apply refs_le_refl]. Qed.

Lemma vars_le_trans (a b c : dict vkey VarEntry) :
  vars_le a b -> vars_le b c -> vars_le a c.
Proof.
  intros Hab Hbc k d Hd.
  destruct (Hab k d Hd) as (d' & Hd' & Hr).
  destruct (Hbc k d' Hd') as (d'' & Hd'' & Hr').
  exists d''. split; [assumption | eapply refs_le_trans; eassumption].
Qed.

Lemma step_ok_refl (N : list Z) (vs : dict vkey VarEntry) : step_ok N vs vs.
Proof. repeat split; auto using vars_le_refl. Qed.

Lemma step_ok_trans (N : list Z) (a b c : dict vkey VarEntry) :
  step_ok N a b -> step_ok N b c -> step_ok N a c.
Proof.
  intros (L1 & R1 & K1) (L2 & R2 & K2).
  repeat split; eauto using vars_le_trans.
Qed.

Lemma registered_le (vs vs' : dict vkey VarEntry) (v : vkey) (role : string) (n : Z) :
  vars_le vs vs' -> registered vs v role n -> registered vs' v role n.
Proof.
  intros Hle (d & l & Hd & Hl & Hn).
  destruct (Hle v d Hd) as (d' & Hd' & Hr).
  destruct (Hr role l Hl) as (l' & Hl' & Hi).
  exists d', l'. auto.
Qed.

Lemma refs_ok_incl (N N' : list Z) (vs : dict vkey VarEntry) :
  incl N N' -> refs_ok N vs -> refs_ok N' vs.
Proof. intros Hi Hok k d Hd r l n Hl Hn. apply Hi. eapply Hok; eassumption. Qed.

Lemma entry_ok_new_var (N : list Z) : entry_ok N new_var.
Proof. intros r l n Hl. discriminate. Qed.

(** Writing an entry whose references extend the old ones. *)
Lemma step_ok_set (N : list Z) (vs : dict vkey VarEntry) (x : string) (d' : VarEntry) :
  (forall d, dict_get (Some x) vs = Some d -> refs_le (refs d) (refs d')) ->
  (refs_ok N vs -> entry_ok N d') ->
  step_ok N vs (dict_set (Some x) d' vs).
Proof.
  intros Hold Hnew. repeat split.
  - intros k d Hd. rewrite dict_get_set.
    destruct (keqb_spec k (Some x)) as [->|Hne].
    + exists d'. split; [reflexivity | auto].
    + exists d. split; [assumption | apply refs_le_refl].
  - intros Hok k d. rewrite dict_get_set.
    destruct (keqb_spec k (Some x)) as [->|Hne].
    + intros [= <-]. auto.
    + intros Hd. eapply Hok; eassumption.
  - intros Hn. rewrite dict_get_set_other; [assumption | discriminate].
Qed.

Lemma vars_getitem_spec (N : list Z) (x : string) (vs : dict vkey VarEntry) :
  let '(d, vs1) := vars_getitem (Some x) vs in
  step_ok N vs vs1
  /\ dict_get (Some x) vs1 = Some d
  /\ (refs_ok N vs -> entry_ok N d)
  /\ (forall d0, dict_get (Some x) vs = Some d0 -> d0 = d).
Proof.
  unfold vars_getitem. destruct (dict_get (Some x) vs) as [d|] eqn:Hd.
  - repeat split; auto using vars_le_refl.
    + intros Hok. eapply Hok; eassumption.
    + now intros d0 [= ->].
  - split; [|split; [apply dict_get_set_same|split]].
    + apply step_ok_set; [congruence | intros _; apply entry_ok_new_var].
    + intros _. apply entry_ok_new_var.
    + discriminate.
Qed.

Lemma vars_touch_ok (N : list Z) (x : string) (vs : dict vkey VarEntry) :
  step_ok N vs (vars_touch (Some x) vs).
Proof.
  unfold vars_touch. pose proof (vars_getitem_spec N x vs) as H.
  destruct (vars_getitem (Some x) vs). simpl. tauto.
Qed.

(** Writing an entry read with [vars_getitem] back with the same
    references. *)
Lemma step_ok_same_refs (N : list Z) (x : string) (vs : dict vkey VarEntry)
      (d d' : VarEntry) :
  dict_get (Some x) vs = Some d -> refs d' = refs d ->
  step_ok N vs (dict_set (Some x) d' vs).
Proof.
  intros Hd Hr. apply step_ok_set.
  - intros d0 Hd0. rewrite Hr. replace d0 with d by congruence. apply refs_le_refl.
  - intros Hok r l n. rewrite Hr. eapply Hok; eassumption.
Qed.

Lemma refs_append_spec (N : list Z) (x role : string) (n : Z)
      (vs : dict vkey VarEntry) :
  In n N ->
  step_ok N vs (refs_append (Some x) role n vs)
  /\ registered (refs_append (Some x) role n vs) (Some x) role n.
Proof.
  intros Hn. unfold refs_append.
  pose proof (vars_getitem_spec N x vs) as H.
  destruct (vars_getitem (Some x) vs) as [d vs1].
  destruct H as (Hstep & Hget & Hent & Hsame).
  assert (Hl : exists l rs1,
             refs_getitem role (refs d) = (l, rs1)
             /\ refs_le (refs d) (dict_set role (l ++ [n]) rs1)
             /\ (entry_ok N d ->
                 forall r l0 m, dict_get r (dict_set role (l ++ [n]) rs1) = Some l0 ->
                                In m l0 -> In m N)).
  { unfold refs_getitem. destruct (dict_get role (refs d)) as [l|] eqn:Hr.
    - exists l, (refs d). split; [reflexivity|]. split.
      + intros r l0 Hl0. rewrite dict_get_set.
        destruct (keqb_spec r role) as [->|Hne].
        * exists (l ++ [n]). split; [reflexivity|].
          replace l0 with l by congruence. apply incl_appl, incl_refl.
        * exists l0. split; [assumption | apply incl_refl].
      + intros Hok r l0 m. rewrite dict_get_set.
        destruct (keqb_spec r role) as [->|Hne].
        * intros [= <-] Hm. apply in_app_or in Hm as [Hm|[<-|[]]]; eauto.
        * intros Hl0 Hm. eauto.
    - exists [], (dict_set role [] (refs d)). split; [reflexivity|]. split.
      + intros r l0 Hl0. rewrite dict_set_twice, dict_get_set.
        destruct (keqb_spec r role) as [->|Hne]; [congruence|].
        exists l0. split; [assumption | apply incl_refl].
      + intros Hok r l0 m. rewrite dict_set_twice, dict_get_set.
        destruct (keqb_spec r role) as [->|Hne].
        * intros [= <-] [<-|[]]. assumption.
        * intros Hl0 Hm. eauto. }
  destruct Hl as (l & rs1 & -> & Hle & Hok').
  split.
  - eapply step_ok_trans; [exact Hstep|].
    apply step_ok_set.
    + intros d0 Hd0. replace d0 with d by congruence. exact Hle.
    + intros Hok r l0 m. simpl. apply Hok'. eapply Hok; eassumption.
  - exists (with_refs d (dict_set role (l ++ [n]) rs1)), (l ++ [n]).
    split; [apply dict_get_set_same|]. split.
    + simpl. apply dict_get_set_same.
    + apply in_or_app. right. now left.
Qed.

Lemma fold_add_ep_arg_spec (N : list Z) (n : Z) (a : dict string string)
      (vs : dict vkey VarEntry) :
  In n N ->
  step_ok N vs (fold_left (add_ep_arg n) a vs)
  /\ (forall role val, In (role, val) a -> var_re_match val = true ->
                       registered (fold_left (add_ep_arg n) a vs) (Some val) role n).
Proof.
  intros Hn. revert vs. induction a as [|[role val] a IH]; intros vs; simpl.
  - split; [apply step_ok_refl | tauto].
  - destruct (IH (add_ep_arg n vs (role, val))) as (Hstep & Hreg).
    assert (H1 : step_ok N vs (add_ep_arg n vs (role, val))
                 /\ (var_re_match val = true ->
                     registered (add_ep_arg n vs (role, val)) (Some val) role n)).
    { unfold add_ep_arg.
      destruct (dict_mem (Some val) vs || var_re_match val) eqn:E.
      - destruct (refs_append_spec N val role n vs Hn). auto.
      - split; [apply step_ok_refl|]. intros Hm. rewrite Hm, orb_true_r in E.
        discriminate. }
    destruct H1 as (Hs1 & Hr1). split.
    + eapply step_ok_trans; eassumption.
    + intros r v [[= <- <-]|Hin] Hm.
      * eapply registered_le; [apply Hstep | auto].
      * auto.
Qed.

(** The variable table of a graph refers to the nodes of the graph only,
    every node has its EP, and [None] is no variable. *)
Definition consistent (g : Xmrs) : Prop :=
  (forall n, In n (_nodeids g) -> dict_mem n (_eps g) = true)
  /\ refs_ok (_nodeids g) (_vars g)
  /\ dict_get None (_vars g) = None.

Lemma dict_set_absent {K V : Type} `{EqKey K} (k : K) (v : V) (d : dict K V) :
  dict_get k d = None -> dict_set k v d = d ++ [(k, v)].
Proof.
  induction d as [|[k' v'] d IH]; simpl; [reflexivity|].
  destruct (keqb k k'); [discriminate|]. intros Hd. now rewrite IH.
Qed.

Lemma dict_mem_false {K V : Type} `{EqKey K} (k : K) (d : dict K V) :
  dict_mem k d = false <-> dict_get k d = None.
Proof. unfold dict_mem. destruct (dict_get k d); split; congruence. Qed.

Lemma dict_mem_app {K V : Type} `{EqKey K} (k : K) (d d' : dict K V) :
  dict_mem k (d ++ d') = dict_mem k d || dict_mem k d'.
Proof.
  unfold dict_mem. induction d as [|[k' v'] d IH]; simpl.
  - now destruct (dict_get k d').
  - destruct (keqb k k'); [reflexivity | exact IH].
Qed.

(** *** [add_eps] *)

Lemma add_ep_vars (g g' : Xmrs) (e : EP) :
  add_ep g e = Ok g' ->
  step_ok (_nodeids g') (_vars g) (_vars g')
  /\ (forall lbl, ep_label e = Some lbl ->
                  registered (_vars g') (Some lbl) "LBL" (ep_nodeid e))
  /\ (forall role val, In (role, val) (ep_args e) -> var_re_match val = true ->
                       registered (_vars g') (Some val) role (ep_nodeid e)).
Proof.
  unfold add_ep. destruct (dict_mem (ep_nodeid e) (_eps g)); [discriminate|].
  intros [= <-]. simpl.
  set (N := _nodeids g ++ [ep_nodeid e]).
  assert (Hn : In (ep_nodeid e) N) by (apply in_or_app; right; now left).
  set (vs1 := match ep_label e with
              | Some lbl => refs_append (Some lbl) "LBL" (ep_nodeid e) (_vars g)
              | None => _vars g
              end).
  assert (H1 : step_ok N (_vars g) vs1
               /\ (forall lbl, ep_label e = Some lbl ->
                               registered vs1 (Some lbl) "LBL" (ep_nodeid e))).
  { unfold vs1. destruct (ep_label e) as [lbl|].
    - destruct (refs_append_spec N lbl "LBL" (ep_nodeid e) (_vars g) Hn).
      split; [assumption|]. now intros ? [= <-].
    - split; [apply step_ok_refl | discriminate]. }
  destruct H1 as (Hs1 & Hr1).
  destruct (fold_add_ep_arg_spec N (ep_nodeid e) (ep_args e) vs1 Hn) as (Hs2 & Hr2).
  split; [eapply step_ok_trans; eassumption|]. split; [|exact Hr2].
  intros lbl Hl. eapply registered_le; [apply Hs2 | auto].
Qed.

Lemma add_ep_consistent (g g' : Xmrs) (e : EP) :
  consistent g -> add_ep g e = Ok g' -> consistent g'.
Proof.
  intros (He & Hr & Hk) Ha.
  destruct (add_ep_vars _ _ Ha) as ((Hle & Hok & Hnone) & _).
  apply add_ep_Ok in Ha as (Hm & Heps & Hnids & _).
  repeat split.
  - intros n. rewrite Hnids, Heps, dict_mem_set. intros Hin.
    apply in_app_or in Hin as [Hin|[<-|[]]].
    + rewrite (He n Hin). apply orb_true_r.
    + now rewrite keqb_refl.
  - apply Hok. eapply refs_ok_incl; [|exact Hr].
    rewrite Hnids. apply incl_appl, incl_refl.
  - auto.
Qed.

Lemma add_eps_fields (eps0 : list EP) (g g' : Xmrs) :
  add_eps eps0 g = Ok g' ->
  _eps g' = _eps g ++ map (fun e => (ep_nodeid e, e)) eps0
  /\ _nodeids g' = _nodeids g ++ map ep_nodeid eps0
  /\ _hcons g' = _hcons g /\ _icons g' = _icons g
  /\ top g' = top g /\ index g' = index g /\ xarg g' = xarg g.
Proof.
  unfold add_eps. revert g. induction eps0 as [|e eps0 IH]; intros g; simpl.
  - intros [= <-]. rewrite !app_nil_r. repeat split.
  - destruct (add_ep g e) as [g1|] eqn:Ha; simpl; [|discriminate].
    intros Hrest. apply IH in Hrest as (H1 & H2 & H3 & H4 & H5 & H6 & H7).
    apply add_ep_Ok in Ha as (Hm & E1 & E2 & E3 & E4 & E5 & E6 & E7).
    rewrite H1, H2, H3, H4, H5, H6, H7, E1, E2, E3, E4, E5, E6, E7.
    apply dict_mem_false in Hm. rewrite (dict_set_absent _ _ _ Hm).
    rewrite <- !app_assoc. repeat split.
Qed.

Lemma add_eps_NoDup (eps0 : list EP) (g g' : Xmrs) :
  add_eps eps0 g = Ok g' ->
  NoDup (map ep_nodeid eps0)
  /\ (forall e, In e eps0 -> dict_mem (ep_nodeid e) (_eps g) = false).
Proof.
  unfold add_eps. revert g. induction eps0 as [|e eps0 IH]; intros g; simpl.
  - intros _. split; [constructor | tauto].
  - destruct (add_ep g e) as [g1|] eqn:Ha; simpl; [|discriminate].
    intros Hrest. apply IH in Hrest as (Hnd & Hfresh).
    apply add_ep_Ok in Ha as (Hm & E1 & _).
    assert (Hf : forall e', In e' eps0 ->
                            ep_nodeid e' <> ep_nodeid e
                            /\ dict_mem (ep_nodeid e') (_eps g) = false).
    { intros e' Hin. specialize (Hfresh e' Hin).
      rewrite E1, dict_mem_set in Hfresh. apply orb_false_iff in Hfresh as [Hk Hd].
      split; [now apply keqb_neq | assumption]. }
    split.
    + constructor; [|assumption]. intros Hin. apply in_map_iff in Hin as (e' & Heq & Hin).
      destruct (Hf e' Hin). congruence.
    + intros e' [<-|Hin]; [assumption | now apply Hf].
Qed.

Lemma add_eps_Ok_iff (eps0 : list EP) (g : Xmrs) :
  (exists g', add_eps eps0 g = Ok g')
  <-> NoDup (map ep_nodeid eps0)
      /\ (forall e, In e eps0 -> dict_mem (ep_nodeid e) (_eps g) = false).
Proof.
  split; [intros (g' & Hg); eapply add_eps_NoDup; eassumption|].
  unfold add_eps. revert g. induction eps0 as [|e eps0 IH]; intros g (Hnd & Hf); simpl.
  - eauto.
  - destruct (add_ep g e) as [g1|x] eqn:Ha; simpl.
    + apply IH. inversion Hnd as [|? ? Hnotin Hnd']; subst. split; [assumption|].
      intros e' Hin. apply add_ep_Ok in Ha as (_ & E1 & _).
      rewrite E1, dict_mem_set. apply orb_false_iff. split; [|auto with datatypes].
      apply keqb_neq. intros Heq. apply Hnotin. rewrite <- Heq. now apply in_map.
    + apply add_ep_Raise in Ha as (Hm & _).
      rewrite (Hf e (or_introl eq_refl)) in Hm. discriminate.
Qed.

Lemma add_eps_consistent (eps0 : list EP) (g g' : Xmrs) :
  consistent g -> add_eps eps0 g = Ok g' -> consistent g'.
Proof.
  unfold add_eps. revert g. induction eps0 as [|e eps0 IH]; intros g Hc; simpl.
  - now intros [= <-].
  - destruct (add_ep g e) as [g1|] eqn:Ha; simpl; [|discriminate].
    apply IH. eapply add_ep_consistent; eassumption.
Qed.

Lemma add_eps_registered (eps0 : list EP) (g g' : Xmrs) :
  add_eps eps0 g = Ok g' ->
  vars_le (_vars g) (_vars g')
  /\ (forall e, In e eps0 ->
                (forall lbl, ep_label e = Some lbl ->
                             registered (_vars g') (Some lbl) "LBL" (ep_nodeid e))
                /\ (forall role val, In (role, val) (ep_args e) ->
                                     var_re_match val = true ->
                                     registered (_vars g') (Some val) role (ep_nodeid e))).
Proof.
  unfold add_eps. revert g. induction eps0 as [|e eps0 IH]; intros g; simpl.
  - intros [= <-]. split; [apply vars_le_refl | tauto].
  - destruct (add_ep g e) as [g1|] eqn:Ha; simpl; [|discriminate].
    intros Hrest. apply IH in Hrest as (Hle & Hreg).
    destruct (add_ep_vars _ _ Ha) as ((Hle1 & _) & Hl & Ha').
    split; [eapply vars_le_trans; eassumption|].
    intros e' [<-|Hin]; [|auto]. split.
    + intros lbl Hlbl. eapply registered_le; eauto.
    + intros role val Hin Hm. eapply registered_le; eauto.
Qed.

(** *** [add_hcons] and [add_icons] *)

Lemma add_hc_vars (N : list Z) (g g' : Xmrs) (hc : HandleConstraint) :
  add_hc g hc = Ok g' -> step_ok N (_vars g) (_vars g').
Proof.
  unfold add_hc. destruct (dict_mem (hc_hi hc) (_hcons g)); [discriminate|].
  pose proof (vars_getitem_spec N (hc_lo hc) (_vars g)) as H1.
  destruct (vars_getitem (Some (hc_lo hc)) (_vars g)) as [dlo vs1].
  destruct H1 as (S1 & G1 & _).
  set (vs2 := match hcrefs dlo with
              | Some _ => vs1
              | None => dict_set (Some (hc_lo hc)) (with_hcrefs dlo (Some [])) vs1
              end).
  assert (S2 : step_ok N vs1 vs2).
  { unfold vs2. destruct (hcrefs dlo); [apply step_ok_refl|].
    eapply step_ok_same_refs; [exact G1 | reflexivity]. }
  pose proof (vars_getitem_spec N (hc_hi hc) vs2) as H3.
  destruct (vars_getitem (Some (hc_hi hc)) vs2) as [dhi vs3].
  destruct H3 as (S3 & _).
  intros [= <-]. simpl.
  eapply step_ok_trans; [exact S1|]. eapply step_ok_trans; [exact S2|].
  eapply step_ok_trans; [exact S3|].
  generalize (hcrefs_of (hc_hi hc) (refs dhi)). intros new. clear.
  revert vs3. induction new as [|r new IH]; intros vs; simpl.
  - apply step_ok_refl.
  - eapply step_ok_trans; [|apply IH].
    pose proof (vars_getitem_spec N (hc_lo hc) vs) as H.
    destruct (vars_getitem (Some (hc_lo hc)) vs) as [d vs'].
    destruct H as (S & G & _).
    eapply step_ok_trans; [exact S|].
    destruct (hcrefs d); [|apply step_ok_refl].
    eapply step_ok_same_refs; [exact G | reflexivity].
Qed.

Lemma add_hc_consistent (g g' : Xmrs) (hc : HandleConstraint) :
  consistent g -> add_hc g hc = Ok g' -> consistent g'.
Proof.
  intros (He & Hr & Hk) Ha.
  destruct (add_hc_vars (_nodeids g) _ _ Ha) as (_ & Hok & Hnone).
  apply add_hc_Ok in Ha as (_ & _ & E1 & E2 & _).
  unfold consistent. rewrite E1, E2. auto.
Qed.

Lemma add_hcons_fields (hcons0 : list HandleConstraint) (g g' : Xmrs) :
  add_hcons hcons0 g = Ok g' ->
  _hcons g' = _hcons g ++ map (fun hc => (hc_hi hc, hc)) hcons0
  /\ _eps g' = _eps g /\ _nodeids g' = _nodeids g /\ _icons g' = _icons g
  /\ top g' = top g /\ index g' = index g /\ xarg g' = xarg g.
Proof.
  unfold add_hcons. revert g. induction hcons0 as [|hc hcons0 IH]; intros g; simpl.
  - intros [= <-]. rewrite !app_nil_r. repeat split.
  - destruct (add_hc g hc) as [g1|] eqn:Ha; simpl; [|discriminate].
    intros Hrest. apply IH in Hrest as (H1 & H2 & H3 & H4 & H5 & H6 & H7).
    apply add_hc_Ok in Ha as (Hm & E1 & E2 & E3 & E4 & E5 & E6 & E7).
    rewrite H1, H2, H3, H4, H5, H6, H7, E1, E2, E3, E4, E5, E6, E7.
    apply dict_mem_false in Hm. rewrite (dict_set_absent _ _ _ Hm).
    rewrite <- !app_assoc. repeat split.
Qed.

Lemma add_hcons_Ok_iff (hcons0 : list HandleConstraint) (g : Xmrs) :
  (exists g', add_hcons hcons0 g = Ok g')
  <-> NoDup (map hc_hi hcons0)
      /\ (forall hc, In hc hcons0 -> dict_mem (hc_hi hc) (_hcons g) = false).
Proof.
  unfold add_hcons. revert g. induction hcons0 as [|hc hcons0 IH]; intros g; simpl.
  - split; [intros _; split; [constructor | tauto] | eauto].
  - destruct (add_hc g hc) as [g1|x] eqn:Ha; simpl.
    + rewrite IH. pose proof Ha as Ha'.
      apply add_hc_Ok in Ha' as (Hm & E1 & _). rewrite E1.
      split.
      * intros (Hnd & Hf).
        assert (Hf' : forall hc', In hc' hcons0 ->
                                  hc_hi hc' <> hc_hi hc
                                  /\ dict_mem (hc_hi hc') (_hcons g) = false).
        { intros hc' Hin. specialize (Hf hc' Hin).
          rewrite dict_mem_set in Hf. apply orb_false_iff in Hf as [Hk Hd].
          split; [now apply keqb_neq | assumption]. }
        split.
        -- constructor; [|assumption]. intros Hin.
           apply in_map_iff in Hin as (hc' & Heq & Hin).
           destruct (Hf' hc' Hin). congruence.
        -- intros hc' [<-|Hin]; [assumption | now apply Hf'].
      * intros (Hnd & Hf). inversion Hnd as [|? ? Hnotin Hnd']; subst.
        split; [assumption|]. intros hc' Hin. rewrite dict_mem_set.
        apply orb_false_iff. split; [|auto with datatypes].
        apply keqb_neq. intros Heq. apply Hnotin. rewrite <- Heq. now apply in_map.
    + apply add_hc_Raise in Ha as (Hm & _). split; [intros (g' & Hg); discriminate|].
      intros (_ & Hf). rewrite (Hf hc (or_introl eq_refl)) in Hm. discriminate.
Qed.

Lemma add_hcons_consistent (hcons0 : list HandleConstraint) (g g' : Xmrs) :
  consistent g -> add_hcons hcons0 g = Ok g' ->
  consistent g' /\ vars_le (_vars g) (_vars g').
Proof.
  unfold add_hcons. revert g. induction hcons0 as [|hc hcons0 IH]; intros g Hc; simpl.
  - intros [= <-]. split; [assumption | apply vars_le_refl].
  - destruct (add_hc g hc) as [g1|] eqn:Ha; simpl; [|discriminate].
    intros Hrest.
    assert (Hc1 : consistent g1) by (eapply add_hc_consistent; eassumption).
    destruct (IH g1 Hc1 Hrest) as (Hc' & Hle).
    split; [assumption|]. eapply vars_le_trans; [|exact Hle].
    apply (add_hc_vars [] _ _ Ha).
Qed.

(** *** Duplicate node ids and duplicate constraints *)

(** C5: [add_eps] raises exactly when the node id of some EP is already in
    the graph at the time the EP is added, that is, when it is a node id of
    the graph before the call or of an EP that stands before it in the
    sequence; the error is the duplicate-node error of the first such EP and
    names its node id.  Otherwise, when the node ids of the sequence are
    pairwise distinct and none is in the graph, [add_eps] returns.  In the
    same way [add_hcons] raises the duplicate-constraint error, which names
    the high handle, exactly when the high handle of some constraint has a
    constraint in the graph or is the high handle of a constraint before
    it. *)
Theorem add_eps_add_hcons_duplicates (g : Xmrs) :
  (forall (eps0 : list EP) (x : exn),
      add_eps eps0 g = Raise x <->
      exists l1 e l2,
        eps0 = l1 ++ e :: l2
        /\ NoDup (map ep_nodeid l1)
        /\ (forall e', In e' l1 -> dict_mem (ep_nodeid e') (_eps g) = false)
        /\ (dict_mem (ep_nodeid e) (_eps g) = true
            \/ In (ep_nodeid e) (map ep_nodeid l1))
        /\ x = XmrsError (ep_exists_msg e))
  /\ (forall eps0 : list EP,
         (exists g', add_eps eps0 g = Ok g')
         <-> NoDup (map ep_nodeid eps0)
             /\ (forall e, In e eps0 -> dict_mem (ep_nodeid e) (_eps g) = false))
  /\ (forall (hcons0 : list HandleConstraint) (x : exn),
         add_hcons hcons0 g = Raise x <->
         exists l1 hc l2,
           hcons0 = l1 ++ hc :: l2
           /\ NoDup (map hc_hi l1)
           /\ (forall hc', In hc' l1 -> dict_mem (hc_hi hc') (_hcons g) = false)
           /\ (dict_mem (hc_hi hc) (_hcons g) = true
               \/ In (hc_hi hc) (map hc_hi l1))
           /\ x = XmrsError (hcons_exists_msg (hc_hi hc)))
  /\ (forall hcons0 : list HandleConstraint,
         (exists g', add_hcons hcons0 g = Ok g')
         <-> NoDup (map hc_hi hcons0)
             /\ (forall hc, In hc hcons0 -> dict_mem (hc_hi hc) (_hcons g) = false)).
Proof.
  split; [|split; [intros eps0; apply add_eps_Ok_iff|
                   split; [|intros hcons0; apply add_hcons_Ok_iff]]].
  - intros eps0 x. rewrite add_eps_Raise_at. split.
    + intros (l1 & e & l2 & g1 & -> & Hl1 & Hm & ->).
      destruct (proj1 (add_eps_Ok_iff l1 g) (ex_intro _ g1 Hl1)) as (Hnd & Hfresh).
      destruct (add_eps_fields _ _ Hl1) as (E1 & _).
      exists l1, e, l2.
      split; [reflexivity|]. split; [assumption|]. split; [assumption|].
      split; [|reflexivity].
      rewrite E1, dict_mem_app in Hm. apply orb_true_iff in Hm as [Hm|Hm]; [now left|].
      right. apply dict_mem_keys in Hm. unfold dict_keys in Hm.
      rewrite map_map in Hm. exact Hm.
    + intros (l1 & e & l2 & -> & Hnd & Hfresh & Hdup & ->).
      destruct (proj2 (add_eps_Ok_iff l1 g) (conj Hnd Hfresh)) as (g1 & Hl1).
      destruct (add_eps_fields _ _ Hl1) as (E1 & _).
      exists l1, e, l2, g1.
      split; [reflexivity|]. split; [assumption|]. split; [|reflexivity].
      rewrite E1, dict_mem_app. apply orb_true_iff.
      destruct Hdup as [Hm|Hin]; [now left|].
      right. apply dict_mem_keys. unfold dict_keys. rewrite map_map. exact Hin.
  - intros hcons0 x. rewrite add_hcons_Raise_at. split.
    + intros (l1 & hc & l2 & g1 & -> & Hl1 & Hm & ->).
      destruct (proj1 (add_hcons_Ok_iff l1 g) (ex_intro _ g1 Hl1)) as (Hnd & Hfresh).
      destruct (add_hcons_fields _ _ Hl1) as (E1 & _).
      exists l1, hc, l2.
      split; [reflexivity|]. split; [assumption|]. split; [assumption|].
      split; [|reflexivity].
      rewrite E1, dict_mem_app in Hm. apply orb_true_iff in Hm as [Hm|Hm]; [now left|].
      right. apply dict_mem_keys in Hm. unfold dict_keys in Hm.
      rewrite map_map in Hm. exact Hm.
    + intros (l1 & hc & l2 & -> & Hnd & Hfresh & Hdup & ->).
      destruct (proj2 (add_hcons_Ok_iff l1 g) (conj Hnd Hfresh)) as (g1 & Hl1).
      destruct (add_hcons_fields _ _ Hl1) as (E1 & _).
      exists l1, hc, l2, g1.
      split; [reflexivity|]. split; [assumption|]. split; [|reflexivity].
      rewrite E1, dict_mem_app. apply orb_true_iff.
      destruct Hdup as [Hm|Hin]; [now left|].
      right. apply dict_mem_keys. unfold dict_keys. rewrite map_map. exact Hin.
Qed.

Lemma add_ic_spec (N : list Z) (g : Xmrs) (ic : IndividualConstraint) :
  exists g', add_ic g ic = Ok g'
             /\ step_ok N (_vars g) (_vars g')
             /\ _eps g' = _eps g /\ _nodeids g' = _nodeids g /\ _hcons g' = _hcons g
             /\ top g' = top g /\ index g' = index g /\ xarg g' = xarg g.
Proof.
  unfold add_ic.
  pose proof (vars_getitem_spec N (ic_right ic) (_vars g)) as H1.
  destruct (vars_getitem (Some (ic_right ic)) (_vars g)) as [dr vs1].
  destruct H1 as (S1 & G1 & _).
  set (vs2 := match icrefs dr with
              | Some _ => vs1
              | None => dict_set (Some (ic_right ic)) (with_icrefs dr (Some [])) vs1
              end).
  assert (S2 : step_ok N vs1 vs2).
  { unfold vs2. destruct (icrefs dr); [apply step_ok_refl|].
    eapply step_ok_same_refs; [exact G1 | reflexivity]. }
  pose proof (vars_getitem_spec N (ic_right ic) vs2) as H3.
  destruct (vars_getitem (Some (ic_right ic)) vs2) as [dr2 vs3].
  destruct H3 as (S3 & G3 & _).
  set (vs4 := match icrefs dr2 with
              | Some l => dict_set (Some (ic_right ic))
                                   (with_icrefs dr2 (Some (l ++ [ic]))) vs3
              | None => vs3
              end).
  assert (S4 : step_ok N vs3 vs4).
  { unfold vs4. destruct (icrefs dr2); [|apply step_ok_refl].
    eapply step_ok_same_refs; [exact G3 | reflexivity]. }
  eexists. split; [reflexivity|]. simpl. split; [|repeat split].
  eapply step_ok_trans; [exact S1|]. eapply step_ok_trans; [exact S2|].
  eapply step_ok_trans; [exact S3|]. eapply step_ok_trans; [exact S4|].
  apply vars_touch_ok.
Qed.

Lemma add_icons_spec (icons0 : list IndividualConstraint) (g : Xmrs) :
  exists g', add_icons icons0 g = Ok g'
             /\ (consistent g -> consistent g')
             /\ vars_le (_vars g) (_vars g')
             /\ _eps g' = _eps g /\ _nodeids g' = _nodeids g /\ _hcons g' = _hcons g
             /\ top g' = top g /\ index g' = index g /\ xarg g' = xarg g.
Proof.
  unfold add_icons. revert g. induction icons0 as [|ic icons0 IH]; intros g; simpl.
  - exists g. split; [reflexivity|]. split; [tauto|].
    split; [apply vars_le_refl|]. repeat split.
  - destruct (add_ic_spec (_nodeids g) g ic)
      as (g1 & -> & (L1 & R1 & K1) & E1 & E2 & E3 & E4 & E5 & E6).
    simpl. destruct (IH g1) as (g' & Hg' & Hc & L & F1 & F2 & F3 & F4 & F5 & F6).
    exists g'. split; [assumption|]. split.
    + intros (He & Hr & Hk). apply Hc. unfold consistent. rewrite E1, E2. auto.
    + split; [eapply vars_le_trans; eassumption|].
      rewrite F1, F2, F3, F4, F5, F6. repeat split; assumption.
Qed.

(** *** [Xmrs.__init__] *)

Lemma set_props_ok (N : list Z) (vs : dict vkey VarEntry)
      (vp : string * list (string * propval)) :
  step_ok N vs (set_props vs vp).
Proof.
  destruct vp as [var ps]. unfold set_props.
  pose proof (vars_getitem_spec N var vs) as H.
  destruct (vars_getitem (Some var) vs) as [d vs1]. destruct H as (S & G & _).
  eapply step_ok_trans; [exact S|].
  eapply step_ok_same_refs; [exact G | reflexivity].
Qed.

Lemma touch_opt_ok (N : list Z) (v : option string) (vs : dict vkey VarEntry) :
  step_ok N vs (touch_opt v vs).
Proof. destruct v; simpl; [apply vars_touch_ok | apply step_ok_refl]. Qed.

Lemma init_vars_ok (top0 index0 xarg0 : option string)
      (vars : dict string (list (string * propval))) :
  step_ok [] []
          (fold_left set_props vars
                     (touch_opt xarg0 (touch_opt index0 (touch_opt top0 [])))).
Proof.
  apply step_ok_trans with (b := touch_opt top0 []); [apply touch_opt_ok|].
  apply step_ok_trans with (b := touch_opt index0 (touch_opt top0 []));
    [apply touch_opt_ok|].
  apply step_ok_trans with (b := touch_opt xarg0 (touch_opt index0 (touch_opt top0 [])));
    [apply touch_opt_ok|].
  generalize (touch_opt xarg0 (touch_opt index0 (touch_opt top0 []))).
  induction vars as [|vp vars IH]; intros vs; simpl.
  - apply step_ok_refl.
  - eapply step_ok_trans; [apply set_props_ok | apply IH].
Qed.

(** What a graph built by [Xmrs] is made of. *)
Record built (top0 index0 xarg0 : option string) (eps0 : list EP)
       (hcons0 : list HandleConstraint) (lnk0 : option Lnk)
       (surface0 identifier0 : option string) (g : Xmrs) : Prop := mkBuilt {
  built_top : top g = top0;
  built_index : index g = index0;
  built_xarg : xarg g = xarg0;
  built_lnk : lnk g = lnk0;
  built_surface : surface g = surface0;
  built_identifier : identifier g = identifier0;
  built_nodeids : _nodeids g = map ep_nodeid eps0;
  built_eps : _eps g = map (fun e => (ep_nodeid e, e)) eps0;
  built_hcons : _hcons g = map (fun hc => (hc_hi hc, hc)) hcons0;
  built_NoDup_eps : NoDup (map ep_nodeid eps0);
  built_NoDup_hcons : NoDup (map hc_hi hcons0);
  built_consistent : consistent g;
  built_label : forall e lbl, In e eps0 -> ep_label e = Some lbl ->
                              registered (_vars g) (Some lbl) "LBL" (ep_nodeid e);
  built_args : forall e role val, In e eps0 -> In (role, val) (ep_args e) ->
                                  var_re_match val = true ->
                                  registered (_vars g) (Some val) role (ep_nodeid e)
}.

Lemma Xmrs_init_built (top0 index0 xarg0 : option string) (eps0 : list EP)
      (hcons0 : list HandleConstraint) (icons0 : list IndividualConstraint)
      (vars : dict string (list (string * propval)))
      (lnk0 : option Lnk) (surface0 identifier0 : option string) (g : Xmrs) :
  Xmrs_init top0 index0 xarg0 eps0 hcons0 icons0 vars lnk0 surface0 identifier0 = Ok g ->
  built top0 index0 xarg0 eps0 hcons0 lnk0 surface0 identifier0 g.
Proof.
  unfold Xmrs_init.
  set (vs0 := fold_left set_props vars _).
  set (g0 := with_vars (empty_Xmrs top0 index0 xarg0) vs0).
  destruct (add_eps eps0 g0) as [g1|] eqn:H1; simpl; [|discriminate].
  destruct (add_hcons hcons0 g1) as [g2|] eqn:H2; simpl; [|discriminate].
  destruct (add_icons_spec icons0 g2)
    as (g3 & -> & C3 & L3 & F1 & F2 & F3 & F4 & F5 & F6).
  simpl. intros [= <-].
  assert (C0 : consistent g0).
  { destruct (init_vars_ok top0 index0 xarg0 vars) as (_ & R & K).
    repeat split; simpl.
    - intros n [].
    - apply R. intros k d Hd. discriminate.
    - apply K. reflexivity. }
  pose proof (add_eps_consistent eps0 C0 H1) as C1.
  destruct (add_hcons_consistent hcons0 C1 H2) as (C2 & L2).
  destruct (add_eps_fields _ _ H1) as (A1 & A2 & A3 & A4 & A5 & A6 & A7).
  destruct (add_hcons_fields _ _ H2) as (B1 & B2 & B3 & B4 & B5 & B6 & B7).
  destruct (add_eps_NoDup _ _ H1) as (ND1 & _).
  destruct (proj1 (add_hcons_Ok_iff hcons0 g1) (ex_intro _ g2 H2)) as (ND2 & _).
  destruct (add_eps_registered _ _ H1) as (_ & Hreg).
  assert (L : vars_le (_vars g1) (_vars g3)) by (eapply vars_le_trans; eassumption).
  constructor; simpl.
  - now rewrite F4, B5, A5.
  - now rewrite F5, B6, A6.
  - now rewrite F6, B7, A7.
  - reflexivity.
  - reflexivity.
  - reflexivity.
  - now rewrite F2, B3, A2.
  - now rewrite F1, B2, A1.
  - now rewrite F3, B1, A3.
  - assumption.
  - assumption.
  - specialize (C3 C2). destruct C3 as (X1 & X2 & X3).
    unfold consistent. simpl. auto.
  - intros e lbl Hin Hl. eapply registered_le; [exact L|].
    destruct (Hreg e Hin) as (Hr & _). now apply Hr.
  - intros e role val Hin Ha Hm. eapply registered_le; [exact L|].
    destruct (Hreg e Hin) as (_ & Hr). now apply Hr.
Qed.

Lemma Xmrs_init_Ok_iff (top0 index0 xarg0 : option string) (eps0 : list EP)
      (hcons0 : list HandleConstraint) (icons0 : list IndividualConstraint)
      (vars : dict string (list (string * propval)))
      (lnk0 : option Lnk) (surface0 identifier0 : option string) :
  (exists g, Xmrs_init top0 index0 xarg0 eps0 hcons0 icons0 vars
                       lnk0 surface0 identifier0 = Ok g)
  <-> NoDup (map ep_nodeid eps0) /\ NoDup (map hc_hi hcons0).
Proof.
  split.
  - intros (g & Hg). apply Xmrs_init_built in Hg.
    split; [eapply built_NoDup_eps | eapply built_NoDup_hcons]; eassumption.
  - intros (N1 & N2). unfold Xmrs_init.
    set (vs0 := fold_left set_props vars _).
    set (g0 := with_vars (empty_Xmrs top0 index0 xarg0) vs0).
    destruct (proj2 (add_eps_Ok_iff eps0 g0)) as (g1 & H1).
    { split; [assumption | reflexivity]. }
    rewrite H1. simpl.
    destruct (proj2 (add_hcons_Ok_iff hcons0 g1)) as (g2 & H2).
    { split; [assumption|]. intros hc _.
      destruct (add_eps_fields _ _ H1) as (_ & _ & -> & _). reflexivity. }
    rewrite H2. simpl.
    destruct (add_icons_spec icons0 g2) as (g3 & -> & _). simpl. eauto.
Qed.

(** *** The EPs and constraints of a built graph *)

Lemma dict_get_pairs {A : Type} (key : A -> Z) (l : list A) (a : A) :
  NoDup (map key l) -> In a l ->
  dict_get (key a) (map (fun x => (key x, x)) l) = Some a.
Proof.
  induction l as [|x l IH]; simpl; [tauto|].
  intros Hnd [->|Hin].
  - now rewrite Z.eqb_refl.
  - inversion Hnd as [|? ? Hnotin Hnd']; subst.
    destruct (Z.eqb_spec (key a) (key x)) as [Heq|Hne].
    + exfalso. apply Hnotin. rewrite <- Heq. now apply in_map.
    + auto.
Qed.

Lemma dict_get_pairs_inv {A : Type} (key : A -> Z) (l : list A) (k : Z) (a : A) :
  dict_get k (map (fun x => (key x, x)) l) = Some a -> In a l /\ key a = k.
Proof.
  induction l as [|x l IH]; simpl; [discriminate|].
  destruct (Z.eqb_spec k (key x)) as [->|Hne].
  - intros [= ->]. auto.
  - intros Hg. destruct (IH Hg). auto.
Qed.

Lemma map_result_lookup {A : Type} (key : A -> Z) (d : dict Z A) (l : list A) :
  (forall a, In a l -> dict_get (key a) d = Some a) ->
  map_result (fun n => dict_getitem PyInt n d) (map key l) = Ok l.
Proof.
  induction l as [|x l IH]; intros H; simpl; [reflexivity|].
  unfold dict_getitem at 1. rewrite (H x (or_introl eq_refl)). simpl.
  rewrite IH; [reflexivity|]. auto with datatypes.
Qed.

Lemma built_eps_list top0 index0 xarg0 eps0 hcons0 lnk0 surface0 identifier0 g :
  built top0 index0 xarg0 eps0 hcons0 lnk0 surface0 identifier0 g ->
  eps None g = Ok eps0.
Proof.
  intros B. unfold eps. rewrite (built_nodeids B), (built_eps B).
  apply map_result_lookup. intros a Hin.
  apply (dict_get_pairs ep_nodeid); [eapply built_NoDup_eps; eassumption | assumption].
Qed.

Lemma built_hcons_list top0 index0 xarg0 eps0 hcons0 lnk0 surface0 identifier0 g :
  built top0 index0 xarg0 eps0 hcons0 lnk0 surface0 identifier0 g ->
  hcons g = hcons0.
Proof.
  intros B. unfold hcons, dict_values. rewrite (built_hcons B), map_map. simpl.
  apply map_id.
Qed.

(** *** The traversal [_bfs] ends *)

(** The adjacency lists of the keys that are not seen yet. *)
Fixpoint pending (g : dict Z (list Z)) (seen : list Z) : nat :=
  match g with
  | [] => O
  | (k, s) :: g' => ((if mem k seen then O else List.length s) + pending g' seen)%nat
  end.

Lemma mem_app_one (k x : Z) (seen : list Z) :
  mem k (seen ++ [x]) = mem k seen || (k =? x).
Proof. unfold mem. rewrite existsb_app. simpl. now rewrite orb_false_r. Qed.

Lemma pending_mono (g : dict Z (list Z)) (seen : list Z) (x : Z) :
  (pending g (seen ++ [x]) <= pending g seen)%nat.
Proof.
  induction g as [|[k s] g IH]; simpl; [lia|].
  rewrite mem_app_one. destruct (mem k seen); simpl; [lia|].
  destruct (k =? x); lia.
Qed.

Lemma pending_take (g : dict Z (list Z)) (seen : list Z) (x : Z) (s : list Z) :
  dict_get x g = Some s -> mem x seen = false ->
  (pending g (seen ++ [x]) + List.length s <= pending g seen)%nat.
Proof.
  intros Hg Hm. induction g as [|[k s0] g IH]; simpl in *; [discriminate|].
  rewrite mem_app_one. destruct (Z.eqb_spec x k) as [->|Hne].
  - injection Hg as ->. rewrite Hm, Z.eqb_refl. simpl.
    pose proof (pending_mono g seen k). lia.
  - specialize (IH Hg). destruct (mem k seen); simpl; [lia|].
    destruct (k =? x); lia.
Qed.

Lemma bfs_loop_total (fuel : nat) (g : dict Z (list Z)) (seen agenda : list Z) :
  (List.length agenda + pending g seen < fuel)%nat ->
  bfs_loop fuel g seen agenda <> None.
Proof.
  revert seen agenda. induction fuel as [|fuel IH]; intros seen agenda Hlt; [lia|].
  simpl. destruct agenda as [|x agenda]; [discriminate|].
  simpl in Hlt. destruct (mem x seen) eqn:Hm.
  - apply IH. lia.
  - apply IH. rewrite length_app.
    destruct (dict_get x g) as [s|] eqn:Hg.
    + pose proof (@pending_take g seen x s Hg Hm).
      pose proof (filter_length_le (fun y => negb (mem y (seen ++ [x]))) s). lia.
    + pose proof (pending_mono g seen x). simpl. lia.
Qed.

Lemma pending_nil (g : dict Z (list Z)) :
  pending g [] = List.length (List.concat (dict_values g)).
Proof.
  induction g as [|[k s] g IH]; simpl; [reflexivity|].
  rewrite length_app. unfold dict_values in IH. now rewrite IH.
Qed.

(** The loop of [_bfs] ends within the turns that the model gives it. *)
Lemma bfs_fuel_enough (g : dict Z (list Z)) (start : Z) :
  exists seen, bfs_loop (bfs_fuel g) g [] [start] = Some seen.
Proof.
  destruct (bfs_loop (bfs_fuel g) g [] [start]) as [seen|] eqn:E; [eauto|].
  exfalso. revert E. apply bfs_loop_total.
  unfold bfs_fuel. rewrite pending_nil. simpl. lia.
Qed.

Lemma bfs_loop_incl (N : list Z) (fuel : nat) (g : dict Z (list Z))
      (seen agenda r : list Z) :
  (forall k s y, dict_get k g = Some s -> In y s -> In y N) ->
  incl seen N -> incl agenda N ->
  bfs_loop fuel g seen agenda = Some r -> incl r N.
Proof.
  intros Hg. revert seen agenda.
  induction fuel as [|fuel IH]; intros seen agenda Hs Ha; simpl; [discriminate|].
  destruct agenda as [|x agenda]; [now intros [= <-]|].
  assert (Hx : In x N) by (apply Ha; now left).
  assert (Ha' : incl agenda N) by (intros y Hy; apply Ha; now right).
  destruct (mem x seen).
  - now apply IH.
  - apply IH.
    + intros y Hy. apply in_app_or in Hy as [Hy|[<-|[]]]; auto.
    + intros y Hy. apply in_app_or in Hy as [Hy|Hy]; [auto|].
      apply filter_In in Hy as [Hy _].
      destruct (dict_get x g) as [s|] eqn:E; [eauto | destruct Hy].
Qed.

(** *** [is_connected] returns *)

Definition edges_ok (N : list Z) (es : list (Z * Z)) : Prop :=
  forall e, In e es -> In (fst e) N /\ In (snd e) N.

Lemma edges_ok_app (N : list Z) (a b : list (Z * Z)) :
  edges_ok N a -> edges_ok N b -> edges_ok N (a ++ b).
Proof. intros Ha Hb e He. apply in_app_or in He as [He|He]; auto. Qed.

Lemma refs_ok_set (N : list Z) (k : vkey) (d : VarEntry) (vs : dict vkey VarEntry) :
  refs_ok N vs -> entry_ok N d -> refs_ok N (dict_set k d vs).
Proof.
  intros Hok Hd k' d'. rewrite dict_get_set.
  destruct (keqb k' k); [now intros [= <-] | apply Hok].
Qed.

Lemma labelset_vars_ok (N : list Z) (k : vkey) (vs : dict vkey VarEntry) :
  refs_ok N vs ->
  refs_ok N (snd (labelset_vars k vs)) /\ incl (fst (labelset_vars k vs)) N.
Proof.
  intros Hok. unfold labelset_vars, vars_getitem.
  destruct (dict_get k vs) as [d|] eqn:Hd.
  - destruct (dict_get "LBL" (refs d)) as [l|] eqn:Hl; simpl.
    + split; [assumption|]. intros n Hn. eapply Hok; eassumption.
    + split; [|intros n []]. apply refs_ok_set; [assumption|].
      intros r l n. simpl. rewrite dict_get_set.
      destruct (keqb r "LBL"); [intros [= <-] [] | apply (Hok k d Hd)].
  - simpl. split; [|intros n []].
    apply refs_ok_set; [apply refs_ok_set; [assumption | apply entry_ok_new_var]|].
    intros r l n. simpl.
    destruct (String.eqb r "LBL"); [intros [= <-] [] | discriminate].
Qed.

Lemma label_edges_ok (N : list Z) (l : list Z) :
  incl l N -> edges_ok N (label_edges l).
Proof.
  intros Hl e He. unfold label_edges in He.
  apply in_flat_map in He as (x & Hx & He).
  apply in_flat_map in He as (y & Hy & He).
  destruct (x =? y); [destruct He|]. destruct He as [<-|[]]. simpl. auto.
Qed.

Lemma label_loop_ok (N : list Z) (lbls : list (option string))
      (st : list (Z * Z) * dict vkey VarEntry) :
  edges_ok N (fst st) -> refs_ok N (snd st) ->
  let st' := fold_left (fun st lbl =>
                          let '(lblset, vs') := labelset_vars lbl (snd st) in
                          (fst st ++ label_edges lblset, vs'))
                       lbls st in
  edges_ok N (fst st') /\ refs_ok N (snd st').
Proof.
  revert st. induction lbls as [|lbl lbls IH]; intros st He Hr; simpl; [auto|].
  apply IH.
  - destruct (@labelset_vars_ok N lbl (snd st) Hr) as (_ & Hi).
    destruct (labelset_vars lbl (snd st)) as [lblset vs']. simpl in *.
    apply edges_ok_app; [assumption | now apply label_edges_ok].
  - destruct (@labelset_vars_ok N lbl (snd st) Hr) as (Hr' & _).
    destruct (labelset_vars lbl (snd st)) as [lblset vs']. assumption.
Qed.

Lemma arg_edges_ok (N : list Z) (g : Xmrs) (nid : Z)
      (st : list (Z * Z) * dict vkey VarEntry) (arg : string * string) :
  In nid N -> edges_ok N (fst st) -> refs_ok N (snd st) ->
  edges_ok N (fst (arg_edges g nid st arg)) /\ refs_ok N (snd (arg_edges g nid st arg)).
Proof.
  intros Hn He Hr. destruct st as [edges vs]. simpl in He, Hr. unfold arg_edges.
  destruct (dict_get (Some (snd arg)) vs) as [d|] eqn:Hd; [|simpl; auto].
  set (p := match dict_get IVARG_ROLE (refs d) with
            | Some l => (l, vs)
            | None =>
                match dict_get (snd arg) (_hcons g) with
                | Some hc => labelset_vars (Some (hc_lo hc)) vs
                | None => match dict_get "LBL" (refs d) with
                          | Some l => (l, vs)
                          | None => ([], vs)
                          end
                end
            end).
  assert (Hp : incl (fst p) N /\ refs_ok N (snd p)).
  { unfold p. destruct (dict_get IVARG_ROLE (refs d)) as [l|] eqn:Hl; simpl.
    - split; [|assumption]. intros n Hin. eapply Hr; eassumption.
    - destruct (dict_get (snd arg) (_hcons g)) as [hc|].
      + destruct (@labelset_vars_ok N (Some (hc_lo hc)) vs Hr). auto.
      + destruct (dict_get "LBL" (refs d)) as [l|] eqn:Hl'; simpl.
        * split; [|assumption]. intros n Hin. eapply Hr; eassumption.
        * split; [intros n []|assumption]. }
  destruct p as [tgtnids vs']. simpl in *. destruct Hp as (Hi & Hr').
  split; [|assumption].
  apply edges_ok_app; [assumption|]. apply edges_ok_app.
  - intros e Hin. apply in_map_iff in Hin as (t & <- & Ht).
    apply filter_In in Ht as [Ht _]. simpl. auto.
  - intros e Hin. apply in_map_iff in Hin as (t & <- & Ht).
    apply filter_In in Ht as [Ht _]. simpl. auto.
Qed.

Lemma arg_loop_ok (N : list Z) (g : Xmrs) (nids : list Z)
      (st : list (Z * Z) * dict vkey VarEntry) :
  (forall n, In n nids -> In n N /\ dict_mem n (_eps g) = true) ->
  edges_ok N (fst st) -> refs_ok N (snd st) ->
  exists edges vs, arg_loop g nids st = (Ok edges, vs)
                   /\ edges_ok N edges /\ refs_ok N vs.
Proof.
  revert st. induction nids as [|nid nids IH]; intros st Hn He Hr; simpl.
  - eauto.
  - destruct (Hn nid (or_introl eq_refl)) as (HnN & Hm).
    unfold dict_mem in Hm. destruct (dict_get nid (_eps g)) as [e|]; [|discriminate].
    apply IH; [auto with datatypes| |].
    + generalize (ep_args e). intros a. revert st He Hr.
      induction a as [|arg a IHa]; intros st He Hr; simpl; [assumption|].
      destruct (@arg_edges_ok N g nid st arg HnN He Hr). auto.
    + generalize (ep_args e). intros a. revert st He Hr.
      induction a as [|arg a IHa]; intros st He Hr; simpl; [assumption|].
      destruct (@arg_edges_ok N g nid st arg HnN He Hr). auto.
Qed.

Lemma to_set_In {K : Type} `{EqKey K} (x : K) (l : list K) :
  In x (to_set l) <-> In x l.
Proof.
  induction l as [|y l IH]; simpl; [tauto|].
  rewrite filter_In, IH. destruct (keqb_spec x y) as [->|Hne]; simpl.
  - split; auto.
  - split; [intros [->|[Hin _]]; auto | intros [->|Hin]; [congruence | auto]].
Qed.

(** The keys of the adjacency are the nodes, and it lists nodes only. *)
Definition graph_ok (N : list Z) (gr : dict Z (list Z)) : Prop :=
  (forall n, In n N <-> dict_mem n gr = true)
  /\ (forall k s y, dict_get k gr = Some s -> In y s -> In y N).

Lemma add_edges_ok (N : list Z) (edges : list (Z * Z)) (gr : dict Z (list Z)) :
  edges_ok N edges -> graph_ok N gr ->
  exists gr', for_each add_edge edges gr = Ok gr' /\ graph_ok N gr'.
Proof.
  revert gr. induction edges as [|e edges IH]; intros gr He (Hk & Hv); simpl.
  - exists gr. split; [reflexivity | split; assumption].
  - destruct (He e (or_introl eq_refl)) as (Hx & Hy).
    unfold add_edge. pose proof (proj1 (Hk _) Hx) as Hm. unfold dict_mem in Hm.
    destruct (dict_get (fst e) gr) as [s|] eqn:Hs; [|discriminate]. simpl.
    apply IH; [intros e' He'; apply He; now right|]. split.
    + intros n. rewrite dict_mem_set, Hk.
      destruct (keqb_spec n (fst e)) as [->|Hne]; simpl; [|tauto].
      unfold dict_mem. rewrite Hs. tauto.
    + intros k s' y. rewrite dict_get_set.
      destruct (keqb k (fst e)); [|apply Hv].
      intros [= <-]. unfold set_add. destruct (mem (snd e) s); [eauto|].
      intros Hin. apply in_app_or in Hin as [Hin|[<-|[]]]; eauto.
Qed.

Lemma filter_nil {A : Type} (f : A -> bool) (l : list A) :
  (forall x, In x l -> f x = false) -> filter f l = [].
Proof.
  induction l as [|x l IH]; intros H; simpl; [reflexivity|].
  rewrite (H x (or_introl eq_refl)). apply IH. auto with datatypes.
Qed.

Lemma map_result_Ok {A B : Type} (f : A -> result B) (l : list A) :
  (forall x, In x l -> exists y, f x = Ok y) ->
  exists ys, map_result f l = Ok ys.
Proof.
  induction l as [|x l IH]; intros H; simpl; [eauto|].
  destruct (H x (or_introl eq_refl)) as (y & ->). simpl.
  destruct IH as (ys & ->); [auto with datatypes|]. simpl. eauto.
Qed.

(** On a consistent graph with at least one node [is_connected] returns a
    boolean. *)
Lemma is_connected_returns (g : Xmrs) :
  consistent g -> _nodeids g <> [] ->
  exists b g', is_connected g = (Ok b, g').
Proof.
  intros (He & Hr & _) Hne. unfold is_connected.
  set (N := _nodeids g) in *.
  destruct (to_set N) as [|n0 nids0] eqn:Hset.
  { destruct N as [|n N']; [congruence | discriminate]. }
  rewrite <- Hset. set (nids := to_set N) in *.
  assert (Hl : exists lbls, labels g = Ok lbls).
  { apply map_result_Ok. intros n Hn. unfold label, ep, dict_getitem.
    specialize (He n Hn). unfold dict_mem in He.
    destruct (dict_get n (_eps g)); [simpl; eauto | discriminate]. }
  destruct Hl as (lbls & ->).
  pose proof (@label_loop_ok N lbls ([], _vars g)) as H1.
  destruct (fold_left _ lbls ([], _vars g)) as [edges1 vs1]. simpl in H1.
  destruct H1 as (E1 & R1); [intros e [] | assumption|].
  destruct (@arg_loop_ok N g nids (edges1, vs1)) as (edges & vs2 & -> & E2 & R2);
    [|assumption|assumption|].
  { intros n Hn. unfold nids in Hn. rewrite to_set_In in Hn. split; [|apply He]; exact Hn. }
  simpl.
  destruct (@add_edges_ok N edges (map (fun nid => (nid, [])) nids) E2)
    as (gr & -> & Hk & Hv).
  { split.
    - intros n. rewrite dict_mem_keys. unfold dict_keys. rewrite map_map. simpl.
      rewrite map_id. symmetry. apply to_set_In.
    - intros k s y Hg. apply dict_get_In in Hg.
      apply in_map_iff in Hg as (x & [= _ <-] & _). intros []. }
  simpl. destruct (set_eqb (_bfs gr None) nids); [eauto|].
  assert (Hb : incl (_bfs gr None) N).
  { unfold _bfs. destruct gr as [|[k s] gr'] eqn:Egr; [intros y []|].
    rewrite <- Egr in *. destruct (bfs_fuel_enough gr k) as (seen & Hseen).
    rewrite Hseen.
    apply (@bfs_loop_incl N (bfs_fuel gr) gr [] [k] seen Hv);
      [intros y [] | | exact Hseen].
    intros y [<-|[]]. apply Hk. rewrite Egr. unfold dict_mem. simpl.
    now rewrite Z.eqb_refl. }
  assert (Hd : set_difference (_bfs gr None) nids = []).
  { unfold set_difference. apply filter_nil. intros x Hx.
    apply negb_false_iff. apply mem_In. apply to_set_In. now apply Hb. }
  rewrite Hd. eauto.
Qed.

(** *** What [validate] collects *)

Lemma validate_ep_errors (st : ValidateState) (e : EP) (m : string) :
  In m (vs_errors st) -> In m (vs_errors (validate_ep st e)).
Proof.
  intros Hm. unfold validate_ep.
  set (errors1 := match ep_label e with
                  | None => vs_errors st ++ [missing_label_msg (ep_nodeid e)]
                  | Some _ => vs_errors st
                  end).
  assert (H1 : In m errors1).
  { unfold errors1. destruct (ep_label e); [assumption | apply in_or_app; now left]. }
  set (errors2 := match dict_get IVARG_ROLE (ep_args e) with
                  | None => errors1 ++ [missing_iv_msg]
                  | Some _ => errors1
                  end).
  assert (H2 : In m errors2).
  { unfold errors2. destruct (dict_get IVARG_ROLE (ep_args e));
      [assumption | apply in_or_app; now left]. }
  destruct (ep_is_quantifier e); simpl.
  - destruct (dict_mem _ (vs_bvs st)); [apply in_or_app; now left | assumption].
  - destruct (dict_mem _ (vs_ivs st)); [apply in_or_app; now left | assumption].
Qed.

Lemma validate_ep_missing_label (st : ValidateState) (e : EP) :
  ep_label e = None ->
  In (missing_label_msg (ep_nodeid e)) (vs_errors (validate_ep st e)).
Proof.
  intros Hl. unfold validate_ep. rewrite Hl.
  set (errors1 := vs_errors st ++ [missing_label_msg (ep_nodeid e)]).
  assert (H1 : In (missing_label_msg (ep_nodeid e)) errors1)
    by (apply in_or_app; right; now left).
  set (errors2 := match dict_get IVARG_ROLE (ep_args e) with
                  | None => errors1 ++ [missing_iv_msg]
                  | Some _ => errors1
                  end).
  assert (H2 : In (missing_label_msg (ep_nodeid e)) errors2).
  { unfold errors2. destruct (dict_get IVARG_ROLE (ep_args e));
      [assumption | apply in_or_app; now left]. }
  destruct (ep_is_quantifier e); simpl.
  - destruct (dict_mem _ (vs_bvs st)); [apply in_or_app; now left | assumption].
  - destruct (dict_mem _ (vs_ivs st)); [apply in_or_app; now left | assumption].
Qed.

Lemma validate_ep_labels (st : ValidateState) (e : EP) (k : option string) :
  dict_mem k (vs_labels (validate_ep st e))
  = keqb k (ep_label e) || dict_mem k (vs_labels st).
Proof.
  unfold validate_ep. destruct (ep_is_quantifier e); cbn [vs_labels];
    apply dict_mem_set.
Qed.

Lemma validate_eps_errors (es : list EP) (st : ValidateState) (m : string) :
  In m (vs_errors st) -> In m (vs_errors (fold_left validate_ep es st)).
Proof.
  revert st. induction es as [|e es IH]; intros st Hm; simpl; [assumption|].
  apply IH. now apply validate_ep_errors.
Qed.

Lemma validate_eps_missing_label (es : list EP) (st : ValidateState) (e : EP) :
  In e es -> ep_label e = None ->
  In (missing_label_msg (ep_nodeid e)) (vs_errors (fold_left validate_ep es st)).
Proof.
  revert st. induction es as [|e' es IH]; intros st Hin Hl; simpl; [destruct Hin|].
  destruct Hin as [->|Hin]; [|now apply IH].
  apply validate_eps_errors. now apply validate_ep_missing_label.
Qed.

Lemma validate_eps_labels (es : list EP) (st : ValidateState) (k : option string) :
  dict_mem k (vs_labels st) = false ->
  (forall e, In e es -> ep_label e <> k) ->
  dict_mem k (vs_labels (fold_left validate_ep es st)) = false.
Proof.
  revert st. induction es as [|e es IH]; intros st Hm Hne; simpl; [assumption|].
  apply IH; [|auto with datatypes].
  rewrite validate_ep_labels, Hm, orb_false_r. apply keqb_neq.
  intros Heq. apply (Hne e (or_introl eq_refl)). congruence.
Qed.

Lemma validate_hcs_errors (lbls : dict (option string) (list Z))
      (hcs : list HandleConstraint) (errors : list string) (m : string) :
  In m errors -> In m (fold_left (validate_hc lbls) hcs errors).
Proof.
  revert errors. induction hcs as [|hc hcs IH]; intros errors Hm; simpl; [assumption|].
  apply IH. unfold validate_hc.
  destruct (dict_mem _ lbls); [assumption | apply in_or_app; now left].
Qed.

Lemma validate_hcs_dangling (lbls : dict (option string) (list Z))
      (hcs : list HandleConstraint) (errors : list string) (hc : HandleConstraint) :
  In hc hcs -> dict_mem (Some (hc_lo hc)) lbls = false ->
  In (dangling_hcons_msg hc) (fold_left (validate_hc lbls) hcs errors).
Proof.
  revert errors. induction hcs as [|hc' hcs IH]; intros errors Hin Hm; simpl;
    [destruct Hin|].
  destruct Hin as [->|Hin]; [|now apply IH].
  apply validate_hcs_errors. unfold validate_hc. rewrite Hm.
  apply in_or_app. right. now left.
Qed.

(** C7: on a graph built from EPs one of which has no label, and from
    constraints one of which has a low handle that is the label of no EP,
    [validate] fails with one [XmrsError] whose message joins the collected
    lines, and both problems are among these lines. *)
Theorem validate_collects_all_problems
        (top0 index0 xarg0 : option string) (eps0 : list EP)
        (hcons0 : list HandleConstraint) (icons0 : list IndividualConstraint)
        (vars : dict string (list (string * propval)))
        (lnk0 : option Lnk) (surface0 identifier0 : option string)
        (g : Xmrs) (e : EP) (hc : HandleConstraint) :
  Xmrs_init top0 index0 xarg0 eps0 hcons0 icons0 vars lnk0 surface0 identifier0 = Ok g ->
  In e eps0 -> ep_label e = None ->
  In hc hcons0 -> (forall e', In e' eps0 -> ep_label e' <> Some (hc_lo hc)) ->
  exists errors,
    fst (validate g) = Raise (XmrsError (String.concat newline errors))
    /\ In (missing_label_msg (ep_nodeid e)) errors
    /\ In (dangling_hcons_msg hc) errors.
Proof.
  intros Hg He Hl Hhc Hlo. apply Xmrs_init_built in Hg as B.
  pose proof (built_eps_list B) as Heps.
  pose proof (built_hcons_list B) as Hhcons.
  destruct (@is_connected_returns g (built_consistent B)) as (b & g' & Hc).
  { rewrite (built_nodeids B). destruct eps0; [destruct He | discriminate]. }
  unfold validate. rewrite Heps, Hc. simpl.
  set (errors := validate_errors eps0 g).
  assert (H1 : In (missing_label_msg (ep_nodeid e)) errors).
  { unfold errors, validate_errors. apply validate_hcs_errors.
    now apply validate_eps_missing_label. }
  assert (H2 : In (dangling_hcons_msg hc) errors).
  { unfold errors, validate_errors. fold (hcons g). rewrite Hhcons.
    apply validate_hcs_dangling; [assumption|].
    apply validate_eps_labels; [reflexivity | assumption]. }
  exists (if b then errors else errors ++ [not_connected_msg]).
  assert (H1' : In (missing_label_msg (ep_nodeid e))
                   (if b then errors else errors ++ [not_connected_msg])).
  { destruct b; [assumption | apply in_or_app; now left]. }
  assert (H2' : In (dangling_hcons_msg hc)
                   (if b then errors else errors ++ [not_connected_msg])).
  { destruct b; [assumption | apply in_or_app; now left]. }
  split; [|split; assumption].
  destruct (if b then errors else errors ++ [not_connected_msg]);
    [destruct H1' | reflexivity].
Qed.

(** *** Ranking the heads of a label set *)

(** [ARG0] of an EP, and the intrinsic variables of a set of EPs. *)
Definition intrinsic (e : EP) : option string := dict_get IVARG_ROLE (ep_args e).

Definition intrinsic_variables (es : list EP) : list string :=
  flat_map (fun e => match intrinsic e with Some v => [v] | None => [] end) es.

(** The arguments of [e], other than the intrinsic one, whose value is one
    of the variables [ivars]. *)
Definition outgoing (ivars : list string) (e : EP) : nat :=
  List.length (filter (fun rv => negb (String.eqb (fst rv) IVARG_ROLE)
                                 && mem (snd rv) ivars)
                      (ep_args e)).

Lemma with_vars_same (g : Xmrs) : with_vars g (_vars g) = g.
Proof. now destruct g. Qed.

Lemma for_each_dict_build {A V : Type} (F : Z -> result A) (E : Z -> A)
      (h : A -> V) (ls : list Z) (d0 : dict Z V) :
  NoDup ls ->
  (forall n, In n ls -> dict_get n d0 = None) ->
  (forall n, In n ls -> F n = Ok (E n)) ->
  for_each (fun d n => e <- F n ;; Ok (dict_set n (h e) d)) ls d0
  = Ok (d0 ++ map (fun n => (n, h (E n))) ls).
Proof.
  revert d0. induction ls as [|n ls IH]; intros d0 Hnd Hfresh HF; simpl.
  - now rewrite app_nil_r.
  - rewrite (HF n (or_introl eq_refl)). simpl.
    rewrite (dict_set_absent _ _ _ (Hfresh n (or_introl eq_refl))).
    inversion Hnd as [|? ? Hnotin Hnd']; subst.
    rewrite IH; [now rewrite <- app_assoc | assumption | | auto with datatypes].
    intros m Hm. assert (Hne : m <> n) by congruence.
    assert (Hget : forall (d : dict Z V), dict_get m d = None ->
                                          dict_get m (d ++ [(n, h (E n))]) = None).
    { intros d. induction d as [|[k v] d IHd]; simpl.
      - destruct (Z.eqb_spec m n); [congruence | reflexivity].
      - destruct (m =? k); [discriminate | exact IHd]. }
    apply Hget. auto with datatypes.
Qed.

Lemma map_result_map {A B : Type} (f : A -> result B) (h : A -> B) (l : list A) :
  (forall x, In x l -> f x = Ok (h x)) -> map_result f l = Ok (map h l).
Proof.
  induction l as [|x l IH]; intros H; simpl; [reflexivity|].
  rewrite (H x (or_introl eq_refl)). simpl.
  rewrite IH; [reflexivity | auto with datatypes].
Qed.

Lemma insert_sorted_In {A : Type} (leb : A -> A -> bool) (x y : A) (l : list A) :
  In y (insert_sorted leb x l) <-> y = x \/ In y l.
Proof.
  induction l as [|z l IH]; simpl; [intuition auto|].
  destruct (leb x z); simpl; [intuition auto|]. rewrite IH. intuition auto.
Qed.

Lemma sorted_In {A : Type} (leb : A -> A -> bool) (y : A) (l : list A) :
  In y (sorted leb l) <-> In y l.
Proof.
  unfold sorted. induction l as [|x l IH]; simpl; [tauto|].
  rewrite insert_sorted_In, IH. intuition auto.
Qed.

(** An element that is less than all others comes first in the sorted
    list. *)
Lemma sorted_head {A : Type} (leb : A -> A -> bool) (x : A) (l : list A) :
  In x l ->
  (forall y, In y l -> leb x y = true /\ (y = x \/ leb y x = false)) ->
  exists rest, sorted leb l = x :: rest.
Proof.
  unfold sorted. induction l as [|z l IH]; intros Hin Hmin; simpl; [destruct Hin|].
  assert (Hmin' : forall y, In y l -> leb x y = true /\ (y = x \/ leb y x = false))
    by auto with datatypes.
  destruct (Hmin z (or_introl eq_refl)) as (Hxz & Hzx).
  destruct Hin as [->|Hin].
  - destruct (fold_right (insert_sorted leb) [] l) as [|w t] eqn:E; simpl; [eauto|].
    assert (Hw : In w l) by (apply (sorted_In leb); unfold sorted; rewrite E; now left).
    destruct (Hmin' w Hw) as (-> & _). eauto.
  - destruct (IH Hin Hmin') as (rest & ->). simpl.
    destruct Hzx as [->|Hzx].
    + rewrite Hxz. eauto.
    + rewrite Hzx. eauto.
Qed.

(** The count that [labelset_heads] calls [out] is the number of outgoing
    arguments, plus one for the intrinsic argument when its value is an
    intrinsic variable of the set. *)
Lemma out_degree (ivars : list string) (a : dict string string) :
  NoDup (dict_keys a) ->
  List.length (filter (fun v => mem v ivars) (dict_values a))
  = (List.length (filter (fun rv => negb (String.eqb (fst rv) IVARG_ROLE)
                                    && mem (snd rv) ivars) a)
     + match dict_get IVARG_ROLE a with
       | Some v => if mem v ivars then 1 else 0
       | None => 0
       end)%nat.
Proof.
  unfold dict_keys, dict_values.
  induction a as [|[r v] a IH]; intros Hnd; simpl; [reflexivity|].
  inversion Hnd as [|? ? Hnotin Hnd']; subst. specialize (IH Hnd').
  destruct (String.eqb_spec r IVARG_ROLE) as [->|Hne].
  - rewrite !String.eqb_refl. simpl.
    assert (Hnone : dict_get IVARG_ROLE a = None).
    { apply dict_mem_false. destruct (dict_mem IVARG_ROLE a) eqn:E; [|reflexivity].
      apply dict_mem_keys in E. contradiction. }
    rewrite Hnone in IH. destruct (mem v ivars); simpl; lia.
  - assert (E2 : String.eqb IVARG_ROLE r = false)
      by (apply String.eqb_neq; congruence).
    rewrite E2. simpl. destruct (mem v ivars); simpl; lia.
Qed.

Lemma bool_eq_iff (x y : bool) : (x = true <-> y = true) -> x = y.
Proof.
  destruct x, y; intros [H1 H2]; try reflexivity;
    [symmetry; apply H1 | apply H2]; reflexivity.
Qed.

Lemma ivs_mem (l : dict Z (option string)) (d0 : dict string Z) (v : string) :
  dict_mem v (fold_left (fun d kv => match snd kv with
                                     | Some iv => dict_set iv (fst kv) d
                                     | None => d
                                     end) l d0) = true
  <-> dict_mem v d0 = true \/ In (Some v) (map snd l).
Proof.
  revert d0. induction l as [|[n o] l IH]; intros d0; simpl; [tauto|].
  rewrite IH. destruct o as [iv|]; simpl.
  - rewrite dict_mem_set, orb_true_iff, keqb_eq.
    split; [intros [[->|H]|H] | intros [H|[[= ->]|H]]]; auto.
  - split; [intros [H|H] | intros [H|[H|H]]]; auto. discriminate.
Qed.

Lemma pairs_get {V : Type} (f : Z -> V) (ls : list Z) (n : Z) :
  In n ls -> dict_get n (map (fun m => (m, f m)) ls) = Some (f n).
Proof.
  induction ls as [|m ls IH]; simpl; [tauto|].
  intros Hin. destruct (Z.eqb_spec n m) as [->|Hne]; [reflexivity|].
  destruct Hin as [->|Hin]; [congruence | auto].
Qed.

Lemma filter_pairs {V : Type} (f : Z -> V) (p : V -> bool) (ls : list Z) :
  map fst (filter (fun kv => p (snd kv)) (map (fun m => (m, f m)) ls))
  = filter (fun m => p (f m)) ls.
Proof.
  induction ls as [|m ls IH]; simpl; [reflexivity|].
  destruct (p (f m)); simpl; now rewrite IH.
Qed.

Lemma map_result_rel {A B : Type} (f : A -> result B) (R : A -> B -> Prop)
      (l : list A) :
  (forall x, In x l -> exists y, f x = Ok y /\ R x y) ->
  exists ys, map_result f l = Ok ys
             /\ (forall y, In y ys -> exists x, In x l /\ f x = Ok y /\ R x y)
             /\ (forall x, In x l -> exists y, In y ys /\ f x = Ok y /\ R x y).
Proof.
  induction l as [|x l IH]; intros H; simpl.
  - exists []. split; [reflexivity|]. split; intros ? [].
  - destruct (H x (or_introl eq_refl)) as (y & Hy & Ry). rewrite Hy. simpl.
    destruct IH as (ys & -> & H1 & H2); [auto with datatypes|]. simpl.
    exists (y :: ys). split; [reflexivity|]. split.
    + intros y' [<-|Hin]; [exists x; auto with datatypes|].
      destruct (H1 y' Hin) as (x' & Hx' & Hf & HR). exists x'. auto with datatypes.
    + intros x' [<-|Hin]; [exists y; auto with datatypes|].
      destruct (H2 x' Hin) as (y' & Hy' & Hf & HR). exists y'. auto with datatypes.
Qed.

Lemma nodeid_returns (g : Xmrs) (iv : vkey) (q : bool) (d : VarEntry) (l : list Z) :
  consistent g ->
  dict_get iv (_vars g) = Some d -> dict_get IVARG_ROLE (refs d) = Some l ->
  exists r, nodeid iv q g = Ok r.
Proof.
  intros (He & Hr & _) Hd Hl. unfold nodeid, nodeids. simpl. rewrite Hd, Hl. simpl.
  destruct (@map_result_Ok Z (Z * bool)
              (fun n => e <- ep n g ;; Ok (n, Bool.eqb (ep_is_quantifier e) q)) l)
    as (flags & ->); [|simpl; eauto].
  intros n Hn. assert (Hm : dict_mem n (_eps g) = true).
  { apply He. eapply Hr; eassumption. }
  unfold ep, dict_getitem. unfold dict_mem in Hm.
  destruct (dict_get n (_eps g)); [simpl; eauto | discriminate].
Qed.

Lemma count_refs_in_pos (rs : dict string (list Z)) (nids : list Z)
      (role : string) (l : list Z) (n : Z) :
  dict_get role rs = Some l -> In n l -> In n nids -> 1 <= count_refs_in rs nids.
Proof.
  intros Hl Hn Hin. unfold count_refs_in.
  assert (H : In n (filter (fun s => mem s nids) (List.concat (dict_values rs)))).
  { apply filter_In. split; [|now apply mem_In].
    apply in_concat. exists l. split; [|assumption].
    apply dict_get_In in Hl. unfold dict_values.
    apply in_map_iff. exists (role, l). auto. }
  destruct (filter _ _); [destruct H | simpl; lia].
Qed.

(** C6, as the code has it: on a graph as [Xmrs] built it, in which the
    label [lbl] is shared by exactly the three EPs A, B and C, where A has no
    outgoing argument to an intrinsic variable of the set and B and C have
    one each, [labelset_heads] returns A first, provided that the graph knows
    A as a node of its intrinsic variable when A has one: [nodeids] of that
    variable lists A.  This is so when the variable has the form of a
    variable, or was a variable of the graph already when A was added. *)
Theorem labelset_heads_ranks_A_first
        (top0 index0 xarg0 : option string) (eps0 : list EP)
        (hcons0 : list HandleConstraint) (icons0 : list IndividualConstraint)
        (vars : dict string (list (string * propval)))
        (lnk0 : option Lnk) (surface0 identifier0 : option string)
        (g : Xmrs) (lbl : string) (a b c : Z) (epA epB epC : EP) :
  Xmrs_init top0 index0 xarg0 eps0 hcons0 icons0 vars lnk0 surface0 identifier0 = Ok g ->
  Permutation (fst (labelset (Some lbl) g)) [a; b; c] ->
  NoDup [a; b; c] ->
  ep a g = Ok epA -> ep b g = Ok epB -> ep c g = Ok epC ->
  NoDup (dict_keys (ep_args epA)) ->
  NoDup (dict_keys (ep_args epB)) ->
  NoDup (dict_keys (ep_args epC)) ->
  (forall iv, intrinsic epA = Some iv ->
              exists l, nodeids (Some [Some iv]) None g = Ok l /\ In a l) ->
  outgoing (intrinsic_variables [epA; epB; epC]) epA = 0%nat ->
  outgoing (intrinsic_variables [epA; epB; epC]) epB = 1%nat ->
  outgoing (intrinsic_variables [epA; epB; epC]) epC = 1%nat ->
  exists rest, fst (labelset_heads (Some lbl) g) = Ok (a :: rest).
Proof.
  intros Hg Hperm Hnd HA HB HC NA NB NC Hvar OA OB OC.
  apply Xmrs_init_built in Hg as B.
  pose proof (built_consistent B) as Hcons.
  set (ivars := intrinsic_variables [epA; epB; epC]) in *.
  (* the label set *)
  assert (Hls : exists ls, labelset (Some lbl) g = (ls, g) /\ Permutation ls [a; b; c]).
  { unfold labelset, labelset_vars, vars_getitem in *.
    destruct (dict_get (Some lbl) (_vars g)) as [d|] eqn:Hd.
    - destruct (dict_get "LBL" (refs d)) as [l|] eqn:Hl; simpl in Hperm.
      + exists l. now rewrite with_vars_same.
      + apply Permutation_nil in Hperm. discriminate.
    - simpl in Hperm. apply Permutation_nil in Hperm. discriminate. }
  destruct Hls as (ls & Hlabelset & Hp).
  assert (Hab : a <> b /\ a <> c /\ b <> c).
  { inversion Hnd as [|? ? H1 H2]; subst. inversion H2 as [|? ? H3 _]; subst.
    simpl in H1, H3. intuition congruence. }
  destruct Hab as (Hab & Hac & Hbc).
  assert (Hin : forall n, In n ls <-> n = a \/ n = b \/ n = c).
  { intros n. split.
    - intros H. apply (Permutation_in _ Hp) in H. simpl in H. intuition auto.
    - intros H. apply (Permutation_in _ (Permutation_sym Hp)). simpl. intuition auto. }
  assert (Hndls : NoDup ls) by (eapply Permutation_NoDup; [apply Permutation_sym|]; eassumption).
  assert (Hlen : List.length ls = 3%nat) by (now rewrite (Permutation_length Hp)).
  set (E := fun n => if n =? a then epA else if n =? b then epB else epC).
  assert (EA : E a = epA) by (unfold E; now rewrite Z.eqb_refl).
  assert (EB : E b = epB).
  { unfold E. rewrite Z.eqb_refl. destruct (Z.eqb_spec b a); congruence. }
  assert (EC : E c = epC).
  { unfold E. destruct (Z.eqb_spec c a); [congruence|].
    destruct (Z.eqb_spec c b); congruence. }
  assert (HE : forall n, In n ls -> ep n g = Ok (E n)).
  { intros n Hn. apply Hin in Hn as [-> | [-> | ->]]; congruence. }
  assert (HnoDup : forall n, In n ls -> NoDup (dict_keys (ep_args (E n)))).
  { intros n Hn. apply Hin in Hn as [-> | [-> | ->]]; congruence. }
  (* the dict [nodeids] *)
  unfold labelset_heads. rewrite Hlabelset. simpl.
  assert (Hd1 : for_each
                  (fun d nid =>
                     e <- ep nid g ;;
                     Ok (dict_set nid (dict_get IVARG_ROLE (ep_args e)) d)) ls []
                = Ok (map (fun n => (n, intrinsic (E n))) ls)).
  { apply (@for_each_dict_build EP (option string) (fun n => ep n g) E intrinsic ls []);
      auto. }
  rewrite Hd1. simpl. set (nodeids_d := map (fun n => (n, intrinsic (E n))) ls).
  assert (Hkeys : dict_keys nodeids_d = ls).
  { unfold dict_keys, nodeids_d. rewrite map_map. simpl. apply map_id. }
  replace (List.length nodeids_d) with 3%nat by (unfold nodeids_d; now rewrite length_map).
  simpl.
  (* the dict [ivs] *)
  match goal with
  | |- context [fold_left ?f nodeids_d ?i] => set (ivs := fold_left f nodeids_d i)
  end.
  assert (Hivs : forall v, dict_mem v ivs = mem v ivars).
  { intros v. apply bool_eq_iff. unfold ivs. rewrite ivs_mem, mem_In.
    unfold nodeids_d, ivars, intrinsic_variables. rewrite map_map. simpl.
    rewrite in_map_iff, !in_app_iff. split.
    - intros [H|(n & Hn & Hnin)]; [discriminate|].
      apply Hin in Hnin as [-> | [-> | ->]]; rewrite ?EA, ?EB, ?EC in Hn; rewrite Hn;
        simpl; auto.
    - intros H. right.
      destruct H as [H|[H|[H|H]]]; [| | |destruct H].
      + exists a. split; [|apply Hin; auto]. rewrite EA.
        destruct (intrinsic epA) as [w|];
          [destruct H as [->|H]; [reflexivity | destruct H] | destruct H].
      + exists b. split; [|apply Hin; auto]. rewrite EB.
        destruct (intrinsic epB) as [w|];
          [destruct H as [->|H]; [reflexivity | destruct H] | destruct H].
      + exists c. split; [|apply Hin; auto]. rewrite EC.
        destruct (intrinsic epC) as [w|];
          [destruct H as [->|H]; [reflexivity | destruct H] | destruct H]. }
  (* the dict [out] *)
  set (od := fun e : EP =>
               Z.of_nat (List.length (filter (fun v => dict_mem v ivs)
                                             (dict_values (ep_args e))))).
  assert (Hd2 : for_each
                  (fun d n =>
                     e <- ep n g ;;
                     Ok (dict_set n
                           (Z.of_nat (List.length (filter (fun v => dict_mem v ivs)
                                                          (dict_values (ep_args e)))))
                           d)) (dict_keys nodeids_d) []
                = Ok (map (fun n => (n, od (E n))) ls)).
  { rewrite Hkeys.
    apply (@for_each_dict_build EP Z (fun n => ep n g) E od ls []); auto. }
  rewrite Hd2. simpl. set (out := map (fun n => (n, od (E n))) ls).
  assert (Hod : forall n, In n ls ->
                          od (E n) = Z.of_nat (outgoing ivars (E n))
                                     + match intrinsic (E n) with
                                       | Some _ => 1
                                       | None => 0
                                       end).
  { intros n Hn. unfold od.
    rewrite (filter_ext _ (fun v => mem v ivars) Hivs).
    rewrite (@out_degree ivars (ep_args (E n)) (HnoDup n Hn)). fold (outgoing ivars (E n)).
    fold (intrinsic (E n)). rewrite Nat2Z.inj_add. f_equal.
    destruct (intrinsic (E n)) as [v|] eqn:Hv; [|reflexivity].
    assert (Hm : mem v ivars = true).
    { apply mem_In. unfold ivars, intrinsic_variables. simpl. rewrite !in_app_iff.
      apply Hin in Hn as [-> | [-> | ->]]; rewrite ?EA, ?EB, ?EC in Hv; rewrite Hv;
        simpl; auto. }
    now rewrite Hm. }
  (* the candidates *)
  replace (map fst (filter (fun kv : Z * Z => snd kv <=? 1) out))
    with (filter (fun m => od (E m) <=? 1) ls)
    by (symmetry; apply (filter_pairs (fun n => od (E n)) (fun z => z <=? 1))).
  set (candidates := filter (fun m => od (E m) <=? 1) ls).
  assert (Hca : In a candidates).
  { apply filter_In. split; [apply Hin; auto|]. apply Z.leb_le.
    rewrite (Hod a) by (apply Hin; auto). rewrite EA, OA.
    destruct (intrinsic epA); simpl; lia. }
  assert (Hcx : forall n, In n candidates -> n <> a ->
                          intrinsic (E n) = None /\ od (E n) = 1).
  { intros n Hn Hna. apply filter_In in Hn as (Hn & Hle). apply Z.leb_le in Hle.
    rewrite (Hod n Hn) in *.
    assert (Ho : outgoing ivars (E n) = 1%nat).
    { apply Hin in Hn as [-> | [-> | ->]]; congruence. }
    rewrite Ho in *. destruct (intrinsic (E n)); [simpl in Hle; lia | auto]. }
  (* the ranks *)
  destruct Hcons as (Heps & Hrefs & Hnone).
  destruct (@map_result_rel Z (Z * head_key) (head_rank g nodeids_d out)
              (fun n y =>
                 fst y = n
                 /\ (n = a -> exists o i q, snd y = (o, i, q, a)
                                            /\ (o = 0 \/ (o = 1 /\ i <= -1)))
                 /\ (n <> a -> exists q, snd y = (1, 0, q, n)))
              candidates) as (ranked & -> & Hr1 & Hr2).
  { intros n Hn. assert (Hnls : In n ls) by (apply filter_In in Hn; tauto).
    unfold head_rank, dict_getitem. unfold out, nodeids_d.
    rewrite (pairs_get (fun m => od (E m)) ls n Hnls).
    rewrite (pairs_get (fun m => intrinsic (E m)) ls n Hnls). simpl.
    destruct (Z.eq_dec n a) as [->|Hna].
    - rewrite EA. destruct (intrinsic epA) as [iv|] eqn:Hiv.
      + assert (Hreg : registered (_vars g) (Some iv) IVARG_ROLE a).
        { destruct (Hvar iv) as (l0 & Hl0 & Hal0); [first [reflexivity | exact Hiv]|].
          unfold nodeids in Hl0. cbn [for_each bind] in Hl0.
          destruct (dict_get (Some iv) (_vars g)) as [d0|] eqn:Hd0; [|discriminate].
          destruct (dict_get IVARG_ROLE (refs d0)) as [l1|] eqn:Hl1; [|discriminate].
          cbn [bind app] in Hl0. injection Hl0 as <-. exists d0, l1. auto. }
        destruct Hreg as (d & l & Hd & Hl & Hal).
        rewrite Hd.
        destruct (@nodeid_returns g (Some iv) true d l) as (r & ->);
          [repeat split; assumption | assumption | assumption |].
        simpl. eexists. split; [reflexivity|]. simpl. split; [reflexivity|].
        split; [|congruence]. intros _.
        eexists _, _, _. split; [reflexivity|].
        right. split.
        * rewrite <- EA, (Hod a) by (apply Hin; auto). rewrite EA, OA, Hiv. reflexivity.
        * pose proof (@count_refs_in_pos (refs d) (map fst (map (fun n => (n, intrinsic (E n))) ls))
                        IVARG_ROLE l a Hl Hal) as Hpos.
          fold nodeids_d in Hpos. fold (dict_keys nodeids_d) in Hpos.
          rewrite Hkeys in Hpos. specialize (Hpos (proj2 (Hin a) (or_introl eq_refl))).
          unfold dict_keys. fold nodeids_d. fold (dict_keys nodeids_d).
          rewrite Hkeys. lia.
      + rewrite Hnone. unfold ep, dict_getitem in *.
        destruct (dict_get a (_eps g)) as [e|]; [|discriminate]. simpl.
        eexists. split; [reflexivity|]. simpl. split; [reflexivity|].
        split; [|congruence]. intros _. eexists _, _, _. split; [reflexivity|].
        left. rewrite <- EA, (Hod a) by (apply Hin; auto). rewrite EA, OA, Hiv.
        reflexivity.
    - destruct (Hcx n Hn Hna) as (Hiv & Ho). rewrite Hiv, Hnone, Ho.
      pose proof (HE n Hnls) as Hep. unfold ep, dict_getitem in *.
      destruct (dict_get n (_eps g)) as [e|]; [|discriminate]. simpl.
      eexists. split; [reflexivity|]. simpl. split; [reflexivity|].
      split; [congruence|]. intros _. eauto. }
  simpl.
  destruct (Hr2 a Hca) as (ya & Hya & Hfa & Hfst & HkA & _).
  destruct (HkA eq_refl) as (o & i & q & Hsnd & Hoi).
  destruct (@sorted_head (Z * head_key)
              (fun x y => head_key_leb (snd x) (snd y)) ya ranked Hya)
    as (rest & ->).
  { intros y Hy. destruct (Hr1 y Hy) as (n & Hn & Hfn & Hfy & Hka & Hkx).
    destruct (Z.eq_dec n a) as [->|Hna].
    - assert (y = ya) by congruence. subst y. split; [|now left].
      rewrite Hsnd. unfold head_key_leb. rewrite !Z.ltb_irrefl. apply Z.leb_refl.
    - destruct (Hkx Hna) as (q' & Hy'). rewrite Hsnd, Hy'. unfold head_key_leb.
      destruct Hoi as [->|[-> Hi]].
      + split; [reflexivity | right; reflexivity].
      + rewrite !Z.ltb_irrefl.
        assert (H1 : (i <? 0) = true) by (apply Z.ltb_lt; lia).
        assert (H2 : (0 <? i) = false) by (apply Z.ltb_ge; lia).
        rewrite H1, H2. split; [reflexivity | right; reflexivity]. }
  simpl. rewrite Hfst. eauto.
Qed.

End Invariants.

(** ** [Dmrs] with a single link from the top *)

Lemma str_Z_inj (x y : Z) : str_Z x = str_Z y -> x = y.
Proof.
  unfold str_Z. intros H.
  assert (Hn : forall z, Z.to_int z <> Decimal.Pos Decimal.Nil
                         /\ Z.to_int z <> Decimal.Neg Decimal.Nil).
  { intros [|p|p]; simpl; split; try discriminate;
      intros [= Hp]; now apply DecimalPos.Unsigned.to_uint_nonnil in Hp. }
  assert (Hs : Some (Z.to_int x) = Some (Z.to_int y)).
  { rewrite <- (NilZero.isi (Z.to_int x)), <- (NilZero.isi (Z.to_int y));
      try apply Hn. now rewrite H. }
  injection Hs as Hs.
  rewrite <- (DecimalZ.of_to x), <- (DecimalZ.of_to y). now rewrite Hs.
Qed.

Lemma append_inj_l (p s t : string) : (p ++ s = p ++ t)%string -> s = t.
Proof. induction p as [|c p IH]; simpl; [auto|]. intros [= H]. auto. Qed.

Section DmrsFacts.
Context `{cfg : Config} `{tys : Types} `{cmp : !Components}.

(** The handle with the serial number [k]. *)
Definition handle (k : Z) : string := (HANDLESORT ++ str_Z k)%string.

Lemma handle_inj (j k : Z) : handle j = handle k -> j = k.
Proof. unfold handle. intros H. apply append_inj_l in H. now apply str_Z_inj. Qed.

(** The second loop of [_make_labels] when no link is an equality: every
    node that is not seen yet gets the next handle. *)
Lemma labels_loop (nids : list Z) (vgen : VarGenerator) (seen : list Z)
      (labels_d : dict Z string) :
  (forall n, dict_mem n labels_d = mem n seen) ->
  exists vgen' seen' labels_d',
    fold_left (make_labels_nid []) nids (vgen, seen, labels_d)
    = (vgen', seen', labels_d')
    /\ (forall n l, dict_get n labels_d = Some l -> dict_get n labels_d' = Some l)
    /\ (forall n, In n nids -> dict_mem n labels_d' = true)
    /\ (forall n l, dict_get n labels_d' = Some l ->
                    dict_get n labels_d = Some l
                    \/ exists k, vid vgen <= k /\ l = handle k).
Proof.
  revert vgen seen labels_d.
  induction nids as [|nid nids IH]; intros vgen seen labels_d Hinv; simpl.
  - exists vgen, seen, labels_d. split; [reflexivity|].
    repeat split; auto; intros n [].
  - destruct (mem nid seen) eqn:Hm.
    + destruct (IH vgen seen labels_d Hinv) as (v' & s' & l' & -> & H1 & H2 & H3).
      exists v', s', l'. split; [reflexivity|]. repeat split; auto.
      intros n [<-|Hin]; [|auto].
      rewrite <- Hinv in Hm. unfold dict_mem in *.
      destruct (dict_get nid labels_d) as [l|] eqn:Hl; [|discriminate].
      now rewrite (H1 _ _ Hl).
    + unfold set_add. rewrite Hm.
      set (vgen1 := {| vid := vid vgen + 1;
                       store := dict_set (handle (vid vgen)) [] (store vgen) |}).
      destruct (IH vgen1 (seen ++ [nid]) (dict_set nid (handle (vid vgen)) labels_d))
        as (v' & s' & l' & Heq & H1 & H2 & H3).
      { intros n. rewrite dict_mem_set, mem_app_one, Hinv. apply orb_comm. }
      exists v', s', l'. split; [exact Heq|]. repeat split.
      * intros n l Hl. apply H1. rewrite dict_get_set_other; [assumption|].
        intros <-. rewrite <- Hinv in Hm. unfold dict_mem in Hm.
        now rewrite Hl in Hm.
      * intros n [<-|Hin]; [|auto]. unfold dict_mem.
        now rewrite (H1 nid (handle (vid vgen)) (dict_get_set_same _ _ _)).
      * intros n l Hl. destruct (H3 n l Hl) as [Hold|(k & Hk & ->)].
        -- rewrite dict_get_set in Hold. destruct (keqb n nid); [|now left].
           injection Hold as <-. right. exists (vid vgen). split; [lia | reflexivity].
        -- right. exists k. simpl in Hk. split; [lia | reflexivity].
Qed.

Lemma make_ivs_keys (ns : list Node) (ivs0 : dict Z string) (vgen : VarGenerator) :
  (forall n, In n ns -> pred_is_quantifier (node_pred n) = false) ->
  forall k, In k (map node_nodeid ns) \/ dict_mem k ivs0 = true ->
            dict_mem k (fst (fold_left
                               (fun st node =>
                                  let '(ivs, vgen) := st in
                                  if pred_is_quantifier (node_pred node) then st
                                  else
                                    let props :=
                                      map (fun kv => (fst kv, PropStr (snd kv)))
                                          (filter (fun kv => negb (String.eqb (fst kv) CVARSORT))
                                                  (node_sortinfo node)) in
                                    let '(iv, vgen') :=
                                      vgen_new (dict_get CVARSORT (node_sortinfo node))
                                               props vgen in
                                    (dict_set (node_nodeid node) iv ivs, vgen'))
                               ns (ivs0, vgen))) = true.
Proof.
  revert ivs0 vgen. induction ns as [|n ns IH]; intros ivs0 vgen Hq k Hk; simpl.
  - destruct Hk as [[]|Hk]. exact Hk.
  - rewrite (Hq n (or_introl eq_refl)). simpl.
    apply IH; [auto with datatypes|].
    destruct Hk as [[<-|Hk]|Hk]; [right | now left | right].
    + rewrite dict_mem_set. now rewrite keqb_refl.
    + rewrite dict_mem_set, Hk. apply orb_true_r.
Qed.

Lemma make_ivs_all (ns : list Node) (vgen : VarGenerator) :
  (forall n, In n ns -> pred_is_quantifier (node_pred n) = false) ->
  forall k, In k (map node_nodeid ns) -> dict_mem k (fst (_make_ivs ns vgen)) = true.
Proof.
  intros Hq k Hk. unfold _make_ivs. apply make_ivs_keys; [assumption | now left].
Qed.

Lemma dict_mem_map_values {V W : Type} (f : Z * V -> W) (d : dict Z V) (k : Z) :
  dict_mem k (map (fun kv => (fst kv, f kv)) d) = dict_mem k d.
Proof.
  unfold dict_mem. induction d as [|[k' v] d IH]; simpl; [reflexivity|].
  destruct (k =? k'); [reflexivity | exact IH].
Qed.

Lemma args_set_mem (n k : Z) (role val : string) (a : dict Z (dict string string)) :
  dict_mem k (args_set n role val a) = dict_mem k a.
Proof.
  unfold args_set. destruct (dict_get n a) as [d|] eqn:Hd; [|reflexivity].
  rewrite dict_mem_set. destruct (keqb_spec k n) as [->|Hne]; [|reflexivity].
  unfold dict_mem. now rewrite Hd.
Qed.

(** The loop over the nodes, when every node has its label and its
    arguments. *)
Lemma dmrs_nodes_ok (labels_d : dict Z string) (ns : list Node)
      (args_d : dict Z (dict string string)) (acc : list EP) :
  (forall n, In n ns -> dict_mem (node_nodeid n) args_d = true
                        /\ dict_mem (node_nodeid n) labels_d = true) ->
  exists args_d' eps',
    for_each (dmrs_node labels_d) ns (args_d, acc) = Ok (args_d', acc ++ eps')
    /\ map ep_nodeid eps' = map node_nodeid ns
    /\ (forall e, In e eps' -> ep_label e = dict_get (ep_nodeid e) labels_d).
Proof.
  revert args_d acc. induction ns as [|n ns IH]; intros args_d acc H; simpl.
  - exists args_d, []. rewrite app_nil_r. repeat split. intros e [].
  - destruct (H n (or_introl eq_refl)) as (Ha & Hl).
    set (args1 := match node_carg n with
                  | Some carg => args_set (node_nodeid n) CONSTARG_ROLE carg args_d
                  | None => args_d
                  end).
    assert (Hmem : forall k, dict_mem k args1 = dict_mem k args_d).
    { intros k. unfold args1. destruct (node_carg n); [apply args_set_mem | reflexivity]. }
    assert (H1 : match node_carg n with
                 | Some carg =>
                     match dict_get (node_nodeid n) args_d with
                     | Some _ => Ok (args_set (node_nodeid n) CONSTARG_ROLE carg args_d)
                     | None => Raise (KeyError (PyInt (node_nodeid n)))
                     end
                 | None => Ok args_d
                 end = Ok args1).
    { unfold args1. destruct (node_carg n); [|reflexivity].
      unfold dict_mem in Ha. now destruct (dict_get (node_nodeid n) args_d). }
    rewrite H1. simpl. unfold dict_getitem.
    unfold dict_mem in Hl. destruct (dict_get (node_nodeid n) labels_d) as [lbl|] eqn:El;
      [|discriminate]. simpl.
    specialize (Hmem (node_nodeid n)). rewrite Ha in Hmem. unfold dict_mem in Hmem.
    destruct (dict_get (node_nodeid n) args1) as [a|] eqn:Ea; [|discriminate]. simpl.
    destruct (IH args1 (acc ++ [{| ep_nodeid := node_nodeid n; ep_pred := node_pred n;
                                   ep_label := Some lbl; ep_args := a;
                                   ep_lnk := node_lnk n; ep_surface := node_surface n;
                                   ep_base := node_base n |}]))
      as (args' & eps' & -> & Hids & Hlbl).
    { intros m Hm. destruct (H m (or_intror Hm)) as (Ha' & Hl'). split; [|assumption].
      unfold args1. destruct (node_carg n); [now rewrite args_set_mem | assumption]. }
    eexists args', (_ :: eps'). rewrite <- app_assoc. split; [reflexivity|].
    simpl. split; [now rewrite Hids|].
    intros e [<-|He]; [simpl; now rewrite El | auto].
Qed.

(** C2, as the code has it: for a DMRS whose only link goes from the
    reserved top node to a node N1 with the post H (the nodes having pairwise
    distinct ids and none being a quantifier, so that the graph is built),
    the top of the graph is the label minted for the reserved top node, the
    first handle; there is exactly one handle constraint, a qeq from the top
    to the label of N1; and the label of N1 is another handle than the top
    unless N1 carries the reserved id itself. *)
Theorem Dmrs_single_top_link
        (ns : list Node) (n1 : Z) (rargname : option string)
        (lnk0 : option Lnk) (surface0 identifier0 : option string) :
  H_POST <> EQ_POST ->
  NoDup (map node_nodeid ns) ->
  In n1 (map node_nodeid ns) ->
  (forall n, In n ns -> pred_is_quantifier (node_pred n) = false) ->
  exists g l1,
    Dmrs ns [mkLink LTOP_NODEID n1 rargname (Some H_POST)]
         lnk0 surface0 identifier0 = Ok g
    /\ top g = Some (handle 0)
    /\ label n1 g = Ok (Some l1)
    /\ hcons g = [qeq (handle 0) l1]
    /\ (n1 <> LTOP_NODEID -> l1 <> handle 0).
Proof.
  intros Hpost Hnd Hn1 Hq.
  assert (Hne : String.eqb H_POST EQ_POST = false) by now apply String.eqb_neq.
  (* the labels *)
  destruct (@labels_loop (map node_nodeid ns)
              {| vid := 0 + 1; store := dict_set (handle 0) [] [] |}
              [LTOP_NODEID] [(LTOP_NODEID, handle 0)])
    as (vgenL & seenL & labels_d & HL & L1 & L2 & L3).
  { intros n. unfold dict_mem, mem. simpl. now destruct (n =? LTOP_NODEID). }
  assert (Hlabels : _make_labels ns [mkLink LTOP_NODEID n1 rargname (Some H_POST)]
                                 new_VarGenerator = (labels_d, vgenL)).
  { unfold _make_labels. simpl. rewrite Z.eqb_refl, Hne. simpl.
    exact (f_equal (fun st : VarGenerator * list Z * dict Z string =>
                      let '(vgen2, _, labels_d0) := st in (labels_d0, vgen2)) HL). }
  assert (Htop : dict_get LTOP_NODEID labels_d = Some (handle 0)).
  { apply L1. simpl. now rewrite Z.eqb_refl. }
  assert (Hl1 : exists l1, dict_get n1 labels_d = Some l1).
  { specialize (L2 n1 Hn1). unfold dict_mem in L2.
    destruct (dict_get n1 labels_d); [eauto | discriminate]. }
  destruct Hl1 as (l1 & Hl1).
  unfold Dmrs. rewrite Hlabels.
  (* the intrinsic variables *)
  pose proof (@make_ivs_all ns vgenL Hq) as Hivs.
  destruct (_make_ivs ns vgenL) as [ivs vgenI]. simpl in Hivs.
  set (args0 := map (fun kv => (fst kv, [(IVARG_ROLE, snd kv)])) ivs).
  assert (Hargs0 : forall n, In n (map node_nodeid ns) -> dict_mem n args0 = true).
  { intros n Hn. unfold args0.
    rewrite (dict_mem_map_values (fun kv => [(IVARG_ROLE, snd kv)])). auto. }
  (* the link *)
  simpl. unfold dmrs_link at 1. simpl. rewrite Z.eqb_refl. unfold dict_getitem.
  rewrite Htop. simpl. rewrite String.eqb_refl. simpl. rewrite Hl1. simpl.
  match goal with
  | |- context [for_each (dmrs_node labels_d) ns (?a, [])] => set (args1 := a)
  end.
  assert (Hargs1 : forall n, In n (map node_nodeid ns) -> dict_mem n args1 = true).
  { intros n Hn. unfold args1.
    match goal with |- context [if ?c then _ else _] => destruct c end; [auto|].
    rewrite dict_mem_set. apply orb_true_iff. right. now apply Hargs0. }
  (* the nodes *)
  destruct (@dmrs_nodes_ok labels_d ns args1 []) as (args' & eps' & -> & Hids & Hlbl).
  { intros n Hn. split; [apply Hargs1 | apply L2]; now apply in_map. }
  simpl.
  destruct (proj2 (Xmrs_init_Ok_iff (Some (handle 0)) None None eps'
                     [qeq (handle 0) l1] [] (store vgenI)
                     lnk0 surface0 identifier0)) as (g & Hg).
  { rewrite Hids. split; [assumption | repeat constructor; intros []]. }
  exists g, l1. split; [exact Hg|].
  apply Xmrs_init_built in Hg as B.
  split; [exact (built_top B)|]. split; [|split].
  - unfold label, ep, dict_getitem. rewrite (built_eps B).
    rewrite <- Hids in Hn1. apply in_map_iff in Hn1 as (e & <- & He).
    rewrite (dict_get_pairs ep_nodeid); [|eapply built_NoDup_eps; eassumption | assumption].
    simpl. rewrite (Hlbl e He). now rewrite Hl1.
  - exact (built_hcons_list B).
  - intros Hn1' ->. destruct (L3 n1 (handle 0) Hl1) as [Hold|(k & Hk & Heq)].
    + simpl in Hold. destruct (Z.eqb_spec n1 LTOP_NODEID); [contradiction | discriminate].
    + apply handle_inj in Heq. simpl in Hk. lia.
Qed.

End DmrsFacts.

(** ** Export and import of an MRS *)

Section RoundTrip.
Context `{cfg : Config} `{tys : Types} `{cmp : !Components}.

(** [Mrs.from_dict(g.to_dict())] *)
Definition round_trip (g : Xmrs) : result Xmrs :=
  d <- to_dict true true g ;; from_dict d.

(** An EP at position [i] that the import gives back as it is: its node id
    is the one that [Mrs] assigns to the record at that position, it has no
    surface or base form (the export has none), and its predicate and lnk
    are the ones read back from their exported forms. *)
Definition ep_restorable (i : nat) (e : EP) : Prop :=
  ep_nodeid e = FIRST_NODEID + Z.of_nat i
  /\ ep_surface e = None /\ ep_base e = None
  /\ string_or_grammar_pred (short_form (ep_pred e)) = ep_pred e
  /\ (forall l, ep_lnk e = Some l -> charspan (lnk_cfrom l) (lnk_cto l) = l).

Lemma Xmrs_init_no_icons (top0 index0 xarg0 : option string) (eps0 : list EP)
      (hcons0 : list HandleConstraint)
      (vars : dict string (list (string * propval)))
      (lnk0 : option Lnk) (surface0 identifier0 : option string) (g : Xmrs) :
  Xmrs_init top0 index0 xarg0 eps0 hcons0 [] vars lnk0 surface0 identifier0 = Ok g ->
  _icons g = [].
Proof.
  unfold Xmrs_init.
  destruct (add_eps eps0 _) as [g1|] eqn:H1; simpl; [|discriminate].
  destruct (add_hcons hcons0 g1) as [g2|] eqn:H2; simpl; [|discriminate].
  intros [= <-]. simpl.
  destruct (add_eps_fields _ _ H1) as (_ & _ & _ & A & _).
  destruct (add_hcons_fields _ _ H2) as (_ & _ & _ & B & _).
  now rewrite B, A.
Qed.

Lemma next_nodeid_imported (rds : list RelDict) :
  next_nodeid (map from_dict_ep rds) = FIRST_NODEID.
Proof.
  unfold next_nodeid. generalize FIRST_NODEID.
  induction rds as [|rd rds IH]; intros z; simpl; auto.
Qed.

Lemma assign_from_restores (next i : Z) (es : list EP) :
  (forall k e, nth_error es k = Some e ->
               ep_nodeid e = next + (i + Z.of_nat k)
               /\ ep_surface e = None /\ ep_base e = None
               /\ string_or_grammar_pred (short_form (ep_pred e)) = ep_pred e
               /\ (forall l, ep_lnk e = Some l ->
                             charspan (lnk_cfrom l) (lnk_cto l) = l)) ->
  assign_from next i (map from_dict_ep (map (to_dict_ep true) es)) = es.
Proof.
  revert i. induction es as [|e es IH]; intros i H; simpl; [reflexivity|].
  destruct (H O e eq_refl) as (Hid & Hs & Hb & Hp & Hl).
  rewrite IH.
  - f_equal. destruct e as [n p l a k sf b]. simpl in *. unfold with_nodeid. simpl.
    subst sf b. rewrite Hp. replace (next + i) with n by lia.
    f_equal. destruct k as [k|]; simpl; [|reflexivity]. f_equal. now apply Hl.
  - intros k e' Hk. destruct (H (S k) e' Hk) as (Hid' & Hrest).
    split; [lia | exact Hrest].
Qed.

Lemma hcons_imported (hs : list HandleConstraint) :
  map_result high_relation_low
    (filter (dict_mem "high") (map to_dict_hcons hs ++ map to_dict_icons []))
  = Ok (map hc_tuple hs)
  /\ filter (dict_mem "left") (map to_dict_hcons hs ++ map to_dict_icons []) = [].
Proof.
  simpl. rewrite app_nil_r. induction hs as [|h hs [IH1 IH2]]; simpl; [auto|].
  rewrite IH1, IH2. auto.
Qed.

Lemma hc_of_tuple (hs : list HandleConstraint) :
  map (fun t => mkHC (fst (fst t)) (snd (fst t)) (snd t)) (map hc_tuple hs) = hs.
Proof.
  induction hs as [|[hi r lo] hs IH]; simpl; [reflexivity|]. now rewrite IH.
Qed.

(** C1, as the code has it: a graph built by [Mrs] without xarg and
    without ICONS, whose EPs are restorable and whose variables all have a
    sort, is exported and imported again without error, and the graph that
    comes back is equal to it. *)
Theorem Mrs_round_trip
        (top0 index0 : option string) (rels : list Rel)
        (hcons0 : list HandleConstraint)
        (lnk0 : option Lnk) (surface0 identifier0 : option string)
        (vars : dict string (list (string * propval))) (g : Xmrs) :
  (forall e, ep_ne e e = false) ->
  Mrs top0 index0 None rels hcons0 [] lnk0 surface0 identifier0 vars = Ok g ->
  (forall i e, nth_error (assign_nodeids rels) i = Some e -> ep_restorable i e) ->
  (forall v, In (Some v) (variables g) -> exists s, var_sort v = Ok s) ->
  exists d g',
    to_dict true true g = Ok d /\ from_dict d = Ok g' /\ Xmrs_eq g' g = Ok true.
Proof.
  intros Hne Hg Hres Hsort. unfold Mrs in Hg.
  pose proof (Xmrs_init_no_icons _ _ _ _ _ _ _ _ _ Hg) as Hic.
  apply Xmrs_init_built in Hg as B.
  set (es := assign_nodeids rels) in *.
  pose proof (built_eps_list B) as Heps.
  pose proof (built_hcons_list B) as Hhc.
  destruct (built_consistent B) as (_ & _ & Hnone).
  (* the export *)
  destruct (@map_result_Ok _ _ (to_dict_var true g) (variables g)) as (vs & Hvs).
  { intros [name|] Hk.
    - destruct (Hsort name Hk) as (ty & Hty). unfold to_dict_var. rewrite Hty. simpl.
      unfold properties.
      assert (Hm : dict_mem (Some name) (_vars g) = true) by now apply dict_mem_keys.
      unfold dict_mem in Hm. destruct (dict_get (Some name) (_vars g)); [|discriminate].
      simpl. eauto.
    - apply dict_mem_keys in Hk. unfold dict_mem in Hk. now rewrite Hnone in Hk. }
  set (d := {| d_relations := map (to_dict_ep true) es;
               d_constraints := map to_dict_hcons (hcons g)
                                ++ map to_dict_icons (icons g);
               d_variables := vs;
               d_top := top g; d_index := index g; d_xarg := None;
               d_lnk := None; d_surface := None; d_identifier := None |}).
  assert (Hd : to_dict true true g = Ok d).
  { unfold to_dict. rewrite Heps, Hvs. reflexivity. }
  (* the import *)
  set (vars' := map (fun vd : string * VarDict =>
                       (fst vd,
                        match vd_properties (snd vd) with
                        | Some ps => [("properties", PropDict ps)]
                        | None => []
                        end)) vs).
  assert (Hfrom : from_dict d
                  = Xmrs_init top0 index0 None es hcons0 [] vars' None None None).
  { unfold from_dict, d. simpl. unfold icons. rewrite Hic, Hhc. simpl.
    destruct (hcons_imported hcons0) as (Hh & Hl). simpl in Hh, Hl.
    rewrite Hh, Hl. simpl. rewrite hc_of_tuple.
    unfold Mrs, assign_nodeids. rewrite next_nodeid_imported.
    rewrite assign_from_restores.
    - now rewrite (built_top B), (built_index B).
    - intros k e Hk. apply (Hres k e Hk). }
  destruct (proj2 (Xmrs_init_Ok_iff top0 index0 None es hcons0 [] vars'
                     None None None)) as (g' & Hg').
  { split; [eapply built_NoDup_eps | eapply built_NoDup_hcons]; eassumption. }
  exists d, g'. split; [exact Hd|]. split; [now rewrite Hfrom|].
  pose proof (Xmrs_init_no_icons _ _ _ _ _ _ _ _ _ Hg') as Hic'.
  apply Xmrs_init_built in Hg' as B'.
  (* the comparison *)
  unfold Xmrs_eq.
  rewrite (built_top B), (built_index B), (built_xarg B),
    (built_top B'), (built_index B'), (built_xarg B'), !keqb_refl. simpl.
  rewrite (built_eps_list B'), Heps. simpl.
  rewrite (differ_refl _ _ Hne).
  rewrite (built_hcons_list B'), Hhc, (differ_refl _ _ str3_ne_refl).
  unfold icons. rewrite Hic, Hic'. reflexivity.
Qed.

End RoundTrip.

(** ** The properties on concrete inputs *)

Ltac nodup := repeat constructor; simpl; intuition (try discriminate; try lia).

Lemma ep_tuple_eqb_refl (e : EP) : ep_tuple_eqb e e = true.
Proof.
  assert (Ho : forall o : option string, option_eqb String.eqb o o = true).
  { intros [x|]; simpl; [apply String.eqb_refl | reflexivity]. }
  unfold ep_tuple_eqb. rewrite Z.eqb_refl, String.eqb_refl, !Ho. simpl.
  assert (Hd : dict_eqb (ep_args e) (ep_args e) = true).
  { unfold dict_eqb. apply forallb_forall. intros k _. apply Ho. }
  rewrite Hd. simpl.
  destruct (ep_lnk e) as [[a b]|]; simpl; [|reflexivity].
  unfold pair_eqb. simpl. now rewrite !Z.eqb_refl.
Qed.

(** C3 read literally fails: after the supplied id 10005 the record
    without an id, at position 1, gets 10007 and not 10006. *)
Lemma Mrs_nodeids_not_next_to_max :
  map ep_nodeid (assign_nodeids [rel (Some 10005) "_a_rel" "h1" [];
                                 rel None "_b_rel" "h2" []])
    = [10005; 10007]
  /\ 10007 <> 10005 + 1.
Proof. split; [reflexivity | lia]. Qed.

(** The ids given are not consecutive when a supplied id stands between. *)
Lemma Mrs_nodeids_not_consecutive :
  map ep_nodeid (assign_nodeids [rel None "_a_rel" "h1" [];
                                 rel (Some 20000) "_b_rel" "h2" [];
                                 rel None "_c_rel" "h3" []])
    = [20001; 20000; 20003].
Proof. reflexivity. Qed.

(** The same EP twice: the second one finds its node id in the graph. *)
Lemma add_eps_same_node_id_twice :
  add_eps [unlabelled_ep; unlabelled_ep] (empty_Xmrs None None None)
  = Raise (XmrsError "EP already exists in Xmrs: 10000 (_rain_v_1_rel)")
  /\ add_hcons [qeq "h0" "h1"; qeq "h0" "h2"] (empty_Xmrs None None None)
     = Raise (XmrsError "Handle constraint already exists for hole h0.").
Proof. split; reflexivity. Qed.

Lemma empty_graph_not_connected_witness :
  _nodeids (empty_Xmrs None None None) = []
  /\ fst (is_connected (empty_Xmrs None None None))
     = Raise (XmrsError "Cannot compute connectedness of an empty Xmrs.")
  /\ fst (validate (empty_Xmrs None None None))
     = Raise (XmrsError "Cannot compute connectedness of an empty Xmrs.")
  /\ fst (is_well_formed (empty_Xmrs None None None)) = Ok false.
Proof.
  split; [reflexivity|].
  apply (empty_graph_not_connected (empty_Xmrs None None None)). reflexivity.
Defined.

(** C8 read literally fails: [labelset] of a label that is not in the
    table of the empty graph returns the empty list, and leaves an entry for
    the label. *)
Lemma labelset_of_unknown_label_returns :
  labelset (Some "h1") (empty_Xmrs None None None)
  = ([], with_vars (empty_Xmrs None None None)
                   [(Some "h1", {| props := []; refs := [("LBL", [])];
                                   hcrefs := None; icrefs := None |})]).
Proof. reflexivity. Qed.

Lemma lookups_of_unknown_variable_witness :
  dict_get (Some "h1") (_vars (empty_Xmrs None None None)) = None
  /\ labelset_heads (Some "h1") (empty_Xmrs None None None)
     = (Ok [], with_vars (empty_Xmrs None None None)
                         (dict_set (Some "h1") fresh_label_entry [])).
Proof.
  split; [reflexivity|].
  apply (lookups_of_unknown_variable (empty_Xmrs None None None) (Some "h1")).
  reflexivity.
Defined.

(** Two graphs of the same parts, with different properties and surface. *)
Definition rain_graph (ps : list (string * propval)) (s : option string)
  : result Xmrs :=
  Mrs (Some "h0") (Some "e2") None
      [rel None "_rain_v_1_rel" "h1" [("ARG0", "e2")]]
      [qeq "h0" "h1"] [] None s None [("e2", ps)].

Lemma Xmrs_eq_ignores_metadata_witness :
  (forall e, ep_ne e e = false)
  /\ match rain_graph [("TENSE", PropStr "present")] (Some "It rains."),
           rain_graph [] None with
     | Ok g, Ok h => Xmrs_eq g h = Ok true
     | _, _ => False
     end.
Proof.
  assert (Hne : forall e, ep_ne e e = false).
  { intros e. simpl. now rewrite ep_tuple_eqb_refl. }
  split; [exact Hne|].
  destruct (rain_graph [("TENSE", PropStr "present")] (Some "It rains."))
    as [g|] eqn:Eg; [|discriminate].
  destruct (rain_graph [] None) as [h|] eqn:Eh; [|discriminate].
  injection Eg as <-. injection Eh as <-.
  eapply (proj2 (Xmrs_eq_ignores_metadata Hne)).
  - repeat split.
  - reflexivity.
Defined.

Lemma Rmrs_with_eps_raises_witness :
  exists msg,
    Rmrs (Some "h0") (Some "e2") None [rain_rel] rain_args [qeq "h0" "h1"] []
         None None None [("e2", [("TENSE", PropStr "present")])]
    = Raise (AttributeError msg).
Proof.
  apply Rmrs_with_eps_raises.
  - discriminate.
  - repeat constructor. discriminate.
  - exact I.
Defined.

(** The call of the docstring of [Rmrs] stops at the first key of [args]. *)
Lemma Rmrs_docstring_example :
  Rmrs (Some "h0") (Some "e2") None [rain_rel] rain_args [qeq "h0" "h1"] []
       None None None [("e2", [("TENSE", PropStr "present")])]
  = Raise (AttributeError "'int' object has no attribute 'nodeid'").
Proof. reflexivity. Qed.


Lemma validate_collects_all_problems_witness :
  match Xmrs_init (Some "h0") (Some "e2") None [unlabelled_ep] [qeq "h0" "h1"]
                  [] [] None None None with
  | Ok g =>
      exists errors,
        fst (validate g) = Raise (XmrsError (String.concat newline errors))
        /\ In (missing_label_msg 10000) errors
        /\ In (dangling_hcons_msg (qeq "h0" "h1")) errors
  | Raise _ => False
  end.
Proof.
  destruct (Xmrs_init (Some "h0") (Some "e2") None [unlabelled_ep] [qeq "h0" "h1"]
                      [] [] None None None) as [g|x] eqn:Hg;
    [|vm_compute in Hg; discriminate].
  eapply validate_collects_all_problems
    with (e := unlabelled_ep) (hc := qeq "h0" "h1").
  - exact Hg.
  - now left.
  - reflexivity.
  - now left.
  - intros e' [<-|[]]. discriminate.
Defined.

Lemma labelset_heads_ranks_A_first_witness :
  match Xmrs_init None None None [ep_C; ep_B; ep_A] [] [] [] None None None with
  | Ok g => exists rest, fst (labelset_heads (Some "h1") g) = Ok (1 :: rest)
  | Raise _ => False
  end.
Proof.
  destruct (Xmrs_init None None None [ep_C; ep_B; ep_A] [] [] [] None None None)
    as [g|x] eqn:Hg; [|vm_compute in Hg; discriminate].
  assert (Eg : Ok g = Ok g) by reflexivity.
  rewrite <- Hg in Eg at 1. vm_compute in Eg. injection Eg as Eg.
  eapply labelset_heads_ranks_A_first
    with (a := 1) (b := 2) (c := 3) (epA := ep_A) (epB := ep_B) (epC := ep_C).
  - exact Hg.
  - rewrite <- Eg. simpl. apply perm_trans with [2; 3; 1].
    + apply perm_swap.
    + apply Permutation_sym, (Permutation_cons_append [2; 3] 1).
  - nodup.
  - now rewrite <- Eg.
  - now rewrite <- Eg.
  - now rewrite <- Eg.
  - nodup.
  - nodup.
  - nodup.
  - intros iv [= <-]. rewrite <- Eg. exists [1]. split; [reflexivity | now left].
  - reflexivity.
  - reflexivity.
  - reflexivity.
Defined.

(** C6 read literally fails: A, B and C share the label h1; B has one
    argument to the intrinsic variable of A and C one to that of B, and A has
    none.  The intrinsic variable "x" of A has not the form of a variable and
    the graph does not know it, so A counts no incoming argument, and the
    quantifier C, which has no intrinsic variable, comes first. *)
Definition ep_A_const : EP :=
  mkEP 1 "_a_rel" (Some "h1") [("ARG0", "x")] None None None.

Definition ep_B_const : EP :=
  mkEP 2 "_b_rel" (Some "h1") [("ARG0", "e2"); ("ARG1", "x")] None None None.

Definition ep_Q : EP :=
  mkEP 3 "_the_q_rel" (Some "h1") [("ARG1", "e2")] None None None.

Lemma labelset_heads_ranks_quantifier_first :
  match Xmrs_init None None None [ep_A_const; ep_B_const; ep_Q] [] [] []
                  None None None with
  | Ok g =>
      fst (labelset (Some "h1") g) = [1; 2; 3]
      /\ intrinsic ep_A_const = Some "x"
      /\ In ("ARG1", "x") (ep_args ep_B_const)
      /\ outgoing (intrinsic_variables [ep_A_const; ep_B_const; ep_Q]) ep_A_const = 0%nat
      /\ outgoing (intrinsic_variables [ep_A_const; ep_B_const; ep_Q]) ep_B_const = 1%nat
      /\ outgoing (intrinsic_variables [ep_A_const; ep_B_const; ep_Q]) ep_Q = 1%nat
      /\ fst (labelset_heads (Some "h1") g) = Ok [3; 1]
  | Raise _ => False
  end.
Proof.
  destruct (Xmrs_init None None None [ep_A_const; ep_B_const; ep_Q] [] [] []
                      None None None) as [g|x] eqn:Hg;
    vm_compute in Hg; [|discriminate].
  injection Hg as <-.
  split; [reflexivity|]. split; [reflexivity|]. split; [right; now left|].
  split; [reflexivity|]. split; [reflexivity|]. split; reflexivity.
Qed.

(** When the same variable "x" is a key of [vars], the graph knows it when
    A is added: [nodeids] of "x" lists A, and A comes first. *)
Lemma labelset_heads_variable_known_through_vars :
  match Xmrs_init None None None [ep_A_const; ep_B_const; ep_Q] [] []
                  [("x", [])] None None None with
  | Ok g =>
      nodeids (Some [Some "x"]) None g = Ok [1]
      /\ fst (labelset_heads (Some "h1") g) = Ok [1; 3]
  | Raise _ => False
  end.
Proof.
  destruct (Xmrs_init None None None [ep_A_const; ep_B_const; ep_Q] [] []
                      [("x", [])] None None None) as [g|x] eqn:Hg;
    vm_compute in Hg; [|discriminate].
  injection Hg as <-. split; reflexivity.
Qed.

(** On a graph that is not as [Xmrs] built it the ranking can fail: with a
    fourth EP that has no label, [is_well_formed] leaves an entry for [None]
    in the table of variables, and [labelset_heads] then raises at C, which
    has no intrinsic variable. *)
Definition ep_unlabelled_4 : EP :=
  mkEP 4 "_d_rel" None [("ARG0", "e4")] None None None.

Lemma labelset_heads_after_is_well_formed :
  match Xmrs_init None None None [ep_A; ep_B; ep_Q; ep_unlabelled_4] [] [] []
                  None None None with
  | Ok g =>
      fst (labelset_heads (Some "h1") g) = Ok [1; 3]
      /\ fst (labelset_heads (Some "h1") (snd (is_well_formed g)))
         = Raise (KeyError PyNone)
  | Raise _ => False
  end.
Proof.
  destruct (Xmrs_init None None None [ep_A; ep_B; ep_Q; ep_unlabelled_4] [] [] []
                      None None None) as [g|x] eqn:Hg;
    vm_compute in Hg; [|discriminate].
  injection Hg as <-. split; reflexivity.
Qed.

(** C2 read literally fails: on the example of the docstring of [Dmrs] the
    top is h0, the label of the node is h1, and the constraint is a qeq from
    h0 to h1. *)
Lemma Dmrs_top_is_not_the_label_of_N1 :
  match Dmrs [rain_node] [ltop_link] None None None with
  | Ok g =>
      top g = Some "h0" /\ label 10000 g = Ok (Some "h1")
      /\ hcons g = [qeq "h0" "h1"]
  | Raise _ => False
  end.
Proof. vm_compute. repeat split. Qed.

(** A quantifier node from which no link starts has no entry in [args]. *)
Lemma Dmrs_quantifier_without_link :
  Dmrs [{| node_nodeid := 10000; node_pred := "_the_q_rel"; node_sortinfo := [];
           node_lnk := None; node_surface := None; node_base := None;
           node_carg := None |}] [ltop_link] None None None
  = Raise (KeyError (PyInt 10000)).
Proof. reflexivity. Qed.

Lemma Dmrs_single_top_link_witness :
  exists g l1,
    Dmrs [rain_node] [mkLink LTOP_NODEID 10000 None (Some H_POST)] None None None = Ok g
    /\ top g = Some (handle 0)
    /\ label 10000 g = Ok (Some l1)
    /\ hcons g = [qeq (handle 0) l1]
    /\ (10000 <> LTOP_NODEID -> l1 <> handle 0).
Proof.
  apply Dmrs_single_top_link.
  - discriminate.
  - nodup.
  - now left.
  - intros n [<-|[]]. reflexivity.
Defined.

(** C1 read literally fails: the export has no xarg, so a graph with an
    xarg comes back without it and is not equal to the original. *)
Lemma Mrs_round_trip_loses_xarg :
  match Mrs None None (Some "x1") [] [] [] None None None [] with
  | Ok g =>
      match round_trip g with
      | Ok g' => xarg g = Some "x1" /\ xarg g' = None /\ Xmrs_eq g' g = Ok false
      | Raise _ => False
      end
  | Raise _ => False
  end.
Proof. vm_compute. repeat split. Qed.

(** The import reads the keys high and low of an individual constraint too,
    which has the keys left and right. *)
Lemma Mrs_round_trip_with_icons :
  match Mrs None None None [] [] [mkIC "x1" "topic" "x2"] None None None [] with
  | Ok g => round_trip g = Raise (KeyError (PyStr "high"))
  | Raise _ => False
  end.
Proof. vm_compute. reflexivity. Qed.

(** With the tuples compared field by field, an EP with a node id of its
    own, or with a surface form, does not come back equal. *)
Lemma Mrs_round_trip_renumbers :
  match Mrs None None None [rel (Some 5) "_rain_v_1_rel" "h1" [("ARG0", "e2")]]
            [] [] None None None [] with
  | Ok g =>
      match round_trip g with
      | Ok g' => _nodeids g = [5] /\ _nodeids g' = [10000]
                 /\ Xmrs_eq g' g = Ok false
      | Raise _ => False
      end
  | Raise _ => False
  end.
Proof. vm_compute. repeat split. Qed.

Lemma Mrs_round_trip_witness :
  match rain_graph [("TENSE", PropStr "present")] None with
  | Ok g =>
      exists d g',
        to_dict true true g = Ok d /\ from_dict d = Ok g' /\ Xmrs_eq g' g = Ok true
  | Raise _ => False
  end.
Proof.
  unfold rain_graph.
  destruct (Mrs (Some "h0") (Some "e2") None
                [rel None "_rain_v_1_rel" "h1" [("ARG0", "e2")]]
                [qeq "h0" "h1"] [] None None None
                [("e2", [("TENSE", PropStr "present")])]) as [g|x] eqn:Hg;
    [|vm_compute in Hg; discriminate].
  assert (Eg : Ok g = Ok g) by reflexivity.
  rewrite <- Hg in Eg at 1. vm_compute in Eg. injection Eg as Eg.
  eapply Mrs_round_trip.
  - intros e. simpl. now rewrite ep_tuple_eqb_refl.
  - exact Hg.
  - intros [|[|i]] e; simpl; try discriminate. intros [= <-].
    repeat split. intros l [=].
  - rewrite <- Eg. simpl.
    intros v [[= <-]|[[= <-]|[[= <-]|[]]]]; eexists; reflexivity.
Defined.

(** * Further properties of the graph

    What the constructor accepts, and what the accessors return on the graph
    that it builds. *)

Lemma for_each_Raise_in {S A : Type} (f : S -> A -> result S) (xs : list A)
      (st : S) (x : exn) :
  for_each f xs st = Raise x -> exists st1 a, In a xs /\ f st1 a = Raise x.
Proof.
  revert st. induction xs as [|a xs IH]; intros st; simpl; [discriminate|].
  destruct (f st a) as [st'|e] eqn:E; simpl.
  - intros H. destruct (IH _ H) as (st1 & b & Hin & Hb). eauto.
  - intros [= <-]. eauto.
Qed.

Section Construction.
Context `{cfg : Config} `{tys : Types} `{cmp : !Components}.

(** X1: the constructor [Xmrs] fails only with an [XmrsError], and
    exactly when two EPs have the same node id or two handle constraints the
    same high handle; individual constraints and variable properties never
    make it fail. *)
Theorem Xmrs_init_fails_only_on_duplicates
        (top0 index0 xarg0 : option string) (eps0 : list EP)
        (hcons0 : list HandleConstraint) (icons0 : list IndividualConstraint)
        (vars : dict string (list (string * propval)))
        (lnk0 : option Lnk) (surface0 identifier0 : option string) :
  match Xmrs_init top0 index0 xarg0 eps0 hcons0 icons0 vars
                  lnk0 surface0 identifier0 with
  | Ok _ => NoDup (map ep_nodeid eps0) /\ NoDup (map hc_hi hcons0)
  | Raise x => (exists msg, x = XmrsError msg)
               /\ ~ (NoDup (map ep_nodeid eps0) /\ NoDup (map hc_hi hcons0))
  end.
Proof.
  destruct (Xmrs_init top0 index0 xarg0 eps0 hcons0 icons0 vars
                      lnk0 surface0 identifier0) as [g|x] eqn:E.
  - apply (proj1 (Xmrs_init_Ok_iff top0 index0 xarg0 eps0 hcons0 icons0 vars
                                   lnk0 surface0 identifier0)). eauto.
  - split.
    + unfold Xmrs_init in E.
      destruct (add_eps eps0 _) as [g1|x1] eqn:E1; simpl in E.
      * destruct (add_hcons hcons0 g1) as [g2|x2] eqn:E2; simpl in E.
        -- destruct (add_icons_spec icons0 g2) as (g3 & Hg3 & _).
           rewrite Hg3 in E. discriminate.
        -- injection E as <-. apply for_each_Raise_in in E2 as (st & hc & _ & H).
           apply add_hc_Raise in H as (_ & ->). eauto.
      * injection E as <-. apply for_each_Raise_in in E1 as (st & e & _ & H).
        apply add_ep_Raise in H as (_ & ->). eauto.
    + intros H.
      apply (Xmrs_init_Ok_iff top0 index0 xarg0 eps0 hcons0 icons0 vars
                              lnk0 surface0 identifier0) in H as (g & Hg).
      congruence.
Qed.

End Construction.

Lemma dict_get_pairs_absent {A : Type} (key : A -> Z) (l : list A) (k : Z) :
  ~ In k (map key l) -> dict_get k (map (fun x => (key x, x)) l) = None.
Proof.
  induction l as [|x l IH]; simpl; [reflexivity|]. intros Hn.
  destruct (Z.eqb_spec k (key x)) as [->|Hne]; [exfalso; auto|].
  apply IH. tauto.
Qed.

Lemma map_result_map_lookup {A B : Type} (key : A -> Z) (d : dict Z A)
      (f : A -> B) (l : list A) :
  (forall a, In a l -> dict_get (key a) d = Some a) ->
  map_result (fun n => e <- dict_getitem PyInt n d ;; Ok (f e)) (map key l)
  = Ok (map f l).
Proof.
  induction l as [|x l IH]; intros H; simpl; [reflexivity|].
  unfold dict_getitem at 1. rewrite (H x (or_introl eq_refl)). simpl.
  rewrite IH; [reflexivity|]. auto with datatypes.
Qed.

Section Lookups.
Context `{cfg : Config} `{tys : Types} `{cmp : !Components}.

(** X2: on the graph that [Xmrs] builds, [nodeids], [eps], [preds] and
    [labels] list what the EPs given have, in their order; [ep], [pred],
    [label] and [args] of the node id of an EP return its parts, the node id
    is in the graph, and a node id of no EP is not and makes [ep] raise a
    [KeyError]. *)
Theorem built_graph_keeps_its_EPs
        (top0 index0 xarg0 : option string) (eps0 : list EP)
        (hcons0 : list HandleConstraint) (icons0 : list IndividualConstraint)
        (vars : dict string (list (string * propval)))
        (lnk0 : option Lnk) (surface0 identifier0 : option string) (g : Xmrs) :
  Xmrs_init top0 index0 xarg0 eps0 hcons0 icons0 vars lnk0 surface0 identifier0 = Ok g ->
  nodeids None None g = Ok (map ep_nodeid eps0)
  /\ eps None g = Ok eps0
  /\ preds None g = Ok (map ep_pred eps0)
  /\ labels g = Ok (map ep_label eps0)
  /\ (forall e, In e eps0 ->
                ep (ep_nodeid e) g = Ok e
                /\ pred (ep_nodeid e) g = Ok (ep_pred e)
                /\ label (ep_nodeid e) g = Ok (ep_label e)
                /\ args (ep_nodeid e) g = Ok (ep_args e)
                /\ contains (PyInt (ep_nodeid e)) g = true)
  /\ (forall n, ~ In n (map ep_nodeid eps0) ->
                ep n g = Raise (KeyError (PyInt n))
                /\ contains (PyInt n) g = false).
Proof.
  intros Hg. apply Xmrs_init_built in Hg as B.
  assert (Hget : forall e, In e eps0 -> dict_get (ep_nodeid e) (_eps g) = Some e).
  { intros e Hin. rewrite (built_eps B).
    apply (dict_get_pairs ep_nodeid); [eapply built_NoDup_eps; eassumption | assumption]. }
  split; [unfold nodeids; simpl; now rewrite (built_nodeids B)|].
  split; [eapply built_eps_list; eassumption|].
  split; [unfold preds; rewrite (built_nodeids B); now apply map_result_map_lookup|].
  split.
  { unfold labels, label, ep. rewrite (built_nodeids B).
    now apply map_result_map_lookup. }
  split.
  - intros e Hin. unfold pred, label, args, ep, contains, dict_mem, dict_getitem.
    rewrite (Hget e Hin). simpl. repeat split.
  - intros n Hn. unfold ep, contains, dict_mem, dict_getitem.
    rewrite (built_eps B), (dict_get_pairs_absent ep_nodeid eps0 n Hn). auto.
Qed.

End Lookups.

Lemma dict_get_keyed {K A : Type} `{EqKey K} (key : A -> K) (l : list A) (a : A) :
  NoDup (map key l) -> In a l ->
  dict_get (key a) (map (fun x => (key x, x)) l) = Some a.
Proof.
  induction l as [|x l IH]; simpl; [tauto|].
  intros Hnd [->|Hin].
  - now rewrite keqb_refl.
  - inversion Hnd as [|? ? Hnotin Hnd']; subst.
    destruct (keqb_spec (key a) (key x)) as [Heq|Hne].
    + exfalso. apply Hnotin. rewrite <- Heq. now apply in_map.
    + auto.
Qed.

Lemma dict_get_keyed_absent {K A : Type} `{EqKey K} (key : A -> K) (l : list A)
      (k : K) :
  ~ In k (map key l) -> dict_get k (map (fun x => (key x, x)) l) = None.
Proof.
  induction l as [|x l IH]; simpl; [reflexivity|]. intros Hn.
  destruct (keqb_spec k (key x)) as [->|Hne]; [exfalso; auto|].
  apply IH. tauto.
Qed.

(** [d[k].append(x)] in the values of a dict, read in the order of the
    keys. *)
Lemma concat_values_set {K A : Type} `{EqKey K} (k : K) (x : A)
      (d : dict K (list A)) :
  Permutation
    (List.concat (dict_values
                    (dict_set k (match dict_get k d with
                                 | Some l => l ++ [x]
                                 | None => [x]
                                 end) d)))
    (List.concat (dict_values d) ++ [x]).
Proof.
  unfold dict_values. induction d as [|[k' l'] d IH]; simpl; [reflexivity|].
  destruct (keqb k k'); simpl.
  - rewrite <- !app_assoc. apply Permutation_app_head.
    apply Permutation_app_comm.
  - rewrite <- app_assoc. now apply Permutation_app_head.
Qed.

Section Constraints.
Context `{cfg : Config} `{tys : Types} `{cmp : !Components}.

(** X3: on the graph that [Xmrs] builds, [hcons] returns the handle
    constraints given, in their order, and [hcon] finds each one by its high
    handle and raises a [KeyError] for any other handle. *)
Theorem built_graph_keeps_its_hcons
        (top0 index0 xarg0 : option string) (eps0 : list EP)
        (hcons0 : list HandleConstraint) (icons0 : list IndividualConstraint)
        (vars : dict string (list (string * propval)))
        (lnk0 : option Lnk) (surface0 identifier0 : option string) (g : Xmrs) :
  Xmrs_init top0 index0 xarg0 eps0 hcons0 icons0 vars lnk0 surface0 identifier0 = Ok g ->
  hcons g = hcons0
  /\ (forall hc, In hc hcons0 -> hcon (hc_hi hc) g = Ok hc)
  /\ (forall hi, ~ In hi (map hc_hi hcons0) -> hcon hi g = Raise (KeyError (PyStr hi))).
Proof.
  intros Hg. apply Xmrs_init_built in Hg as B.
  split; [eapply built_hcons_list; eassumption|].
  split.
  - intros hc Hin. unfold hcon, dict_getitem. rewrite (built_hcons B).
    rewrite (dict_get_keyed hc_hi); [reflexivity | | assumption].
    eapply built_NoDup_hcons; eassumption.
  - intros hi Hn. unfold hcon, dict_getitem. rewrite (built_hcons B).
    now rewrite (dict_get_keyed_absent hc_hi hcons0 hi Hn).
Qed.

(** What [add_icons] does to [_icons]. *)
Lemma add_ic_icons (g : Xmrs) (ic : IndividualConstraint) :
  exists g', add_ic g ic = Ok g'
             /\ _icons g' = dict_set (ic_left ic)
                                     (match dict_get (ic_left ic) (_icons g) with
                                      | Some l => l ++ [ic]
                                      | None => [ic]
                                      end) (_icons g).
Proof.
  unfold add_ic.
  destruct (vars_getitem (Some (ic_right ic)) (_vars g)) as [dr vs1].
  destruct (vars_getitem (Some (ic_right ic)) _) as [dr2 vs3].
  eexists. split; [reflexivity|]. simpl.
  unfold dict_mem. destruct (dict_get (ic_left ic) (_icons g)) as [l|] eqn:E.
  - now rewrite E.
  - rewrite dict_get_set_same. simpl. apply dict_set_twice.
Qed.

Definition left_is (l : string) (ic : IndividualConstraint) : bool :=
  String.eqb (ic_left ic) l.

Lemma add_icons_icons (icons0 : list IndividualConstraint) (g g' : Xmrs) :
  add_icons icons0 g = Ok g' ->
  Permutation (icons g') (icons g ++ icons0)
  /\ (forall l, dict_get l (_icons g')
                = match dict_get l (_icons g), filter (left_is l) icons0 with
                  | None, [] => None
                  | Some a, b => Some (a ++ b)
                  | None, b => Some b
                  end).
Proof.
  unfold add_icons. revert g. induction icons0 as [|ic icons0 IH]; intros g; simpl.
  - intros [= <-]. split; [now rewrite app_nil_r|].
    intros l. destruct (dict_get l (_icons g)); [now rewrite app_nil_r | reflexivity].
  - destruct (add_ic_icons g ic) as (g1 & -> & E1). simpl.
    intros Hrest. apply IH in Hrest as (HP & HG). split.
    + rewrite HP. unfold icons at 1. rewrite E1.
      rewrite concat_values_set. fold (icons g).
      rewrite <- app_assoc. reflexivity.
    + intros l. rewrite HG, E1, dict_get_set.
      assert (El : left_is l ic = keqb l (ic_left ic)).
      { unfold left_is. simpl. apply String.eqb_sym. }
      rewrite El. clear El. destruct (keqb_spec l (ic_left ic)) as [Heq|Hne]; [subst l|].
      * destruct (dict_get (ic_left ic) (_icons g)); [now rewrite <- app_assoc | reflexivity].
      * destruct (dict_get l (_icons g)); reflexivity.
Qed.

(** X4: on the graph that [Xmrs] builds, [icons()] returns the
    individual constraints given, in some order (they are grouped by their
    left variable), and [icons(left)] those with that left variable, in the
    order given; it raises a [KeyError] when there is none. *)
Theorem built_graph_groups_its_icons
        (top0 index0 xarg0 : option string) (eps0 : list EP)
        (hcons0 : list HandleConstraint) (icons0 : list IndividualConstraint)
        (vars : dict string (list (string * propval)))
        (lnk0 : option Lnk) (surface0 identifier0 : option string) (g : Xmrs) :
  Xmrs_init top0 index0 xarg0 eps0 hcons0 icons0 vars lnk0 surface0 identifier0 = Ok g ->
  Permutation (icons g) icons0
  /\ (forall l, icons_of l g
                = match filter (left_is l) icons0 with
                  | [] => Raise (KeyError (PyStr l))
                  | ic :: ics => Ok (ic :: ics)
                  end).
Proof.
  unfold Xmrs_init.
  destruct (add_eps eps0 _) as [g1|] eqn:H1; simpl; [|discriminate].
  destruct (add_hcons hcons0 g1) as [g2|] eqn:H2; simpl; [|discriminate].
  destruct (add_icons icons0 g2) as [g3|] eqn:H3; simpl; [|discriminate].
  intros [= <-].
  destruct (add_eps_fields _ _ H1) as (_ & _ & _ & A4 & _).
  destruct (add_hcons_fields _ _ H2) as (_ & _ & _ & B4 & _).
  assert (E0 : _icons g2 = []) by (rewrite B4, A4; reflexivity).
  apply add_icons_icons in H3 as (HP & HG).
  unfold icons in HP at 2. rewrite E0 in HP. simpl in HP.
  split; [exact HP|].
  intros l. unfold icons_of, dict_getitem. simpl. rewrite HG, E0. simpl.
  destruct (filter (left_is l) icons0); reflexivity.
Qed.

End Constraints.

Section Variables.
Context `{cfg : Config} `{tys : Types} `{cmp : !Components}.

(** The variable [v] is a key of the table. *)
Definition has_var (vs : dict vkey VarEntry) (v : string) : Prop :=
  dict_mem (Some v) vs = true.

Lemma vars_le_has (vs vs' : dict vkey VarEntry) (v : string) :
  vars_le vs vs' -> has_var vs v -> has_var vs' v.
Proof.
  unfold has_var, dict_mem. intros Hle Hv.
  destruct (dict_get (Some v) vs) as [d|] eqn:E; [|discriminate].
  destruct (Hle _ _ E) as (d' & -> & _). reflexivity.
Qed.

Lemma step_ok_has (N : list Z) (vs vs' : dict vkey VarEntry) (v : string) :
  step_ok N vs vs' -> has_var vs v -> has_var vs' v.
Proof. intros (Hle & _). now apply vars_le_has. Qed.

Lemma registered_has (vs : dict vkey VarEntry) (v role : string) (n : Z) :
  registered vs (Some v) role n -> has_var vs v.
Proof. intros (d & l & Hd & _). unfold has_var, dict_mem. now rewrite Hd. Qed.

Lemma vars_getitem_has (x : string) (vs : dict vkey VarEntry) :
  has_var (snd (vars_getitem (Some x) vs)) x.
Proof.
  pose proof (vars_getitem_spec [] x vs) as H.
  destruct (vars_getitem (Some x) vs) as [d vs1]. destruct H as (_ & G & _).
  unfold has_var, dict_mem. simpl. now rewrite G.
Qed.

Lemma dict_set_has (x : string) (d : VarEntry) (vs : dict vkey VarEntry) :
  has_var (dict_set (Some x) d vs) x.
Proof. unfold has_var. rewrite dict_mem_set, keqb_refl. reflexivity. Qed.

Lemma touch_opt_has (v : string) (vs : dict vkey VarEntry) :
  has_var (touch_opt (Some v) vs) v.
Proof. apply vars_getitem_has. Qed.

Lemma fold_set_props_ok (N : list Z) (vars : dict string (list (string * propval)))
      (vs : dict vkey VarEntry) :
  step_ok N vs (fold_left set_props vars vs).
Proof.
  revert vs. induction vars as [|vp vars IH]; intros vs; simpl.
  - apply step_ok_refl.
  - eapply step_ok_trans; [apply set_props_ok | apply IH].
Qed.

Lemma fold_set_props_has (vars : dict string (list (string * propval)))
      (vs : dict vkey VarEntry) (v : string) :
  In v (map fst vars) -> has_var (fold_left set_props vars vs) v.
Proof.
  revert vs. induction vars as [|[x ps] vars IH]; intros vs; simpl; [tauto|].
  intros [->|Hin]; [|now apply IH].
  apply (step_ok_has (fold_set_props_ok [] vars _)).
  unfold set_props. destruct (vars_getitem (Some v) vs) as [d vs1].
  apply dict_set_has.
Qed.

Lemma add_hc_has (g g' : Xmrs) (hc : HandleConstraint) :
  add_hc g hc = Ok g' ->
  has_var (_vars g') (hc_hi hc) /\ has_var (_vars g') (hc_lo hc).
Proof.
  unfold add_hc. destruct (dict_mem (hc_hi hc) (_hcons g)); [discriminate|].
  pose proof (vars_getitem_spec [] (hc_lo hc) (_vars g)) as H1.
  pose proof (vars_getitem_has (hc_lo hc) (_vars g)) as P1.
  destruct (vars_getitem (Some (hc_lo hc)) (_vars g)) as [dlo vs1].
  destruct H1 as (S1 & G1 & _). simpl in P1.
  set (vs2 := match hcrefs dlo with
              | Some _ => vs1
              | None => dict_set (Some (hc_lo hc)) (with_hcrefs dlo (Some [])) vs1
              end).
  assert (S2 : step_ok [] vs1 vs2).
  { unfold vs2. destruct (hcrefs dlo); [apply step_ok_refl|].
    eapply step_ok_same_refs; [exact G1 | reflexivity]. }
  pose proof (vars_getitem_spec [] (hc_hi hc) vs2) as H3.
  pose proof (vars_getitem_has (hc_hi hc) vs2) as P3.
  destruct (vars_getitem (Some (hc_hi hc)) vs2) as [dhi vs3].
  destruct H3 as (S3 & _). simpl in P3.
  intros [= <-]. simpl.
  assert (S4 : forall new vs,
             step_ok [] vs
               (fold_left
                  (fun vs r =>
                     let '(d, vs') := vars_getitem (Some (hc_lo hc)) vs in
                     match hcrefs d with
                     | Some l => dict_set (Some (hc_lo hc))
                                          (with_hcrefs d (Some (l ++ [r]))) vs'
                     | None => vs'
                     end) new vs)).
  { clear. induction new as [|r new IH]; intros vs; simpl.
    - apply step_ok_refl.
    - eapply step_ok_trans; [|apply IH].
      pose proof (vars_getitem_spec [] (hc_lo hc) vs) as H.
      destruct (vars_getitem (Some (hc_lo hc)) vs) as [d vs'].
      destruct H as (S & G & _).
      eapply step_ok_trans; [exact S|].
      destruct (hcrefs d); [|apply step_ok_refl].
      eapply step_ok_same_refs; [exact G | reflexivity]. }
  split.
  - apply (step_ok_has (S4 _ vs3)). exact P3.
  - apply (step_ok_has (S4 _ vs3)). apply (step_ok_has S3).
    apply (step_ok_has S2). exact P1.
Qed.

Lemma add_hcons_has (hcons0 : list HandleConstraint) (g g' : Xmrs) :
  add_hcons hcons0 g = Ok g' ->
  vars_le (_vars g) (_vars g')
  /\ (forall hc, In hc hcons0 ->
                 has_var (_vars g') (hc_hi hc) /\ has_var (_vars g') (hc_lo hc)).
Proof.
  unfold add_hcons. revert g. induction hcons0 as [|hc hcons0 IH]; intros g; simpl.
  - intros [= <-]. split; [apply vars_le_refl | tauto].
  - destruct (add_hc g hc) as [g1|] eqn:Ha; simpl; [|discriminate].
    intros Hrest. apply IH in Hrest as (Hle & Hin).
    pose proof (add_hc_vars [] _ _ Ha) as (Hle1 & _).
    split; [eapply vars_le_trans; eassumption|].
    intros hc' [<-|Hin']; [|auto].
    destruct (add_hc_has _ _ Ha). split; eapply vars_le_has; eassumption.
Qed.

Lemma add_ic_has (g : Xmrs) (ic : IndividualConstraint) :
  exists g', add_ic g ic = Ok g'
             /\ has_var (_vars g') (ic_left ic) /\ has_var (_vars g') (ic_right ic).
Proof.
  unfold add_ic.
  pose proof (vars_getitem_spec [] (ic_right ic) (_vars g)) as H1.
  pose proof (vars_getitem_has (ic_right ic) (_vars g)) as P1.
  destruct (vars_getitem (Some (ic_right ic)) (_vars g)) as [dr vs1].
  destruct H1 as (S1 & G1 & _). simpl in P1.
  set (vs2 := match icrefs dr with
              | Some _ => vs1
              | None => dict_set (Some (ic_right ic)) (with_icrefs dr (Some [])) vs1
              end).
  assert (S2 : step_ok [] vs1 vs2).
  { unfold vs2. destruct (icrefs dr); [apply step_ok_refl|].
    eapply step_ok_same_refs; [exact G1 | reflexivity]. }
  pose proof (vars_getitem_spec [] (ic_right ic) vs2) as H3.
  destruct (vars_getitem (Some (ic_right ic)) vs2) as [dr2 vs3].
  destruct H3 as (S3 & G3 & _).
  set (vs4 := match icrefs dr2 with
              | Some l => dict_set (Some (ic_right ic))
                                   (with_icrefs dr2 (Some (l ++ [ic]))) vs3
              | None => vs3
              end).
  assert (S4 : step_ok [] vs3 vs4).
  { unfold vs4. destruct (icrefs dr2); [|apply step_ok_refl].
    eapply step_ok_same_refs; [exact G3 | reflexivity]. }
  eexists. split; [reflexivity|]. simpl. split.
  - apply vars_getitem_has.
  - apply (step_ok_has (vars_touch_ok [] (ic_left ic) vs4)).
    apply (step_ok_has S4). apply (step_ok_has S3). apply (step_ok_has S2).
    exact P1.
Qed.

Lemma add_icons_has (icons0 : list IndividualConstraint) (g g' : Xmrs) :
  add_icons icons0 g = Ok g' ->
  forall ic, In ic icons0 ->
             has_var (_vars g') (ic_left ic) /\ has_var (_vars g') (ic_right ic).
Proof.
  unfold add_icons. revert g. induction icons0 as [|ic icons0 IH]; intros g; simpl.
  - intros _ ic [].
  - destruct (add_ic_has g ic) as (g1 & Ha & Hl & Hr). rewrite Ha. simpl.
    intros Hrest ic' [<-|Hin]; [|eapply IH; eassumption].
    destruct (add_icons_spec icons0 g1) as (g2 & Hg2 & _ & Hle & _).
    unfold add_icons in Hg2. rewrite Hg2 in Hrest. injection Hrest as <-.
    split; eapply vars_le_has; eassumption.
Qed.

(** X5: on the graph that [Xmrs] builds, the top, index and xarg, the
    keys of [vars], the labels of the EPs, their argument values of the form
    of a variable, and both ends of every handle and individual constraint
    are among [variables()] and are contained in the graph; [None] is not a
    variable. *)
Theorem built_graph_registers_variables
        (top0 index0 xarg0 : option string) (eps0 : list EP)
        (hcons0 : list HandleConstraint) (icons0 : list IndividualConstraint)
        (vars : dict string (list (string * propval)))
        (lnk0 : option Lnk) (surface0 identifier0 : option string) (g : Xmrs) :
  Xmrs_init top0 index0 xarg0 eps0 hcons0 icons0 vars lnk0 surface0 identifier0 = Ok g ->
  (forall v,
      top0 = Some v \/ index0 = Some v \/ xarg0 = Some v
      \/ In v (map fst vars)
      \/ (exists e, In e eps0 /\ ep_label e = Some v)
      \/ (exists e role, In e eps0 /\ In (role, v) (ep_args e)
                         /\ var_re_match v = true)
      \/ (exists hc, In hc hcons0 /\ (hc_hi hc = v \/ hc_lo hc = v))
      \/ (exists ic, In ic icons0 /\ (ic_left ic = v \/ ic_right ic = v)) ->
      In (Some v) (variables g) /\ contains (PyStr v) g = true)
  /\ ~ In None (variables g).
Proof.
  intros Hg. pose proof (Xmrs_init_built _ _ _ _ _ _ _ _ _ _ Hg) as B.
  split.
  2:{ destruct (built_consistent B) as (_ & _ & Hn).
      intros Hin. apply dict_mem_keys in Hin. unfold dict_mem in Hin.
      now rewrite Hn in Hin. }
  intros v Hv.
  enough (Hh : has_var (_vars g) v).
  { split; [now apply dict_mem_keys | exact Hh]. }
  revert Hg. unfold Xmrs_init.
  set (vs00 := touch_opt xarg0 (touch_opt index0 (touch_opt top0 _))).
  set (vs0 := fold_left set_props vars vs00).
  destruct (add_eps eps0 _) as [g1|] eqn:H1; simpl; [|discriminate].
  destruct (add_hcons hcons0 g1) as [g2|] eqn:H2; simpl; [|discriminate].
  destruct (add_icons icons0 g2) as [g3|] eqn:H3; simpl; [|discriminate].
  intros [= <-]. simpl.
  destruct (add_eps_registered _ _ H1) as (L1 & Hreg). simpl in L1.
  destruct (add_hcons_has _ _ H2) as (L2 & Hhc).
  destruct (add_icons_spec icons0 g2) as (g3' & Hg3 & _ & L3 & _).
  rewrite H3 in Hg3. injection Hg3 as <-.
  pose proof (add_icons_has _ _ H3) as Hic.
  assert (L0 : forall x, has_var vs0 x -> has_var (_vars g3) x).
  { intros x Hx. apply (vars_le_has L3). apply (vars_le_has L2).
    now apply (vars_le_has L1). }
  assert (L00 : forall x, has_var vs00 x -> has_var (_vars g3) x).
  { intros x Hx. apply L0. now apply (step_ok_has (fold_set_props_ok [] vars vs00)). }
  destruct Hv as [->|[->|[->|[Hin|[(e & Hin & Hl)|[(e & role & Hin & Ha & Hm)|
                 [(hc & Hin & Hx)|(ic & Hin & Hx)]]]]]]].
  - apply L00. unfold vs00.
    apply (step_ok_has (touch_opt_ok [] xarg0 _)).
    apply (step_ok_has (touch_opt_ok [] index0 _)). apply touch_opt_has.
  - apply L00. unfold vs00.
    apply (step_ok_has (touch_opt_ok [] xarg0 _)). apply touch_opt_has.
  - apply L00. apply touch_opt_has.
  - apply L0. now apply fold_set_props_has.
  - apply (vars_le_has L3). apply (vars_le_has L2).
    destruct (Hreg e Hin) as (Hr & _). eapply registered_has. now apply Hr.
  - apply (vars_le_has L3). apply (vars_le_has L2).
    destruct (Hreg e Hin) as (_ & Hr). eapply registered_has. eapply Hr; eassumption.
  - apply (vars_le_has L3). destruct (Hhc hc Hin) as (Hhi & Hlo).
    destruct Hx as [<-|<-]; assumption.
  - destruct (Hic ic Hin) as (Hle & Hri). destruct Hx as [<-|<-]; assumption.
Qed.

End Variables.

(** ** The traversal [_bfs] finds what can be reached *)






(** ** What [validate] checks *)



Section Validate.
Context `{cfg : Config} `{tys : Types} `{cmp : !Components}.












End Validate.

(** ** From a variable to its nodes *)

Section KnownVariables.
Context `{cfg : Config} `{tys : Types} `{cmp : !Components}.






End KnownVariables.

(** ** The further properties on concrete inputs *)

(** The graph of "it rains", with two individual constraints. *)
Definition rain_ep : EP :=
  mkEP 10000 "_rain_v_1_rel" (Some "h1") [("ARG0", "e2")] None None None.

Definition topic : IndividualConstraint :=
  {| ic_left := "e2"; ic_relation := "topic"; ic_right := "x4" |}.

Definition focus : IndividualConstraint :=
  {| ic_left := "e2"; ic_relation := "focus"; ic_right := "x6" |}.

Definition rain_xmrs : result Xmrs :=
  Xmrs_init (Some "h0") (Some "e2") None [rain_ep] [qeq "h0" "h1"]
            [topic; focus] [("e2", [("TENSE", PropStr "present")])]
            None None None.

Lemma built_graph_keeps_its_EPs_witness :
  match rain_xmrs with
  | Ok g => eps None g = Ok [rain_ep] /\ labels g = Ok [Some "h1"]
  | Raise _ => False
  end.
Proof.
  destruct rain_xmrs as [g|x] eqn:E; [|vm_compute in E; discriminate].
  destruct (built_graph_keeps_its_EPs _ _ _ _ _ _ _ _ _ _ E)
    as (_ & He & _ & Hl & _).
  split; assumption.
Defined.

Lemma built_graph_keeps_its_hcons_witness :
  match rain_xmrs with
  | Ok g => hcons g = [qeq "h0" "h1"]
  | Raise _ => False
  end.
Proof.
  destruct rain_xmrs as [g|x] eqn:E; [|vm_compute in E; discriminate].
  apply (built_graph_keeps_its_hcons _ _ _ _ _ _ _ _ _ _ E).
Defined.

Lemma built_graph_groups_its_icons_witness :
  match rain_xmrs with
  | Ok g => Permutation (icons g) [topic; focus]
  | Raise _ => False
  end.
Proof.
  destruct rain_xmrs as [g|x] eqn:E; [|vm_compute in E; discriminate].
  apply (built_graph_groups_its_icons _ _ _ _ _ _ _ _ _ _ E).
Defined.

Lemma built_graph_registers_variables_witness :
  match rain_xmrs with
  | Ok g => ~ In None (variables g)
  | Raise _ => False
  end.
Proof.
  destruct rain_xmrs as [g|x] eqn:E; [|vm_compute in E; discriminate].
  apply (built_graph_registers_variables _ _ _ _ _ _ _ _ _ _ E).
Defined.



